(** * node-manatee: the shard-topology client and its primary resolver

    A shallow embedding of [manatee.js]: the election-name decoder and the
    two URL reducers, the debounced topology handlers of the [Manatee]
    client, its zookeeper session life cycle, the [_watchNode] watch chains
    and the [ManateePrimaryResolver] state machine, followed by the
    properties of the specification that were checked against them. *)

From Stdlib Require Import ZArith Lia Strings.Ascii Strings.Byte.
From stdpp Require Import base option list sorting strings gmap.

Local Open Scope Z_scope.

(** ** The JavaScript built-ins the source relies on *)

Module JS.

(** A JavaScript number as far as the source uses one: the result of
    [parseInt(_, 10)] and differences of such results, all of them doubles
    with an integer value.  [Num n] is the double of value [n].  [NaN] is
    kept apart because [NaN === NaN] is false and a [NaN] returned by a
    sort comparator counts as [+0]; the two infinities are what a digit
    string too long for a double reads as. *)
Inductive number := NaN | Num (n : Z) | Infinity (negative : bool).

(** The double nearest to an integer, ties to the even significand of 53
    bits; from [2 ^ 1024] on it is an infinity. *)
Definition to_double (n : Z) : number :=
  let m := Z.abs n in
  let e := Z.log2 m - 52 in
  if e <=? 0 then Num n
  else
    let q := Z.shiftr m e in
    let rest := Z.land m (Z.ones e) in
    let half := Z.shiftl 1 (e - 1) in
    let q :=
      if (half <? rest) || ((rest =? half) && Z.odd q) then q + 1 else q in
    let r := Z.shiftl q e in
    if 2 ^ 1024 <=? r then Infinity (n <? 0) else Num (Z.sgn n * r).

(** [a - b]: the difference is rounded like every result. *)
Definition minus (a b : number) : number :=
  match a, b with
  | Num x, Num y => to_double (x - y)
  | Infinity s, Num _ => Infinity s
  | Num _, Infinity s => Infinity (negb s)
  | Infinity s, Infinity s' => if Bool.eqb s s' then NaN else Infinity s
  | _, _ => NaN
  end.

(** [a === b] on numbers. *)
Definition number_strict_eq (a b : number) : bool :=
  match a, b with
  | Num x, Num y => x =? y
  | Infinity s, Infinity s' => Bool.eqb s s'
  | _, _ => false
  end.

Definition ascii_code (c : ascii) : Z := Z.of_N (N_of_ascii c).

(** [s.split(sep)] for a one-character separator: never empty. *)
Fixpoint split (sep : ascii) (s : string) : list string :=
  match s with
  | EmptyString => [EmptyString]
  | String c s' =>
      if Ascii.eqb c sep then EmptyString :: split sep s'
      else match split sep s' with
           | field :: fields => String c field :: fields
           | [] => [String c EmptyString]
           end
  end.

Fixpoint lastIndexOf_from (c : ascii) (s : string) (i found : Z) : Z :=
  match s with
  | EmptyString => found
  | String a s' =>
      lastIndexOf_from c s' (i + 1) (if Ascii.eqb a c then i else found)
  end.

(** [s.lastIndexOf(c)]: [-1] when [c] does not occur. *)
Definition lastIndexOf (c : ascii) (s : string) : Z :=
  lastIndexOf_from c s 0 (-1).

Fixpoint string_drop (n : nat) (s : string) : string :=
  match n, s with
  | O, _ => s
  | S n', String _ s' => string_drop n' s'
  | S _, EmptyString => EmptyString
  end.

(** [s.substring(start)]: a negative [start] counts as 0. *)
Definition substring (s : string) (start : Z) : string :=
  string_drop (Z.to_nat (Z.max 0 start)) s.

(** The white space [parseInt] skips, within the 8-bit characters. *)
Definition isStrWhiteSpaceChar (c : ascii) : bool :=
  let n := ascii_code c in
  ((9 <=? n) && (n <=? 13)) || (n =? 32).

Fixpoint trimStart (s : string) : string :=
  match s with
  | String c s' => if isStrWhiteSpaceChar c then trimStart s' else s
  | EmptyString => EmptyString
  end.

Definition digit_of (c : ascii) : option Z :=
  let n := ascii_code c in
  if (48 <=? n) && (n <=? 57) then Some (n - 48) else None.

(** The value of the longest prefix of decimal digits; [None] when the
    first character is not a digit. *)
Fixpoint parse_digits (acc : option Z) (s : string) : option Z :=
  match s with
  | String c s' =>
      match digit_of c with
      | Some d => parse_digits (Some (10 * default 0 acc + d)) s'
      | None => acc
      end
  | EmptyString => acc
  end.

(** [parseInt(s, 10)]: the number value of the integer the digits
    spell. *)
Definition parseInt (s : string) : number :=
  let s := trimStart s in
  let '(sign, s) :=
    match s with
    | String c s' =>
        if Ascii.eqb c "-" then (-1, s')
        else if Ascii.eqb c "+" then (1, s')
        else (1, s)
    | EmptyString => (1, s)
    end in
  match parse_digits None s with
  | Some n => to_double (sign * n)
  | None => NaN
  end.

(** [Array.prototype.sort(comparefn)].  A comparator result that is
    [NaN] counts as [+0].  For a consistent comparator the language fixes
    the result of a stable sort, and it is the list computed here, by
    insertion: an element moves behind exactly those it compares greater
    than.  For a comparator that is not consistent (as [compare] below on
    names whose tail does not read as a number, its result [NaN]) the
    language leaves the order to the engine, and the list computed here
    is one of the permutations an engine may give.  The properties of
    the client that rest on the arrangement of a sorted array are
    therefore stated for names that read as numbers. *)
Definition order_positive (v : number) : bool :=
  match v with
  | Num d => 0 <? d
  | Infinity negative => negb negative
  | NaN => false
  end.

Fixpoint sort_insert {A} (comparefn : A → A → number) (x : A) (l : list A)
    : list A :=
  match l with
  | [] => [x]
  | y :: l' =>
      if order_positive (comparefn x y) then y :: sort_insert comparefn x l'
      else x :: l
  end.

Fixpoint Array_sort {A} (comparefn : A → A → number) (l : list A) : list A :=
  match l with
  | [] => []
  | x :: l' => sort_insert comparefn x (Array_sort comparefn l')
  end.

(** [Buffer.toString('base64')]. *)
Definition base64_alphabet : list ascii :=
  String.list_ascii_of_string
    "ABCDEFGHIJKLMNOPQRSTUVWXYZabcdefghijklmnopqrstuvwxyz0123456789+/".

Definition base64_digit (n : N) : ascii :=
  nth (N.to_nat n) base64_alphabet "A"%char.

Definition base64_pad : ascii := "="%char.

Fixpoint base64 (bytes : list byte) : string :=
  match bytes with
  | [] => EmptyString
  | [a] =>
      let a := Byte.to_N a in
      String (base64_digit (N.shiftr a 2))
        (String (base64_digit (N.shiftl (N.land a 3) 4))
           (String base64_pad (String base64_pad EmptyString)))
  | [a; b] =>
      let a := Byte.to_N a in
      let b := Byte.to_N b in
      String (base64_digit (N.shiftr a 2))
        (String (base64_digit
                   (N.lor (N.shiftl (N.land a 3) 4) (N.shiftr b 4)))
           (String (base64_digit (N.shiftl (N.land b 15) 2))
              (String base64_pad EmptyString)))
  | a :: b :: c :: rest =>
      let a := Byte.to_N a in
      let b := Byte.to_N b in
      let c := Byte.to_N c in
      String (base64_digit (N.shiftr a 2))
        (String (base64_digit
                   (N.lor (N.shiftl (N.land a 3) 4) (N.shiftr b 4)))
           (String (base64_digit
                      (N.lor (N.shiftl (N.land b 15) 2) (N.shiftr c 6)))
              (String (base64_digit (N.land c 63)) (base64 rest))))
  end.

End JS.

(** ** The Manatee client *)

Module Manatee.
Import JS.

(** *** Data *)

Definition Buffer := list byte.

(** What [_watchNode] reports about a node: all three are null when the
    node does not exist. *)
Record NodeView := {
  data : option Buffer;
  version : option Z;
  children : option (list string)
}.

(** The cluster state document, in the shape the source documents:
    [primary] and [sync] are objects with a [pgUrl], [async] is an array
    of such objects; each of the three may be missing.  Other fields are
    not read. *)
Record Peer := { pgUrl : string }.

Record ClusterState := {
  primary : option Peer;
  sync : option Peer;
  async : option (list Peer)
}.

(** What [JSON.parse] returns, as far as the client reads it: [null],
    whose fields cannot be read; one of the other falsy values ([0],
    [false], the empty string), which have no fields; or any other value,
    read through its three fields (a number, [true], a string or an array
    has none of them).  Fields that are present are taken to have the
    documented type. *)
Inductive Document :=
| json_null
| json_falsy
| json_object (cs : ClusterState).

(** *** Election names to URLs *)

(** The sequence number [compare] reads off a name. *)
Definition seqOf (a : string) : number :=
  parseInt (substring a (lastIndexOf "-" a + 1)).

Definition compare (a b : string) : number :=
  let seqA := seqOf a in
  let seqB := seqOf b in
  minus seqA seqB.

Definition transformPgUrl (zkNode : string) : string :=
  let encodedString := List.hd EmptyString (split "-" zkNode) in
  let data := split ":" encodedString in
  if (length data =? 1)%nat
  then "tcp://" +:+ nth 0 data EmptyString
  else "tcp://" +:+ nth 0 data EmptyString +:+ ":" +:+ nth 1 data EmptyString.

(** The decoder as the specification words it, to be compared with
    [transformPgUrl]: the prefix is what stands before the last ['-'] (the
    whole name when it has none). *)
Definition decodeChild_spec (name : string) : string :=
  let cut := lastIndexOf "-" name in
  let prefix :=
    if cut <? 0 then name else String.substring 0 (Z.to_nat cut) name in
  let fields := split ":" prefix in
  match fields with
  | [field0] => "tcp://" +:+ field0
  | field0 :: field1 :: _ => "tcp://" +:+ field0 +:+ ":" +:+ field1
  | [] => "tcp://"
  end.

(** [sort] works in place: the array handed in is left sorted. *)
Definition sortChildren (children : list string) : list string :=
  Array_sort compare children.

Definition childrenToUrls (children : option (list string)) : list string :=
  map transformPgUrl (sortChildren (default [] children)).

Definition push {A} (array : list A) (x : A) : list A := array ++ [x].

Definition clusterStateToUrls (cs : ClusterState) : list string :=
  let urls := [] in
  let urls :=
    match primary cs with Some p => push urls (pgUrl p) | None => urls end in
  let urls :=
    match sync cs with Some p => push urls (pgUrl p) | None => urls end in
  let urls :=
    match async cs with
    | Some peers => foldl (λ urls a, push urls (pgUrl a)) urls peers
    | None => urls
    end in
  urls.

(** *** The client object and what it emits *)

Inductive event :=
| EvReady
| EvTopology (urls : list string)
| EvError (message : string)
| EvClose.

(** The fields of a [Manatee] object; [_zk] names the zookeeper handle
    by its index among the handles created so far.  [_clusterState] is
    only ever tested for truthiness: [None] stands for [null] and for
    the other falsy values. *)
Record client := {
  _zk : option nat;
  _inited : bool;
  _closed : bool;
  _clusterState : option ClusterState;
  _actives : option (list string);
  _urls : list string
}.

Definition new_Manatee : client :=
  {| _zk := None; _inited := false; _closed := false;
     _clusterState := None; _actives := None; _urls := [] |}.

Definition set_zk (v : option nat) (self : client) : client :=
  {| _zk := v; _inited := _inited self; _closed := _closed self;
     _clusterState := _clusterState self; _actives := _actives self;
     _urls := _urls self |}.

Definition set_inited (v : bool) (self : client) : client :=
  {| _zk := _zk self; _inited := v; _closed := _closed self;
     _clusterState := _clusterState self; _actives := _actives self;
     _urls := _urls self |}.

Definition set_closed (v : bool) (self : client) : client :=
  {| _zk := _zk self; _inited := _inited self; _closed := v;
     _clusterState := _clusterState self; _actives := _actives self;
     _urls := _urls self |}.

Definition set_clusterState (v : option ClusterState) (self : client)
    : client :=
  {| _zk := _zk self; _inited := _inited self; _closed := _closed self;
     _clusterState := v; _actives := _actives self; _urls := _urls self |}.

Definition set_actives (v : option (list string)) (self : client) : client :=
  {| _zk := _zk self; _inited := _inited self; _closed := _closed self;
     _clusterState := _clusterState self; _actives := v;
     _urls := _urls self |}.

Definition set_urls (v : list string) (self : client) : client :=
  {| _zk := _zk self; _inited := _inited self; _closed := _closed self;
     _clusterState := _clusterState self; _actives := _actives self;
     _urls := v |}.

(** *** Debounced emission *)

(** [u === urls[i]]: an index past the end reads [undefined]. *)
Definition strict_eq_at (u : string) (urls : list string) (i : nat) : bool :=
  match urls !! i with
  | Some v => bool_decide (u = v)
  | None => false
  end.

(** The [forEach] over the stored list, carrying [equal] and the index. *)
Definition debounce_equal (urls stored : list string) : bool :=
  let equal := (length urls =? length stored)%nat in
  fst (foldl (λ '(equal, i) u, (equal && strict_eq_at u urls i, S i))
         (equal, O) stored).

Definition handleTopologyChange (urls : option (list string)) (self : client)
    : client * list event :=
  let urls := default [] urls in
  if debounce_equal urls (_urls self) then (self, [])
  else
    let self := set_urls urls self in
    (self, if _inited self then [EvTopology (_urls self)] else []).

(** One call of [handleTopologyChange] after another. *)
Fixpoint handleTopologyChanges (calls : list (option (list string)))
    (self : client) : client * list event :=
  match calls with
  | [] => (self, [])
  | urls :: calls' =>
      let '(self, evs) := handleTopologyChange urls self in
      let '(self, evs') := handleTopologyChanges calls' self in
      (self, evs ++ evs')
  end.

Section Handlers.

(** [Buffer.toString('utf8')] and [JSON.parse] ([None] when it throws)
    belong to the runtime. *)
Variable toString_utf8 : Buffer → string.
Variable JSON_parse : string → option Document.

Definition parse_error_message : string :=
  "error JSON parsing zookeeper cluster state".

Definition handleClusterState (res : option NodeView) (self : client)
    : client * list event :=
  match res ≫= data with
  | None =>
      if negb (_inited self) then (self, [])
      else
        let self := set_clusterState None self in
        match _actives self with
        | Some actives =>
            (* the array held in [_actives] is the one sorted *)
            let self := set_actives (Some (sortChildren actives)) self in
            handleTopologyChange (Some (childrenToUrls (Some actives))) self
        | None => (self, [])
        end
  | Some buf =>
      let text := toString_utf8 buf in
      match JSON_parse text with
      | None => (self, [EvError parse_error_message])
      | Some json_null =>
          (* stored; [clusterStateToUrls(null)] then throws reading
             [cs.primary], outside the [try] *)
          (set_clusterState None self, [])
      | Some json_falsy =>
          let self := set_clusterState None self in
          handleTopologyChange (Some []) self
      | Some (json_object cs) =>
          let self := set_clusterState (Some cs) self in
          handleTopologyChange (Some (clusterStateToUrls cs)) self
      end
  end.

(** Whether the call ends in the [TypeError] of reading a field of
    [null]; [handleClusterState] then gives the client as the throw
    leaves it. *)
Definition handleClusterState_throws (res : option NodeView) : bool :=
  match res ≫= data with
  | Some buf =>
      match JSON_parse (toString_utf8 buf) with
      | Some json_null => true
      | _ => false
      end
  | None => false
  end.

Definition handleActive (res : option NodeView) (self : client)
    : client * list event :=
  match res ≫= children with
  | None => (set_actives None self, [])
  | Some actives =>
      let self := set_actives (Some actives) self in
      match _clusterState self with
      | Some _ => (self, [])
      | None =>
          let self := set_actives (Some (sortChildren actives)) self in
          handleTopologyChange (Some (childrenToUrls (Some actives))) self
      end
  end.

(** *** Session life cycle ([_init], [setupZkClient], [close]) *)

(** One zookeeper handle made by [setupZkClient], with the two [once]
    latches of its closure. *)
Record session := {
  setWatches_called : bool;
  setWatches_returned : bool;
  resetZkClient_called : bool;
  listening : bool;
  zk_closed : bool
}.

Definition new_session : session :=
  {| setWatches_called := false; setWatches_returned := false;
     resetZkClient_called := false; listening := true;
     zk_closed := false |}.

(** What [process.nextTick] has been handed. *)
Inductive deferred :=
| DeferInit
| DeferSetupZkClient
| DeferEmit (e : event).

Record runtime := {
  self_ : client;
  emitReady_called : bool;
  sessions : list session;
  nextTicks : list deferred
}.

Definition with_self (c : client) (rt : runtime) : runtime :=
  {| self_ := c; emitReady_called := emitReady_called rt;
     sessions := sessions rt; nextTicks := nextTicks rt |}.

Definition with_sessions (l : list session) (rt : runtime) : runtime :=
  {| self_ := self_ rt; emitReady_called := emitReady_called rt;
     sessions := l; nextTicks := nextTicks rt |}.

Definition nextTick (d : deferred) (rt : runtime) : runtime :=
  {| self_ := self_ rt; emitReady_called := emitReady_called rt;
     sessions := sessions rt; nextTicks := nextTicks rt ++ [d] |}.

(** The constructor: fields set, [_init] posted to the next tick. *)
Definition construct : runtime :=
  {| self_ := new_Manatee; emitReady_called := false; sessions := [];
     nextTicks := [DeferInit] |}.

Definition emitReady (rt : runtime) : runtime :=
  if emitReady_called rt then rt
  else
    let rt :=
      {| self_ := set_inited true (self_ rt); emitReady_called := true;
         sessions := sessions rt; nextTicks := nextTicks rt |} in
    let rt := nextTick (DeferEmit EvReady) rt in
    nextTick (DeferEmit (EvTopology (_urls (self_ rt)))) rt.

Definition setupZkClient (rt : runtime) : runtime :=
  let zk := length (sessions rt) in
  with_self (set_zk (Some zk) (self_ rt))
    (with_sessions (sessions rt ++ [new_session]) rt).

Definition resetZkClientOnce (zk : nat) (rt : runtime) : runtime :=
  match sessions rt !! zk with
  | Some s =>
      if resetZkClient_called s then rt
      else
        let s :=
          {| setWatches_called := setWatches_called s;
             setWatches_returned := setWatches_returned s;
             resetZkClient_called := true; listening := listening s;
             zk_closed := true |} in
        nextTick DeferSetupZkClient
          (with_sessions (<[zk := s]> (sessions rt)) rt)
  | None => rt
  end.

(** The zookeeper events [setupZkClient] listens for. *)
Inductive zk_event :=
| zk_state
| zk_connected
| zk_connectedReadOnly
| zk_disconnected
| zk_expired
| zk_authenticationFailed
| zk_error.

Definition on_zk_event (zk : nat) (e : zk_event) (rt : runtime) : runtime :=
  match sessions rt !! zk with
  | Some s =>
      if negb (listening s) then rt
      else
        match e with
        | zk_connected =>
            if setWatches_called s then rt
            else
              let s :=
                {| setWatches_called := true;
                   setWatches_returned := setWatches_returned s;
                   resetZkClient_called := resetZkClient_called s;
                   listening := listening s; zk_closed := zk_closed s |} in
              with_sessions (<[zk := s]> (sessions rt)) rt
        | zk_expired | zk_error => resetZkClientOnce zk rt
        | zk_state | zk_connectedReadOnly | zk_disconnected
        | zk_authenticationFailed => rt
        end
  | None => rt
  end.

(** The callback [setWatchesOnce] was given, run when the pipeline of
    the two watches ends. *)
Definition on_setWatches_done (zk : nat) (err : bool) (rt : runtime)
    : runtime :=
  match sessions rt !! zk with
  | Some s =>
      if setWatches_called s && negb (setWatches_returned s) then
        let s :=
          {| setWatches_called := true; setWatches_returned := true;
             resetZkClient_called := resetZkClient_called s;
             listening := listening s; zk_closed := zk_closed s |} in
        let rt := with_sessions (<[zk := s]> (sessions rt)) rt in
        if err then resetZkClientOnce zk rt else emitReady rt
      else rt
  | None => rt
  end.

Definition close (rt : runtime) : runtime * list event :=
  let rt :=
    match _zk (self_ rt) with
    | Some zk =>
        match sessions rt !! zk with
        | Some s =>
            let s :=
              {| setWatches_called := setWatches_called s;
                 setWatches_returned := setWatches_returned s;
                 resetZkClient_called := resetZkClient_called s;
                 listening := false; zk_closed := true |} in
            with_sessions (<[zk := s]> (sessions rt)) rt
        | None => rt
        end
    | None => rt
    end in
  if negb (_closed (self_ rt))
  then (with_self (set_closed true (self_ rt)) rt, [EvClose])
  else (rt, []).

(** What the event loop delivers to the client: an event of a zookeeper
    handle, the end of [_setWatches] for a handle (with or without an
    error), a view handed to [_handleClusterState] or to [_handleActive]
    (by [onWatching] for the first one, by the watch afterwards), a call of
    [close]. *)
Inductive input :=
| ZkEmits (zk : nat) (e : zk_event)
| SetWatchesDone (zk : nat) (err : bool)
| ClusterStateSeen (res : option NodeView)
| ActiveSeen (res : option NodeView)
| CallClose.

Definition deliver (i : input) (rt : runtime) : runtime * list event :=
  match i with
  | ZkEmits zk e => (on_zk_event zk e rt, [])
  | SetWatchesDone zk err => (on_setWatches_done zk err rt, [])
  | ClusterStateSeen res =>
      let '(c, evs) := handleClusterState res (self_ rt) in
      (with_self c rt, evs)
  | ActiveSeen res =>
      let '(c, evs) := handleActive res (self_ rt) in
      (with_self c rt, evs)
  | CallClose => close rt
  end.

Definition run_deferred (d : deferred) (rt : runtime)
    : runtime * list event :=
  match d with
  | DeferInit | DeferSetupZkClient => (setupZkClient rt, [])
  | DeferEmit e => (rt, [e])
  end.

(** The next-tick queue is emptied once the running callback returns;
    none of the posted functions posts another. *)
Definition drain (rt : runtime) : runtime * list event :=
  foldl (λ '(rt, evs) d,
           let '(rt, evs') := run_deferred d rt in (rt, evs ++ evs'))
    ({| self_ := self_ rt; emitReady_called := emitReady_called rt;
        sessions := sessions rt; nextTicks := [] |}, [])
    (nextTicks rt).

Definition turn (i : input) (rt : runtime) : runtime * list event :=
  let '(rt, evs) := deliver i rt in
  let '(rt, evs') := drain rt in
  (rt, evs ++ evs').

(** The client once its constructor's tick has run. *)
Definition started : runtime := fst (drain construct).

Fixpoint run (inputs : list input) (rt : runtime) : runtime * list event :=
  match inputs with
  | [] => (rt, [])
  | i :: inputs' =>
      let '(rt, evs) := turn i rt in
      let '(rt, evs') := run inputs' rt in
      (rt, evs ++ evs')
  end.

End Handlers.

End Manatee.

(** ** [_watchNode]: one node kept under watch by one-shot watches *)

Module NodeWatcher.
Import Manatee.

Record Stat := { stat_version : Z }.

(** [err.name] as far as the source tells errors apart. *)
Inductive zk_error := NO_NODE | OTHER_ERROR.

(** The variables of the [_watchNode] closure; [cb_called] is the
    [called] flag of [once(cb)]. *)
Record vars := {
  currStat : option Stat;
  currChildren : option (list string);
  currData : option Buffer;
  cb_called : bool
}.

Definition getRes (v : vars) : NodeView :=
  {| data := currData v;
     version := stat_version <$> currStat v;
     children := currChildren v |}.

(** The functions [_watchNode] hands to zookeeper and to [setTimeout].
    [getData_callback regWatch] is the callback built by
    [getData(regWatch)]; [getChildren_callback subcb] the one built by
    [registerChildrenWatch(subcb)], where a given [subcb] is the [done]
    of a [getData(regWatch)] and is recorded by that flag. *)
Inductive callback :=
| getData_callback (regWatch : bool)
| getChildren_callback (subcb : option bool)
| exists_callback
| dataWatchFired
| childrenWatchFired
| timeout_getData
| timeout_registerChildrenWatch.

Global Instance callback_eq_dec : EqDecision callback.
Proof. solve_decision. Defined.

(** What a callback is called with. *)
Inductive payload :=
| GetDataResult (err : option zk_error) (data : option Buffer)
    (stat : option Stat)
| GetChildrenResult (err : option zk_error) (children : option (list string))
| ExistsResult (stat : option Stat)
| Fired.

(** What the closure asks of the outside. *)
Inductive request :=
| zk_getData (k : callback)
| zk_getChildren (watcher k : callback)
| zk_exists (watcher k : callback)
| setTimeout (k : callback) (ms : Z)
| call_cb (res : NodeView)
| call_wat (res : NodeView).

Section Closure.

(** [self._closed] of the owning client. *)
Variable closed : bool.

Definition getData (regWatch : bool) : list request :=
  if closed then [] else [zk_getData (getData_callback regWatch)].

Definition registerChildrenWatch (subcb : option bool) : list request :=
  if closed then []
  else [zk_getChildren childrenWatchFired (getChildren_callback subcb)].

Definition registerDataWatch : list request :=
  if closed then [] else [zk_exists dataWatchFired exists_callback].

(** [done] inside the callback of [getData(regWatch)]. *)
Definition done (regWatch : bool) : list request :=
  if regWatch then registerDataWatch else [].

Definition is_version_0 (stat : option Stat) : bool :=
  match stat with
  | Some st => stat_version st =? 0
  | None => false
  end.

Definition on_getData (regWatch : bool) (err : option zk_error)
    (data : option Buffer) (stat : option Stat) (v : vars)
    : vars * list request :=
  let prevStat := currStat v in
  let v :=
    {| currStat := stat; currChildren := currChildren v;
       currData := data; cb_called := cb_called v |} in
  let after (v : vars) : vars * list request :=
    if negb (cb_called v) then
      match currStat v with
      | Some _ => (v, registerChildrenWatch (Some regWatch))
      | None =>
          let res := getRes v in
          ({| currStat := currStat v; currChildren := currChildren v;
              currData := currData v; cb_called := true |},
           call_cb res :: done regWatch)
      end
    else if negb (bool_decide (is_Some prevStat)) && is_version_0 (currStat v)
    then (v, registerChildrenWatch (Some regWatch))
    else (v, call_wat (getRes v) :: done regWatch) in
  match err with
  | Some NO_NODE =>
      after {| currStat := currStat v; currChildren := None;
               currData := currData v; cb_called := cb_called v |}
  | Some OTHER_ERROR => (v, [setTimeout timeout_getData 5000])
  | None => after v
  end.

Definition on_getChildren (subcb : option bool) (err : option zk_error)
    (children : option (list string)) (v : vars) : vars * list request :=
  match err with
  | Some NO_NODE => (v, [])
  | Some OTHER_ERROR => (v, [setTimeout timeout_registerChildrenWatch 5000])
  | None =>
      let v :=
        {| currStat := currStat v; currChildren := children;
           currData := currData v; cb_called := cb_called v |} in
      let res := getRes v in
      let '(v, told) :=
        if negb (cb_called v)
        then ({| currStat := currStat v; currChildren := currChildren v;
                 currData := currData v; cb_called := true |},
              call_cb res)
        else (v, call_wat res) in
      (v, told :: match subcb with
                  | Some regWatch => done regWatch
                  | None => []
                  end)
  end.

Definition on_exists (stat : option Stat) (v : vars) : vars * list request :=
  match stat, currStat v with
  | Some st, Some cur =>
      if negb (stat_version cur =? stat_version st)
      then (v, getData false) else (v, [])
  | _, _ => (v, [])
  end.

(** One callback run with what it was given; a payload of the wrong
    kind is not a call zookeeper can make. *)
Definition invoke (k : callback) (p : payload) (v : vars)
    : vars * list request :=
  match k, p with
  | getData_callback regWatch, GetDataResult err data stat =>
      on_getData regWatch err data stat v
  | getChildren_callback subcb, GetChildrenResult err children =>
      on_getChildren subcb err children v
  | exists_callback, ExistsResult stat => on_exists stat v
  | dataWatchFired, Fired => (v, getData true)
  | childrenWatchFired, Fired => (v, registerChildrenWatch None)
  | timeout_getData, Fired => (v, getData false)
  | timeout_registerChildrenWatch, Fired => (v, registerChildrenWatch None)
  | _, _ => (v, [])
  end.

(** The functions a request leaves with zookeeper or the timer. *)
Definition registered (r : request) : list callback :=
  match r with
  | zk_getData k => [k]
  | zk_getChildren watcher k => [watcher; k]
  | zk_exists watcher k => [watcher; k]
  | setTimeout k _ => [k]
  | call_cb _ | call_wat _ => []
  end.

(** The closure together with the functions still waiting to be called
    once. *)
Record watch := {
  closure : vars;
  waiting : list callback
}.

Fixpoint remove_first (k : callback) (l : list callback) : list callback :=
  match l with
  | [] => []
  | k' :: l' => if decide (k = k') then l' else k' :: remove_first k l'
  end.

(** [_watchNode(zk, path, wat, cb)]: its body ends in [getData(true)]. *)
Definition watchNode : watch * list request :=
  let reqs := getData true in
  ({| closure := {| currStat := None; currChildren := None;
                    currData := None; cb_called := false |};
      waiting := concat (map registered reqs) |}, reqs).

(** Zookeeper or the timer calls a waiting function. *)
Definition fire (k : callback) (p : payload) (w : watch)
    : watch * list request :=
  if bool_decide (k ∈ waiting w) then
    let '(v, reqs) := invoke k p (closure w) in
    ({| closure := v;
        waiting := remove_first k (waiting w) ++ concat (map registered reqs) |},
     reqs)
  else (w, []).

Fixpoint fire_all (calls : list (callback * payload)) (w : watch)
    : watch * list request :=
  match calls with
  | [] => (w, [])
  | (k, p) :: calls' =>
      let '(w, reqs) := fire k p w in
      let '(w, reqs') := fire_all calls' w in
      (w, reqs ++ reqs')
  end.

End Closure.

(** [registerDataWatch] is the one place a data watch is installed, by
    its [zk.exists]. *)
Definition installs_data_watch (r : request) : bool :=
  match r with
  | zk_exists _ _ => true
  | _ => false
  end.

(** The functions from which no path leads to [registerDataWatch]. *)
Definition off_data_chain (k : callback) : bool :=
  match k with
  | getData_callback false
  | getChildren_callback None
  | getChildren_callback (Some false)
  | childrenWatchFired
  | timeout_getData
  | timeout_registerChildrenWatch => true
  | _ => false
  end.

(** A request that installs no data watch and leaves only such functions
    waiting. *)
Definition harmless (r : request) : Prop :=
  installs_data_watch r = false
  ∧ Forall (λ k, off_data_chain k = true) (registered r).

(** The watch after its first read failed with a transient error. *)
Definition first_read_failed : watch :=
  (fire false (getData_callback true)
     (GetDataResult (Some OTHER_ERROR) None None) (watchNode false).1).1.

End NodeWatcher.

(** ** [ManateePrimaryResolver] *)

Module Resolver.
Import JS.

(** The object handed to [diffPrimaryAndEmit], before it is given a key. *)
Record Candidate := {
  c_name : string;
  c_address : string;
  c_port : number
}.

Record PrimaryRecord := {
  name : string;
  address : string;
  port : number;
  key : string
}.

Definition with_key (np : Candidate) (k : string) : PrimaryRecord :=
  {| name := c_name np; address := c_address np; port := c_port np;
     key := k |}.

Inductive event :=
| added (key : string) (backend : PrimaryRecord)
| removed (key : string).

(** The source of [crypto.randomBytes]: a tape of bytes and how many of
    them were handed out. *)
Record entropy := {
  tape : nat → byte;
  drawn : nat
}.

Definition randomBytes (n : nat) (e : entropy) : list byte * entropy :=
  (map (tape e) (seq (drawn e) n),
   {| tape := tape e; drawn := (drawn e + n)%nat |}).

Inductive fsm_state := stopped | starting | running | failed | stopping.

(** [mpr_manatee] names the client by its number among those created. *)
Record resolver := {
  mpr_manatee : option nat;
  mpr_previous : option PrimaryRecord;
  mpr_primary : option PrimaryRecord;
  mpr_lastError : option string;
  fsm : fsm_state;
  clients_created : nat;
  random : entropy
}.

Definition new_ManateePrimaryResolver (e : entropy) : resolver :=
  {| mpr_manatee := None; mpr_previous := None; mpr_primary := None;
     mpr_lastError := None; fsm := stopped; clients_created := O;
     random := e |}.

Definition count (r : resolver) : Z :=
  match mpr_primary r with
  | None => 0
  | Some _ => 1
  end.

Definition getLastError (r : resolver) : option string := mpr_lastError r.

(** The three [===] of [diffPrimaryAndEmit]. *)
Definition same_primary (op : PrimaryRecord) (np : Candidate) : bool :=
  bool_decide (name op = c_name np)
  && bool_decide (address op = c_address np)
  && number_strict_eq (port op) (c_port np).

Definition diffPrimaryAndEmit (np : Candidate) (r : resolver)
    : resolver * list event :=
  let op := mpr_primary r in
  if match op with Some o => same_primary o np | None => false end
  then (r, [])
  else
    let '(bytes, e) := randomBytes 9 (random r) in
    let np := with_key np (base64 bytes) in
    ({| mpr_manatee := mpr_manatee r; mpr_previous := op;
        mpr_primary := Some np; mpr_lastError := mpr_lastError r;
        fsm := fsm r; clients_created := clients_created r; random := e |},
     added (key np) np ::
       match op with
       | Some o => [removed (key o)]
       | None => []
       end).

Definition set_fsm (st : fsm_state) (r : resolver) : resolver :=
  {| mpr_manatee := mpr_manatee r; mpr_previous := mpr_previous r;
     mpr_primary := mpr_primary r; mpr_lastError := mpr_lastError r;
     fsm := st; clients_created := clients_created r; random := random r |}.

(** Entering a state runs its [state_*] function. *)
Definition state_starting (r : resolver) : resolver :=
  match mpr_manatee r with
  | None =>
      {| mpr_manatee := Some (clients_created r);
         mpr_previous := mpr_previous r; mpr_primary := mpr_primary r;
         mpr_lastError := mpr_lastError r; fsm := starting;
         clients_created := S (clients_created r); random := random r |}
  | Some _ => set_fsm starting r
  end.

(** [state_stopping] listens for [close] and calls [close()] on the
    client.  The client is the resolver's own and has not been closed
    before, so [close()] emits [close] before it returns: the listener
    runs inside the call and takes the machine on to [stopped]; the
    reference is dropped after that. *)
Definition state_stopping (r : resolver) : resolver :=
  let r := set_fsm stopping r in
  (* [this.mpr_manatee.close()], and the [close] it emits *)
  let r := set_fsm stopped r in
  (* [this.mpr_manatee = null] *)
  {| mpr_manatee := None; mpr_previous := mpr_previous r;
     mpr_primary := mpr_primary r; mpr_lastError := mpr_lastError r;
     fsm := fsm r; clients_created := clients_created r;
     random := random r |}.

Definition state_failed (r : resolver) : resolver :=
  {| mpr_manatee := mpr_manatee r; mpr_previous := mpr_primary r;
     mpr_primary := None; mpr_lastError := mpr_lastError r;
     fsm := failed; clients_created := clients_created r;
     random := random r |}.

(** The [error] listener of [starting] and [running]. *)
Definition on_error (err : string) (r : resolver) : resolver :=
  state_failed
    {| mpr_manatee := mpr_manatee r; mpr_previous := mpr_previous r;
       mpr_primary := mpr_primary r; mpr_lastError := Some err;
       fsm := fsm r; clients_created := clients_created r;
       random := random r |}.

(** What a call or a listener comes to: it returns, or it throws (a
    failed assertion, a [TypeError]) and leaves the object as it was. *)
Inductive outcome :=
| Returned (r : resolver) (emitted : list event)
| Threw (r : resolver).

Definition resolver_of (o : outcome) : resolver :=
  match o with
  | Returned r _ => r
  | Threw r => r
  end.

Definition emitted_by (o : outcome) : list event :=
  match o with
  | Returned _ evs => evs
  | Threw _ => []
  end.

(** The fields of [url.parse(_)] the resolver reads. *)
Record Url := {
  protocol : option string;
  hostname : option string;
  url_port : option string
}.

Inductive input :=
| CallStart
| CallStop
| ManateeReady
| ManateeError (err : string)
| ManateeTopology (urls : list string)
| ManateeClose
| TimeoutFired.

Section Machine.

(** [url.parse], [net.isIPv4] and [net.isIPv6] belong to the runtime. *)
Variable mod_url_parse : string → Url.
Variables isIPv4 isIPv6 : string → bool.

(** The [topology] listener of [running]. *)
Definition on_topology (urls : list string) (r : resolver) : outcome :=
  match urls with
  | [] => Threw r
  | url0 :: _ =>
      let primary := mod_url_parse url0 in
      if negb (bool_decide (protocol primary = Some "tcp:")) then Threw r
      else
        match hostname primary with
        | Some host =>
            if isIPv4 host || isIPv6 host then
              let '(r, evs) :=
                diffPrimaryAndEmit
                  {| c_name := "primary"; c_address := host;
                     c_port := match url_port primary with
                               | Some p => parseInt p
                               | None => NaN
                               end |} r in
              Returned r evs
            else Threw r
        | None => Threw r
        end
  end.

(** A listener runs only in the state that registered it.  The [close]
    of the client reaches the listener of [stopping] inside
    [state_stopping]; a machine resting in [stopping] would take it the
    same way. *)
Definition step (i : input) (r : resolver) : outcome :=
  match i, fsm r with
  | CallStart, stopped => Returned (state_starting r) []
  | CallStart, _ => Threw r
  | CallStop, running => Returned (state_stopping r) []
  | CallStop, failed => Returned (set_fsm stopped r) []
  | CallStop, _ => Threw r
  | ManateeReady, starting => Returned (set_fsm running r) []
  | ManateeError err, (starting | running) => Returned (on_error err r) []
  | ManateeTopology urls, running => on_topology urls r
  | ManateeClose, stopping => Returned (set_fsm stopped r) []
  | TimeoutFired, failed => Returned (state_starting r) []
  | _, _ => Returned r []
  end.

Fixpoint run (inputs : list input) (r : resolver) : resolver * list event :=
  match inputs with
  | [] => (r, [])
  | i :: inputs' =>
      let o := step i r in
      let '(r', evs) := run inputs' (resolver_of o) in
      (r', emitted_by o ++ evs)
  end.

End Machine.

(** [removed] comes only right behind an [added]. *)
Fixpoint removed_follows_added (prev_added : bool) (t : list event) : bool :=
  match t with
  | [] => true
  | added _ _ :: t' => removed_follows_added true t'
  | removed _ :: t' => prev_added && removed_follows_added false t'
  end.

(** [list()]: the object holding the primary under its key.  It comes
    last because its name hides the type of lists from here on. *)
Definition list (r : resolver) : gmap string PrimaryRecord :=
  let backends := ∅ in
  match mpr_primary r with
  | Some p => <[key p := p]> backends
  | None => backends
  end.

End Resolver.

(** ** Notions the statements are written with *)

Module Notions.
Import JS Manatee.

(** Characters of a string, to say that a separator does not occur. *)
Definition occurs (c : ascii) (s : string) : Prop :=
  c ∈ String.list_ascii_of_string s.

(** A name whose tail behind the last ['-'] reads as a number, one that
    a double holds exactly (a sequence number has ten digits). *)
Definition numbered (a : string) : Prop :=
  ∃ n, seqOf a = Num n ∧ Z.abs n ≤ 2 ^ 53.

(** An election node as the specification's data model has it: the
    host, the PostgreSQL, backup and heartbeat ports of the newer
    encoding (none in the legacy one), and the sequence number zookeeper
    appended. *)
Record ElectionNode := {
  node_host : string;
  node_ports : option (string * string * string);
  node_seq : N
}.

(** [width] decimal digits of [n], the low ones, in front of [tail]. *)
Fixpoint pad_decimal (width : nat) (n : N) (tail : string) : string :=
  match width with
  | O => tail
  | S w => pad_decimal w (n / 10) (String (ascii_of_N (48 + n mod 10)) tail)
  end.

(** The ten digits zookeeper appends. *)
Definition sequence_text (n : N) : string := pad_decimal 10 n EmptyString.

(** What stands before the last ['-'] of the name. *)
Definition node_prefix (m : ElectionNode) : string :=
  match node_ports m with
  | None => node_host m
  | Some (pgPort, backupPort, hbPort) =>
      node_host m +:+ ":" +:+ pgPort +:+ ":" +:+ backupPort +:+ ":" +:+ hbPort
  end.

(** The name of the node: [<host>-<seq>], or
    [<host>:<pgPort>:<backupPort>:<hbPort>-<seq>]. *)
Definition nodeName (m : ElectionNode) : string :=
  node_prefix m +:+ "-" +:+ sequence_text (node_seq m).


(** A field of a name holds neither separator. *)
Definition plain (s : string) : Prop := ¬ occurs "-" s ∧ ¬ occurs ":" s.

Definition legal (m : ElectionNode) : Prop :=
  plain (node_host m)
  ∧ match node_ports m with
    | None => True
    | Some (pgPort, backupPort, hbPort) =>
        plain pgPort ∧ plain backupPort ∧ plain hbPort
    end
  ∧ (node_seq m < 10 ^ 10)%N.

(** The children of an election directory. *)
Definition election_names (children : list string) : Prop :=
  ∃ members, Forall legal members ∧ children = map nodeName members.




(** Ascending sequence numbers. *)
Definition seq_le (a b : string) : Prop :=
  match seqOf a, seqOf b with
  | Num x, Num y => x ≤ y
  | _, _ => False
  end.

Definition optional {A} (o : option A) : list A :=
  match o with
  | Some x => [x]
  | None => []
  end.

(** The numbers below [n], for checks that run through all of them. *)
Definition below (n : nat) : list N := map N.of_nat (seq 0 n).

(** The four indices [base64] takes from three bytes. *)
Definition sextets (a b c : N) : N * N * N * N :=
  (N.shiftr a 2,
   N.lor (N.shiftl (N.land a 3) 4) (N.shiftr b 4),
   N.lor (N.shiftl (N.land b 15) 2) (N.shiftr c 6),
   N.land c 63).

(** The lists carried by the [topology] events of a trace, in order. *)
Definition topologies (t : list event) : list (list string) :=
  omap (λ e, match e with EvTopology urls => Some urls | _ => None end) t.

Fixpoint adjacent_differ (l : list (list string)) : Prop :=
  match l with
  | u :: (v :: _) as l' => u ≠ v ∧ adjacent_differ l'
  | _ => True
  end.

Definition is_ready (e : event) : bool :=
  match e with EvReady => true | _ => false end.

Definition is_topology (e : event) : bool :=
  match e with EvTopology _ => true | _ => false end.

Fixpoint count_ready (t : list event) : nat :=
  match t with
  | [] => O
  | e :: t' => ((if is_ready e then 1 else 0) + count_ready t')%nat
  end.

Fixpoint count_topology (t : list event) : nat :=
  match t with
  | [] => O
  | e :: t' => ((if is_topology e then 1 else 0) + count_topology t')%nat
  end.



(** What a turn that goes through the debounce does to the stored list
    and the trace: nothing is emitted and, when inited, the stored list is
    kept; or the client is inited, the stored list changes and is emitted. *)
Definition debounced (before after : client) (evs : list event) : Prop :=
  _inited after = _inited before
  ∧ ((topologies evs = []
      ∧ (_inited before = true → _urls after = _urls before))
     ∨ (_inited before = true
        ∧ topologies evs = [_urls after]
        ∧ _urls after ≠ _urls before)).

(** Between turns: once inited, the stored list is the last one emitted. *)
Definition debounce_inv (rt : runtime) (t : list event) : Prop :=
  nextTicks rt = []
  ∧ emitReady_called rt = _inited (self_ rt)
  ∧ adjacent_differ (topologies t)
  ∧ (if _inited (self_ rt)
     then last (topologies t) = Some (_urls (self_ rt))
     else topologies t = []).

(** A runtime to run the handlers with: bytes read as characters, and a
    [JSON.parse] that knows four documents and throws on the rest. *)
Definition sample_toString (b : Buffer) : string :=
  String.string_of_list_byte b.

Definition dq : string := String (Ascii.ascii_of_nat 34) EmptyString.

(** The text of [{ primary: { pgUrl: tcp://1.1.1.1:5432 } }], quoted as
    JSON has it. *)
Definition sample_document : string :=
  "{" +:+ dq +:+ "primary" +:+ dq +:+ ":{" +:+ dq +:+ "pgUrl" +:+ dq +:+ ":"
    +:+ dq +:+ "tcp://1.1.1.1:5432" +:+ dq +:+ "}}".

Definition sample_state : ClusterState :=
  {| primary := Some {| pgUrl := "tcp://1.1.1.1:5432" |};
     sync := None; async := None |}.

Definition empty_state : ClusterState :=
  {| primary := None; sync := None; async := None |}.

Definition sample_parse (text : string) : option Document :=
  if bool_decide (text = sample_document) then Some (json_object sample_state)
  else if bool_decide (text = "{}") then Some (json_object empty_state)
  else if bool_decide (text = "null") then Some json_null
  else if bool_decide (text = "0") then Some json_falsy
  else None.

Definition view_of_data (text : string) : option NodeView :=
  Some {| data := Some (String.list_byte_of_string text);
          version := Some 0; children := None |}.

Definition view_of_children (names : list string) : option NodeView :=
  Some {| data := None; version := Some 0; children := Some names |}.

Definition view_absent : option NodeView :=
  Some {| data := None; version := None; children := None |}.

(** An inited client whose election lists two peers the state node does
    not name. *)
Definition diverging_client : client :=
  {| _zk := Some O; _inited := true; _closed := false;
     _clusterState := Some sample_state;
     _actives := Some ["20.20.20.20:5432:12345-0000000002";
                       "19.19.19.19:5432:12345-0000000001"];
     _urls := ["tcp://1.1.1.1:5432"] |}.

(** A life that reaches [agreeing_client]: connect, first views of the
    state node and of the election, watches set. *)
Definition agreeing_life : list input :=
  [ZkEmits O zk_connected;
   ClusterStateSeen (view_of_data sample_document);
   ActiveSeen (view_of_children ["1.1.1.1:5432:12345-0000000001"]);
   SetWatchesDone O false].


(** A life with a session expiry after [ready]. *)
Definition expiring_life : list input :=
  [ZkEmits O zk_connected;
   ActiveSeen (view_of_children ["b:5432:1-0000000002"; "a:5432:1-0000000001"]);
   SetWatchesDone O false;
   ZkEmits O zk_expired;
   ZkEmits 1%nat zk_connected;
   ActiveSeen (view_of_children ["b:5432:1-0000000002"]);
   SetWatchesDone 1%nat false].

(** A life that ends with neither source: the state node is read, the
    election directory is missing, the watches are set, and the state
    node is deleted. *)
Definition orphaned_life : list input :=
  [ZkEmits O zk_connected;
   ClusterStateSeen (view_of_data sample_document);
   ActiveSeen view_absent;
   SetWatchesDone O false;
   ClusterStateSeen view_absent].


(** An inited client whose state node and election agree on one peer. *)
Definition agreeing_client : client :=
  {| _zk := Some O; _inited := true; _closed := false;
     _clusterState := Some sample_state;
     _actives := Some ["1.1.1.1:5432:12345-0000000001"];
     _urls := ["tcp://1.1.1.1:5432"] |}.

(** A runtime for the resolver: a [url.parse] for texts of the form
    [proto://host:port], every host taken for an address, and a tape of
    bytes that counts up. *)
Definition sample_url_parse (url : string) : Resolver.Url :=
  match split ":" url with
  | [proto; host; port] =>
      {| Resolver.protocol := Some (proto +:+ ":");
         Resolver.hostname := Some (string_drop 2 host);
         Resolver.url_port := Some port |}
  | [proto; host] =>
      {| Resolver.protocol := Some (proto +:+ ":");
         Resolver.hostname := Some (string_drop 2 host);
         Resolver.url_port := None |}
  | _ =>
      {| Resolver.protocol := None; Resolver.hostname := None;
         Resolver.url_port := None |}
  end.

Definition sample_entropy : Resolver.entropy :=
  {| Resolver.tape := λ n, default "000"%byte (Byte.of_nat n);
     Resolver.drawn := O |}.

(** Start, [ready], the topology of the state document, then one whose
    primary has moved. *)
Definition primary_moves : list Resolver.input :=
  [Resolver.CallStart; Resolver.ManateeReady;
   Resolver.ManateeTopology
     ["tcp://1.1.1.1:5432"; "tcp://2.2.2.2:5432"; "tcp://3.3.3.3:5432"];
   Resolver.ManateeTopology
     ["tcp://1.1.1.1:5432"; "tcp://3.3.3.3:5432"];
   Resolver.ManateeTopology ["tcp://9.9.9.9:5432"; "tcp://3.3.3.3:5432"]].

End Notions.

(** ** The helpers of the client test *)

Module ClientTest.
Import Manatee.

Definition id (ip : string) : string := ip +:+ ":5432:12345-".

Definition u (ip : string) : string := "tcp://" +:+ ip +:+ ":5432".

(** [if (ips[i])] on a string that may be missing. *)
Definition given (ip : option string) : option string :=
  match ip with
  | Some s => if bool_decide (s = EmptyString) then None else Some s
  | None => None
  end.

(** The object [stateFrom] builds; it hands it over as the bytes of its
    [JSON.stringify]. *)
Definition stateFrom (ips : list string) : ClusterState :=
  {| primary := (λ ip, {| pgUrl := u ip |}) <$> given (ips !! 0%nat);
     sync := (λ ip, {| pgUrl := u ip |}) <$> given (ips !! 1%nat);
     async := Some (map (λ ip, {| pgUrl := u ip |}) (drop 2 ips)) |}.

End ClientTest.

(** ** Measures of traces and states *)

Module Measures.
Import JS Manatee NodeWatcher.

Definition is_close (e : event) : bool :=
  match e with EvClose => true | _ => false end.

Definition is_error (e : event) : bool :=
  match e with EvError _ => true | _ => false end.

Definition count_events (f : event → bool) (t : list event) : nat :=
  length (List.filter f t).

(** A zookeeper handle that [close] has not been called on. *)
Definition is_open (s : session) : bool := negb (zk_closed s).

Definition open_handles (rt : runtime) : nat :=
  length (List.filter is_open (sessions rt)).

(** Every handle but the newest has been reset and closed, the newest has
    not been reset and is the one [_zk] names. *)
Definition handed_off (rt : runtime) : Prop :=
  nextTicks rt = []
  ∧ ∃ older newest,
      sessions rt = older ++ [newest]
      ∧ _zk (self_ rt) = Some (length older)
      ∧ resetZkClient_called newest = false
      ∧ Forall (λ s, zk_closed s = true ∧ resetZkClient_called s = true) older.



(** Neighbours [compare] does not put the other way round. *)
Definition in_order (a b : string) : Prop :=
  order_positive (compare a b) = false.

Section Parse.

Variable toString_utf8 : Buffer → string.
Variable JSON_parse : string → option Document.

(** A delivery of state data that [JSON.parse] rejects. *)
Definition unparseable (i : input) : bool :=
  match i with
  | ClusterStateSeen res =>
      match res ≫= data with
      | Some buf => bool_decide (JSON_parse (toString_utf8 buf) = None)
      | None => false
      end
  | _ => false
  end.

(** A delivery of state data that parses to [null] or to another falsy
    value: the client stores it and has no state to rely on. *)
Definition stateless_document (i : input) : bool :=
  match i with
  | ClusterStateSeen res =>
      match res ≫= data with
      | Some buf =>
          match JSON_parse (toString_utf8 buf) with
          | Some json_null | Some json_falsy => true
          | _ => false
          end
      | None => false
      end
  | _ => false
  end.

(** A delivery as the specification's data model has it: children that
    are the names of election nodes, state data that is no falsy
    document. *)
Definition expected (i : input) : Prop :=
  match i with
  | ActiveSeen res =>
      ∀ names, res ≫= children = Some names → Notions.election_names names
  | _ => stateless_document i = false
  end.

End Parse.



Definition calls_close (i : input) : bool :=
  match i with
  | CallClose => true
  | _ => false
  end.

(** No handle was closed but by its reset. *)
Definition closed_by_reset (rt : runtime) : Prop :=
  Forall (λ s, zk_closed s = true → resetZkClient_called s = true)
    (sessions rt).



(** Requests of a watch. *)
Definition is_call_cb (r : request) : bool :=
  match r with call_cb _ => true | _ => false end.

Definition is_call_wat (r : request) : bool :=
  match r with call_wat _ => true | _ => false end.

Definition is_zk_call (r : request) : bool :=
  match r with
  | zk_getData _ | zk_getChildren _ _ | zk_exists _ _ => true
  | _ => false
  end.

Definition count_requests (f : request → bool) (t : list request) : nat :=
  length (List.filter f t).

(** No [wat] before the first [cb]. *)
Fixpoint cb_first (t : list request) : bool :=
  match t with
  | [] => true
  | r :: t' => is_call_cb r || (negb (is_call_wat r) && cb_first t')
  end.

(** The functions that carry the data watch on: the read that will
    register it, the children read that will, and the watch itself. *)
Definition carries_data_watch (k : callback) : bool :=
  match k with
  | getData_callback true
  | getChildren_callback (Some true)
  | dataWatchFired => true
  | _ => false
  end.

Definition data_watch_carriers (w : watch) : nat :=
  length (List.filter carries_data_watch (waiting w)).

Definition data_watches (w : watch) : nat :=
  length (List.filter (λ k, bool_decide (k = dataWatchFired)) (waiting w)).

Definition absent_view : NodeView :=
  {| data := None; version := None; children := None |}.

(** The functions of the data chain. *)
Definition on_data_chain (k : callback) : bool :=
  match k with
  | getData_callback _ | exists_callback | dataWatchFired | timeout_getData =>
      true
  | _ => false
  end.

(** Every data read that is answered finds the node. *)
Definition reads_succeed (calls : list (callback * payload)) : Prop :=
  Forall (λ c, match c.2 with
               | GetDataResult err _ stat => err = None ∧ is_Some stat
               | _ => True
               end) calls.

(** No children read, and no children in the views handed out. *)
Definition without_children (r : request) : Prop :=
  match r with
  | zk_getChildren _ _ => False
  | call_cb res | call_wat res => children res = None
  | _ => True
  end.

(** The watch whose node was absent at the start and is first seen again
    by the read the data watch set off. *)
Definition seen_again (data : option Buffer) (stat : Stat) : watch :=
  (fire_all false
     [(getData_callback true, GetDataResult (Some NO_NODE) None None);
      (dataWatchFired, Fired);
      (getData_callback true, GetDataResult None data (Some stat))]
     (watchNode false).1).1.

(** The watch whose node was there for the first data read and gone for
    the first children read. *)
Definition gone_between (data : option Buffer) (stat : Stat) : watch :=
  (fire_all false
     [(getData_callback true, GetDataResult None data (Some stat));
      (getChildren_callback (Some true),
       GetChildrenResult (Some NO_NODE) None)]
     (watchNode false).1).1.

(** [_setWatches] ending with an error.  [_watchNode] calls the [cb] it
    is given with a null error only, so the pipeline of the two watches
    has no error to end with. *)
Definition failed_setup (i : input) : bool :=
  match i with
  | SetWatchesDone _ true => true
  | _ => false
  end.

(** Every handle is closed, and none that still has its listeners can
    be reset. *)
Definition shut (rt : runtime) : Prop :=
  nextTicks rt = []
  ∧ Forall (λ s, zk_closed s = true
                 ∧ (listening s = false ∨ resetZkClient_called s = true))
      (sessions rt).

(** A record the resolver made: named [primary], under a key of twelve
    characters. *)
Definition well_keyed (p : Resolver.PrimaryRecord) : Prop :=
  Resolver.name p = "primary" ∧ String.length (Resolver.key p) = 12%nat.

Definition well_keyed_event (ev : Resolver.event) : Prop :=
  match ev with
  | Resolver.added k p => Resolver.key p = k ∧ well_keyed p
  | Resolver.removed k => String.length k = 12%nat
  end.

(** What holds of a resolver between two inputs. *)
Definition resolver_inv (r : Resolver.resolver) : Prop :=
  (Resolver.fsm r = Resolver.starting ∨ Resolver.fsm r = Resolver.running
   ∨ Resolver.fsm r = Resolver.failed → is_Some (Resolver.mpr_manatee r))
  ∧ Resolver.fsm r ≠ Resolver.stopping
  ∧ (Resolver.fsm r = Resolver.failed →
     Resolver.mpr_primary r = None ∧ is_Some (Resolver.mpr_lastError r))
  ∧ (∀ n, Resolver.mpr_manatee r = Some n →
       (n < Resolver.clients_created r)%nat)
  ∧ (∀ p, Resolver.mpr_primary r = Some p → well_keyed p)
  ∧ (∀ p, Resolver.mpr_previous r = Some p → well_keyed p).

(** The record of the last [added] of a trace. *)
Definition last_added (t : list Resolver.event)
    : option Resolver.PrimaryRecord :=
  last (omap (λ ev, match ev with
                    | Resolver.added _ p => Some p
                    | Resolver.removed _ => None
                    end) t).

Definition is_added (ev : Resolver.event) : bool :=
  match ev with
  | Resolver.added _ _ => true
  | Resolver.removed _ => false
  end.

Definition count_added (t : list Resolver.event) : nat :=
  length (List.filter is_added t).

Definition count_removed (t : list Resolver.event) : nat :=
  length (List.filter (λ ev, negb (is_added ev)) t).

(** The number of backends [list()] returns. *)
Definition held (r : Resolver.resolver) : nat :=
  match Resolver.mpr_primary r with
  | Some _ => 1
  | None => 0
  end.

(** An input that is neither a topology nor an error of the client. *)
Definition quiet (i : Resolver.input) : bool :=
  match i with
  | Resolver.ManateeTopology _ | Resolver.ManateeError _ => false
  | _ => true
  end.

Definition is_start (i : Resolver.input) : bool :=
  match i with
  | Resolver.CallStart => true
  | _ => false
  end.

Definition count_starts (inputs : list Resolver.input) : nat :=
  length (List.filter is_start inputs).

End Measures.

(** * Properties *)

(** ** Election names *)

Section PeerEncoder.
Import JS Manatee Notions.

Lemma split_nonempty sep s : split sep s ≠ [].
Proof.
  destruct s as [|c s]; simpl; [done|].
  destruct (Ascii.eqb c sep); [done|].
  by destruct (split sep s).
Qed.

Lemma hd_split_first sep p rest :
  ¬ occurs sep p →
  List.hd EmptyString (split sep (p +:+ String sep rest)) = p.
Proof.
  unfold occurs. induction p as [|c p IH]; simpl; intros Hno.
  - by rewrite Ascii.eqb_refl.
  - destruct (Ascii.eqb_spec c sep) as [->|Hne].
    + exfalso. apply Hno. by left.
    + assert (Hp : ¬ sep ∈ String.list_ascii_of_string p).
      { intros Hin. apply Hno. by right. }
      specialize (IH Hp).
      destruct (split sep (p +:+ String sep rest)) eqn:E; simpl in *.
      * by apply split_nonempty in E.
      * by rewrite IH.
Qed.

Lemma hd_split_none sep p :
  ¬ occurs sep p → split sep p = [p].
Proof.
  unfold occurs. induction p as [|c p IH]; simpl; intros Hno; [done|].
  destruct (Ascii.eqb_spec c sep) as [->|Hne].
  - exfalso. apply Hno. by left.
  - rewrite IH; [done|]. intros Hin. apply Hno. by right.
Qed.

(** What [transformPgUrl] reads is the part of the name before its FIRST
    ['-']: everything behind that character is dropped. *)
Lemma transformPgUrl_first_dash p rest :
  ¬ occurs "-" p →
  transformPgUrl (p +:+ String "-" rest) = transformPgUrl p.
Proof.
  intros Hno. unfold transformPgUrl.
  rewrite (hd_split_first _ _ _ Hno), (hd_split_none _ _ Hno). done.
Qed.

Lemma lastIndexOf_from_absent c s i found :
  ¬ occurs c s → lastIndexOf_from c s i found = found.
Proof.
  unfold occurs. revert i found.
  induction s as [|a s IH]; intros i found Hno; simpl; [done|].
  destruct (Ascii.eqb_spec a c) as [->|Hne].
  - exfalso. apply Hno. by left.
  - apply IH. intros Hin. apply Hno. by right.
Qed.

Lemma lastIndexOf_from_last c p rest i found :
  ¬ occurs c rest →
  lastIndexOf_from c (p +:+ String c rest) i found
  = i + Z.of_nat (String.length p).
Proof.
  intros Hno. revert i found.
  induction p as [|a p IH]; intros i found; simpl.
  - rewrite Ascii.eqb_refl, lastIndexOf_from_absent by done. lia.
  - rewrite IH. lia.
Qed.

Lemma substring_prefix p q :
  String.substring 0 (String.length p) (p +:+ q) = p.
Proof.
  induction p as [|a p IH]; simpl.
  - by destruct q.
  - by rewrite IH.
Qed.

(** On a name with a single ['-'] the code and the specification's decoder
    agree; they part only when the host itself holds a ['-']. *)
Lemma transformPgUrl_single_dash p rest :
  ¬ occurs "-" p → ¬ occurs "-" rest →
  transformPgUrl (p +:+ String "-" rest)
  = decodeChild_spec (p +:+ String "-" rest).
Proof.
  intros Hp Hrest. rewrite transformPgUrl_first_dash by done.
  unfold decodeChild_spec, lastIndexOf.
  rewrite lastIndexOf_from_last by done. rewrite Z.add_0_l.
  destruct (Z.ltb_spec (Z.of_nat (String.length p)) 0) as [Hneg|_]; [lia|].
  rewrite Nat2Z.id, substring_prefix.
  unfold transformPgUrl. rewrite (hd_split_none _ _ Hp). simpl.
  pose proof (split_nonempty ":" p) as Hne.
  destruct (split ":" p) as [|f0 [|f1 fs]]; done.
Qed.

(** C2 (the code departs from the specification).  On the election name
    [my-host-0000000001], whose host holds a ['-'], [transformPgUrl] cuts
    at the first ['-'] and returns [tcp://my], while decoding the part
    before the last ['-'], as the specification has it and as [compare]
    reads the sequence number, gives [tcp://my-host]. *)
Theorem transformPgUrl_hyphenated_host :
  transformPgUrl "my-host-0000000001" = "tcp://my"
  ∧ decodeChild_spec "my-host-0000000001" = "tcp://my-host"
  ∧ seqOf "my-host-0000000001" = Num 1
  ∧ transformPgUrl "my-host:5432:1:2-0000000001" = "tcp://my"
  ∧ decodeChild_spec "my-host:5432:1:2-0000000001" = "tcp://my-host:5432".
Proof. repeat split; reflexivity. Qed.

(** *** The two reducers *)

Lemma foldl_push {A B} (f : A → B) (l : list A) (acc : list B) :
  foldl (λ urls a, push urls (f a)) acc l = acc ++ map f l.
Proof.
  revert acc. induction l as [|a l IH]; intros acc; simpl.
  - by rewrite app_nil_r.
  - rewrite IH. unfold push. by rewrite <- app_assoc.
Qed.

Lemma clusterStateToUrls_order cs :
  clusterStateToUrls cs =
    optional (pgUrl <$> primary cs) ++ optional (pgUrl <$> sync cs)
    ++ map pgUrl (default [] (async cs)).
Proof.
  unfold clusterStateToUrls.
  destruct (primary cs), (sync cs), (async cs); simpl;
    rewrite ?foldl_push; unfold push; simpl; by rewrite ?app_nil_r.
Qed.

Lemma sort_insert_perm {A} (cmp : A → A → number) x l :
  sort_insert cmp x l ≡ₚ x :: l.
Proof.
  induction l as [|y l IH]; simpl; [done|].
  destruct (order_positive (cmp x y)); [|done].
  rewrite IH. apply Permutation_swap.
Qed.

Lemma Array_sort_perm {A} (cmp : A → A → number) l :
  Array_sort cmp l ≡ₚ l.
Proof.
  induction l as [|x l IH]; simpl; [done|].
  by rewrite sort_insert_perm, IH.
Qed.

(** *** Doubles *)

(** Up to [2 ^ 53] an integer is its own double. *)
Lemma to_double_exact n : Z.abs n ≤ 2 ^ 53 → to_double n = Num n.
Proof.
  intros Hn. unfold to_double.
  destruct (Z.leb_spec (Z.log2 (Z.abs n) - 52) 0) as [_|Hgt]; [done|].
  destruct (Z.eq_dec (Z.abs n) (2 ^ 53)) as [Heq|Hne].
  - assert (n = 2 ^ 53 ∨ n = - 2 ^ 53) as [-> | ->] by lia; by vm_compute.
  - exfalso.
    destruct (Z.eq_dec (Z.abs n) 0) as [H0|H0].
    + rewrite H0 in Hgt. simpl in Hgt. lia.
    + assert (Z.log2 (Z.abs n) < 53) by (apply Z.log2_lt_pow2; lia). lia.
Qed.

(** Rounding keeps the sign. *)
Lemma to_double_sign d : order_positive (to_double d) = (0 <? d).
Proof.
  unfold to_double.
  destruct (Z.leb_spec (Z.log2 (Z.abs d) - 52) 0) as [_|He]; [done|].
  assert (Hm : 0 < Z.abs d).
  { destruct (Z.eq_dec (Z.abs d) 0) as [H0|H0]; [|lia].
    rewrite H0 in He. simpl in He. lia. }
  assert (Hq : 0 < Z.shiftr (Z.abs d) (Z.log2 (Z.abs d) - 52)).
  { rewrite Z.shiftr_div_pow2 by lia. apply Z.div_str_pos.
    split; [apply Z.pow_pos_nonneg; lia|].
    transitivity (2 ^ Z.log2 (Z.abs d)).
    - apply Z.pow_le_mono_r; lia.
    - by apply Z.log2_spec. }
  match goal with
  | |- context [Z.shiftl ?q ?e] =>
      assert (Hq' : 0 < q) by (destruct (_ || _); lia);
      assert (Hr : 0 < Z.shiftl q e);
      [|set (r := Z.shiftl q e) in *; clearbody r]
  end.
  { rewrite Z.shiftl_mul_pow2 by lia.
    apply Z.mul_pos_pos; [done|]. apply Z.pow_pos_nonneg; lia. }
  destruct (2 ^ 1024 <=? r); simpl.
  - destruct (Z.ltb_spec d 0), (Z.ltb_spec 0 d); simpl; try done; lia.
  - destruct (Z.ltb_spec 0 (Z.sgn d * r)), (Z.ltb_spec 0 d); try done; nia.
Qed.

Lemma seq_le_trans a b c : seq_le a b → seq_le b c → seq_le a c.
Proof.
  unfold seq_le. destruct (seqOf a), (seqOf b), (seqOf c); try done. lia.
Qed.

Lemma compare_not_positive a b :
  numbered a → numbered b →
  order_positive (compare a b) = false → seq_le a b.
Proof.
  unfold seq_le, compare.
  intros (x & -> & _) (y & -> & _); simpl. rewrite to_double_sign.
  intros H. apply Z.ltb_ge in H. lia.
Qed.

Lemma compare_positive a b :
  numbered a → numbered b →
  order_positive (compare a b) = true → seq_le b a.
Proof.
  unfold seq_le, compare.
  intros (x & -> & _) (y & -> & _); simpl. rewrite to_double_sign.
  intros H. apply Z.ltb_lt in H. lia.
Qed.

Lemma sort_insert_sorted x l :
  numbered x → Forall numbered l →
  StronglySorted seq_le l →
  StronglySorted seq_le (sort_insert compare x l).
Proof.
  intros Hx Hl Hs. induction Hs as [|y l Hs IH Hy]; simpl.
  - repeat constructor.
  - apply Forall_cons in Hl as [Hny Hl].
    destruct (order_positive (compare x y)) eqn:E.
    + constructor; [by apply IH|].
      rewrite sort_insert_perm. constructor; [|done].
      by apply compare_positive.
    + pose proof (compare_not_positive _ _ Hx Hny E) as Hxy.
      constructor; [by constructor|].
      constructor; [done|].
      eapply Forall_impl; [exact Hy|].
      intros z Hz. by eapply seq_le_trans.
Qed.

Lemma sortChildren_sorted l :
  Forall numbered l → StronglySorted seq_le (sortChildren l).
Proof.
  unfold sortChildren. induction l as [|x l IH]; simpl; intros Hl.
  - constructor.
  - apply Forall_cons in Hl as [Hx Hl].
    apply sort_insert_sorted; [done| |by apply IH].
    by rewrite Array_sort_perm.
Qed.

(** *** Election names as the specification has them *)

Lemma forallb_below n (f : N → bool) k :
  forallb f (below n) = true → (k < N.of_nat n)%N → f k = true.
Proof.
  intros Hall Hk. apply (proj1 (forallb_forall _ _) Hall).
  unfold below. rewrite <- (N2Nat.id k). apply in_map, in_seq. lia.
Qed.

Lemma append_cons x (a b : string) : String x a +:+ b = String x (a +:+ b).
Proof. reflexivity. Qed.

Lemma append_empty (b : string) : EmptyString +:+ b = b.
Proof. reflexivity. Qed.

Lemma append_assoc_string (a b c : string) :
  (a +:+ b) +:+ c = a +:+ (b +:+ c).
Proof.
  induction a as [|x a IH]; [done|]. rewrite !append_cons. by f_equal.
Qed.

Lemma occurs_append c a b : occurs c (a +:+ b) ↔ occurs c a ∨ occurs c b.
Proof.
  unfold occurs. induction a as [|x a IH].
  - rewrite append_empty. simpl. split; [by right|].
    intros [H|H]; [|done]. by apply elem_of_nil in H.
  - rewrite append_cons. simpl. rewrite !elem_of_cons, IH. tauto.
Qed.

Lemma split_at_separator sep p rest :
  ¬ occurs sep p →
  split sep (p +:+ String sep rest) = p :: split sep rest.
Proof.
  unfold occurs. induction p as [|c p IH]; intros Hno.
  - rewrite append_empty. simpl. by rewrite Ascii.eqb_refl.
  - rewrite append_cons. simpl in *.
    destruct (Ascii.eqb_spec c sep) as [->|Hne].
    + exfalso. apply Hno. by left.
    + rewrite IH; [done|]. intros Hin. apply Hno. by right.
Qed.

Lemma transformPgUrl_legacy host seq :
  ¬ occurs "-" host → ¬ occurs ":" host →
  transformPgUrl (host +:+ String "-" seq) = "tcp://" +:+ host.
Proof.
  intros Hd Hc. rewrite transformPgUrl_first_dash by done.
  unfold transformPgUrl. rewrite (hd_split_none _ _ Hd). simpl.
  by rewrite (hd_split_none _ _ Hc).
Qed.

Lemma transformPgUrl_ports host pgPort others seq :
  ¬ occurs "-" host → ¬ occurs ":" host →
  ¬ occurs "-" pgPort → ¬ occurs ":" pgPort →
  ¬ occurs "-" others →
  transformPgUrl
    (host +:+ String ":" (pgPort +:+ String ":" (others +:+ String "-" seq)))
  = "tcp://" +:+ host +:+ ":" +:+ pgPort.
Proof.
  intros Hhd Hhc Hpd Hpc Hod.
  set (p := host +:+ String ":" (pgPort +:+ String ":" others)).
  assert (Hp : ¬ occurs "-" p).
  { unfold p. rewrite occurs_append. intros [H|H]; [done|].
    unfold occurs in H. simpl in H.
    apply elem_of_cons in H as [H|H]; [done|].
    apply (occurs_append "-" pgPort (String ":" others)) in H as [H|H];
      [done|].
    unfold occurs in H. simpl in H.
    apply elem_of_cons in H as [H|H]; done. }
  assert (Heq : host +:+ String ":"
                  (pgPort +:+ String ":" (others +:+ String "-" seq))
                = p +:+ String "-" seq).
  { unfold p.
    by rewrite append_assoc_string, append_cons, append_assoc_string,
         append_cons. }
  rewrite Heq, transformPgUrl_first_dash by done.
  unfold transformPgUrl. rewrite (hd_split_none _ _ Hp). simpl. unfold p.
  rewrite (split_at_separator _ _ _ Hhc), (split_at_separator _ _ _ Hpc).
  simpl. pose proof (split_nonempty ":" others) as Hne.
  by destruct (split ":" others).
Qed.

Lemma decimal_char d :
  (d < 10)%N →
  let c := ascii_of_N (48 + d) in
  digit_of c = Some (Z.of_N d)
  ∧ isStrWhiteSpaceChar c = false
  ∧ Ascii.eqb c "-" = false ∧ Ascii.eqb c "+" = false.
Proof.
  intros Hd.
  assert (Hall : forallb (λ d,
            let c := ascii_of_N (48 + d) in
            match digit_of c with
            | Some v => v =? Z.of_N d
            | None => false
            end
            && negb (isStrWhiteSpaceChar c)
            && negb (Ascii.eqb c "-") && negb (Ascii.eqb c "+"))
            (below 10) = true) by (vm_compute; reflexivity).
  pose proof (forallb_below 10 _ d Hall Hd) as H. cbv beta zeta in H.
  repeat (apply andb_prop in H as [H ?]).
  cbv zeta. destruct (digit_of _) as [v|]; [|done].
  apply Z.eqb_eq in H as ->.
  repeat match goal with
         | H : negb _ = true |- _ => apply negb_true_iff in H
         end.
  done.
Qed.

Lemma pad_decimal_no_dash w n tail :
  ¬ occurs "-" tail → ¬ occurs "-" (pad_decimal w n tail).
Proof.
  revert n tail. induction w as [|w IH]; intros n tail Htail; simpl; [done|].
  apply IH. unfold occurs. simpl. intros Hin.
  apply elem_of_cons in Hin as [Hin|Hin]; [|done].
  destruct (decimal_char (n mod 10)) as (_ & _ & Hd & _);
    [by apply N.mod_lt|].
  rewrite <- Hin, Ascii.eqb_refl in Hd. done.
Qed.

Lemma pad_decimal_head w n tail :
  ∃ d s, (d < 10)%N ∧ pad_decimal (S w) n tail = String (ascii_of_N (48 + d)) s.
Proof.
  revert n tail. induction w as [|w IH]; intros n tail.
  - exists (n mod 10)%N, tail. split; [by apply N.mod_lt|done].
  - change (pad_decimal (S (S w)) n tail)
      with (pad_decimal (S w) (n / 10)
              (String (ascii_of_N (48 + n mod 10)) tail)).
    apply IH.
Qed.

Lemma parse_digits_pad w n tail acc :
  parse_digits (Some acc) (pad_decimal w n tail)
  = parse_digits
      (Some (10 ^ Z.of_nat w * acc + Z.of_N (n mod 10 ^ N.of_nat w))) tail.
Proof.
  revert n tail. induction w as [|w IH]; intros n tail.
  - simpl. rewrite N.mod_1_r. do 2 f_equal. lia.
  - change (pad_decimal (S w) n tail)
      with (pad_decimal w (n / 10)
              (String (ascii_of_N (48 + n mod 10)) tail)).
    rewrite IH.
    change (parse_digits ?a (String ?c ?t))
      with (match digit_of c with
            | Some d => parse_digits (Some (10 * default 0 a + d)) t
            | None => a
            end).
    destruct (decimal_char (n mod 10)) as (-> & _); [by apply N.mod_lt|].
    simpl default. do 2 f_equal.
    rewrite Nat2Z.inj_succ, Z.pow_succ_r by lia.
    rewrite Nat2N.inj_succ, N.pow_succ_r by lia.
    rewrite N.Div0.mod_mul_r.
    rewrite N2Z.inj_add, N2Z.inj_mul. simpl Z.of_N at 2. lia.
Qed.

Lemma parseInt_sequence_text n :
  (n < 10 ^ 10)%N → parseInt (sequence_text n) = Num (Z.of_N n).
Proof.
  intros Hn. unfold sequence_text.
  destruct (pad_decimal_head 9 n EmptyString) as (d & s & Hd & Hs).
  destruct (decimal_char d Hd) as (Hdig & Hws & Hminus & Hplus).
  assert (Hparse : parse_digits None (pad_decimal 10 n EmptyString)
                   = Some (Z.of_N n)).
  { transitivity (parse_digits (Some 0) (pad_decimal 10 n EmptyString)).
    - rewrite Hs. simpl. by rewrite Hdig.
    - rewrite parse_digits_pad. simpl parse_digits.
      rewrite N.mod_small by done. f_equal; lia. }
  unfold parseInt. rewrite Hs in Hparse |- *.
  simpl trimStart. rewrite Hws, Hminus, Hplus, Hparse.
  rewrite Z.mul_1_l. apply to_double_exact.
  assert (Z.of_N n < 10 ^ 10) by (change (10 ^ 10) with (Z.of_N (10 ^ 10)); lia).
  change (2 ^ 53) with 9007199254740992.
  change (10 ^ 10) with 10000000000 in *. lia.
Qed.

Lemma string_drop_append p c rest :
  string_drop (S (String.length p)) (p +:+ String c rest) = rest.
Proof. induction p as [|a p IH]; [done|]. rewrite append_cons. exact IH. Qed.

Lemma node_prefix_no_dash m : legal m → ¬ occurs "-" (node_prefix m).
Proof.
  intros ([Hh _] & Hports & _). unfold node_prefix.
  destruct (node_ports m) as [[[pg backup] hb]|]; [|done].
  destruct Hports as ([Hpg _] & [Hb _] & [Hhb _]).
  assert (Hsep : ¬ occurs "-" ":").
  { unfold occurs. simpl. intros H. by apply list_elem_of_singleton in H. }
  rewrite !occurs_append. tauto.
Qed.

(** The number [compare] reads off the name of a node is its sequence
    number. *)
Lemma seqOf_nodeName m :
  legal m → seqOf (nodeName m) = Num (Z.of_N (node_seq m)).
Proof.
  intros Hm. pose proof (node_prefix_no_dash m Hm) as Hp.
  destruct Hm as (_ & _ & Hseq).
  unfold seqOf, nodeName, lastIndexOf.
  change ("-" +:+ sequence_text (node_seq m))
    with (String "-" (sequence_text (node_seq m))).
  rewrite lastIndexOf_from_last
    by (apply pad_decimal_no_dash; unfold occurs; simpl; apply not_elem_of_nil).
  unfold substring.
  replace (Z.to_nat (Z.max 0 (0 + Z.of_nat (String.length (node_prefix m)) + 1)))
    with (S (String.length (node_prefix m))) by lia.
  rewrite string_drop_append. by apply parseInt_sequence_text.
Qed.

Lemma nodeName_numbered m : legal m → numbered (nodeName m).
Proof.
  intros Hm. exists (Z.of_N (node_seq m)).
  split; [by apply seqOf_nodeName|].
  destruct Hm as (_ & _ & Hseq).
  assert (Z.of_N (node_seq m) < 10 ^ 10)
    by (change (10 ^ 10) with (Z.of_N (10 ^ 10)); lia).
  change (2 ^ 53) with 9007199254740992.
  change (10 ^ 10) with 10000000000 in *. lia.
Qed.


(** *** The sort, read on nodes *)










End PeerEncoder.

(** ** The client's handlers *)

Section Client.
Import JS Manatee Notions.

Variable toString_utf8 : Buffer → string.
Variable JSON_parse : string → option Document.

Local Abbreviation handleClusterState :=
  (handleClusterState toString_utf8 JSON_parse).
Local Abbreviation handleClusterState_throws :=
  (handleClusterState_throws toString_utf8 JSON_parse).

Lemma debounce_fold urls l b i :
  fst (foldl (λ '(equal, i) u, (equal && strict_eq_at u urls i, S i))
         (b, i) l) = true
  ↔ b = true ∧ ∀ j u, l !! j = Some u → urls !! (i + j)%nat = Some u.
Proof.
  revert b i. induction l as [|u l IH]; intros b i; simpl.
  - split; [intros ->; split; [done|]; by intros j u|by intros [-> _]].
  - rewrite IH. unfold strict_eq_at. split.
    + intros [Hb Hl]. apply andb_prop in Hb as [-> Hu].
      split; [done|]. intros [|j] u'; simpl.
      * intros [= ->]. rewrite Nat.add_0_r.
        destruct (urls !! i) as [v|]; [|done].
        by apply bool_decide_eq_true in Hu as ->.
      * intros Hj. rewrite <- Nat.add_succ_comm. by apply Hl.
    + intros [-> Hl]. split.
      * specialize (Hl O u eq_refl). rewrite Nat.add_0_r in Hl.
        rewrite Hl. simpl. by apply bool_decide_eq_true.
      * intros j u' Hj. rewrite Nat.add_succ_comm. by apply (Hl (S j)).
Qed.

(** The [forEach] comparison is equality of the two lists. *)
Lemma debounce_equal_iff urls stored :
  debounce_equal urls stored = true ↔ urls = stored.
Proof.
  unfold debounce_equal. rewrite debounce_fold. split.
  - intros [Hlen Hl]. apply Nat.eqb_eq in Hlen.
    apply list_eq. intros j.
    destruct (stored !! j) as [u|] eqn:E.
    + by apply (Hl j).
    + apply lookup_ge_None in E. apply lookup_ge_None. lia.
  - intros ->. split; [by apply Nat.eqb_eq|]. by intros j u.
Qed.

Lemma handleTopologyChange_cases urls self :
  handleTopologyChange urls self =
    if decide (default [] urls = _urls self) then (self, [])
    else (set_urls (default [] urls) self,
          if _inited self then [EvTopology (default [] urls)] else []).
Proof.
  unfold handleTopologyChange.
  destruct (debounce_equal (default [] urls) (_urls self)) eqn:E.
  - apply debounce_equal_iff in E. by rewrite decide_True.
  - rewrite decide_False; [done|]. intros Heq.
    apply debounce_equal_iff in Heq. congruence.
Qed.

Lemma handleTopologyChange_inited urls self :
  _inited (handleTopologyChange urls self).1 = _inited self.
Proof. rewrite handleTopologyChange_cases. by case_decide. Qed.

Lemma handleTopologyChanges_silent calls self :
  _inited self = false → (handleTopologyChanges calls self).2 = [].
Proof.
  revert self. induction calls as [|urls calls IH]; intros self Hi; [done|].
  simpl. rewrite handleTopologyChange_cases.
  case_decide; simpl.
  - specialize (IH self Hi).
    destruct (handleTopologyChanges calls self); simpl in *. by subst.
  - rewrite Hi.
    specialize (IH (set_urls (default [] urls) self) Hi).
    destruct (handleTopologyChanges calls _); simpl in *. by subst.
Qed.

Lemma handleTopologyChanges_differ calls self :
  let t := topologies (handleTopologyChanges calls self).2 in
  adjacent_differ t ∧ ∀ v, head t = Some v → v ≠ _urls self.
Proof.
  revert self. induction calls as [|urls calls IH]; intros self; simpl.
  - split; [done|]. by intros v.
  - rewrite handleTopologyChange_cases. case_decide as Heq.
    + destruct (IH self) as [Hadj Hhd].
      destruct (handleTopologyChanges calls self); simpl in *. done.
    + destruct (_inited self) eqn:Hi.
      * destruct (IH (set_urls (default [] urls) self)) as [Hadj Hhd].
        destruct (handleTopologyChanges calls _) as [self' evs]; simpl in *.
        split.
        -- destruct (topologies evs) as [|v t] eqn:Et; [done|].
           split; [|done]. intros Hv. by apply (Hhd v).
        -- intros v [= <-]. done.
      * pose proof (handleTopologyChanges_silent calls
                      (set_urls (default [] urls) self) Hi) as Hs.
        destruct (handleTopologyChanges calls _) as [self' evs]; simpl in *.
        subst evs. simpl. split; [done|]. by intros v.
Qed.

(** *** The state node *)

Lemma handleTopologyChange_no_error urls self msg :
  EvError msg ∉ (handleTopologyChange urls self).2.
Proof.
  rewrite handleTopologyChange_cases. case_decide; simpl.
  - apply not_elem_of_nil.
  - destruct (_inited self); [|apply not_elem_of_nil].
    intros Hin. apply list_elem_of_singleton in Hin. done.
Qed.

(** C3, as the code has it.  When an inited client sees the state node
    gone, [_clusterState] becomes null.  With actives, the list decoded
    from them goes through the debounce: it is emitted, once, exactly
    when it differs from the stored list, and nothing is emitted when it
    equals it.  Without actives nothing is emitted and the stored list
    stays what it was. *)
Theorem state_deleted_reverts self res
    (Hinited : _inited self = true) (Hgone : res ≫= data = None) :
  _clusterState (handleClusterState res self).1 = None
  ∧ match _actives self with
    | Some actives =>
        let urls := childrenToUrls (Some actives) in
        _actives (handleClusterState res self).1
          = Some (sortChildren actives)
        ∧ (urls ≠ _urls self →
           (handleClusterState res self).2 = [EvTopology urls]
           ∧ _urls (handleClusterState res self).1 = urls)
        ∧ (urls = _urls self →
           (handleClusterState res self).2 = []
           ∧ _urls (handleClusterState res self).1 = _urls self)
    | None =>
        handleClusterState res self = (set_clusterState None self, [])
    end.
Proof.
  unfold Manatee.handleClusterState. rewrite Hgone, Hinited. simpl.
  destruct (_actives self) as [actives|] eqn:Ha; simpl; [|done].
  rewrite handleTopologyChange_cases. simpl. rewrite Hinited.
  case_decide as Heq; simpl; repeat split; try done.
  all: intros; congruence.
Qed.

(** *** The election directory *)


(** C7 (the code departs from the specification on one document).
    [error] is emitted exactly when the node has data that [JSON.parse]
    rejects; then it is emitted once, with the fixed message, and the
    client is what it was.  When the data parses to an object, the
    document is stored in [_clusterState], its list becomes [_urls] and
    is emitted when it differs from the stored one and the client is
    inited.  A falsy document is stored, and publishes the empty list.
    The document [null] is stored too, but reading its [primary] throws
    a [TypeError] outside the [try]: no [error] is emitted, the stored
    list stays the one of the state just overwritten, and the call ends
    in the exception. *)
Theorem handleClusterState_parse_error self res :
  let after := (handleClusterState res self).1 in
  let emitted := (handleClusterState res self).2 in
  ((∃ msg, EvError msg ∈ emitted)
   ↔ ∃ buf, res ≫= data = Some buf ∧ JSON_parse (toString_utf8 buf) = None)
  ∧ ∀ buf,
      res ≫= data = Some buf →
      match JSON_parse (toString_utf8 buf) with
      | None =>
          emitted = [EvError parse_error_message]
          ∧ after = self
          ∧ handleClusterState_throws res = false
      | Some (json_object cs) =>
          after = {| _zk := _zk self; _inited := _inited self;
                     _closed := _closed self; _clusterState := Some cs;
                     _actives := _actives self;
                     _urls := clusterStateToUrls cs |}
          ∧ emitted = (if decide (clusterStateToUrls cs = _urls self) then []
                       else if _inited self
                            then [EvTopology (clusterStateToUrls cs)]
                            else [])
          ∧ handleClusterState_throws res = false
      | Some json_falsy =>
          after = {| _zk := _zk self; _inited := _inited self;
                     _closed := _closed self; _clusterState := None;
                     _actives := _actives self; _urls := [] |}
          ∧ emitted = (if decide ([] = _urls self) then []
                       else if _inited self then [EvTopology []] else [])
          ∧ handleClusterState_throws res = false
      | Some json_null =>
          after = {| _zk := _zk self; _inited := _inited self;
                     _closed := _closed self; _clusterState := None;
                     _actives := _actives self; _urls := _urls self |}
          ∧ emitted = []
          ∧ handleClusterState_throws res = true
      end.
Proof.
  cbv zeta.
  unfold Manatee.handleClusterState, Manatee.handleClusterState_throws.
  destruct (res ≫= data) as [buf|] eqn:Hd.
  - split.
    + destruct (JSON_parse (toString_utf8 buf)) as [[| |cs]|] eqn:Hp.
      * split; [intros [msg Hin]; by apply elem_of_nil in Hin|].
        intros (b & [= <-] & Hnone). congruence.
      * split; [intros [msg Hin]; by apply handleTopologyChange_no_error in Hin|].
        intros (b & [= <-] & Hnone). congruence.
      * split; [intros [msg Hin]; by apply handleTopologyChange_no_error in Hin|].
        intros (b & [= <-] & Hnone). congruence.
      * split; [by eauto|]. intros _. exists parse_error_message.
        simpl. by apply list_elem_of_singleton.
    + intros b [= <-].
      destruct (JSON_parse (toString_utf8 buf)) as [[| |cs]|] eqn:Hp.
      * done.
      * rewrite handleTopologyChange_cases. simpl.
        case_decide as Heq; simpl; [|done].
        split; [|done]. rewrite Heq. by destruct self.
      * rewrite handleTopologyChange_cases. simpl.
        case_decide as Heq; simpl; [|done].
        split; [|done]. rewrite Heq. by destruct self.
      * done.
  - split; [|done]. split.
    + intros [msg Hin]. exfalso. revert Hin.
      destruct (negb (_inited self)); simpl; [apply not_elem_of_nil|].
      destruct (_actives self); simpl; [|apply not_elem_of_nil].
      apply handleTopologyChange_no_error.
    + by intros (b & Hb & _).
Qed.

(** *** The life cycle: [ready] and the first [topology] *)

Local Abbreviation turn := (turn toString_utf8 JSON_parse).
Local Abbreviation run := (run toString_utf8 JSON_parse).





Lemma handleTopologyChange_quiet urls self :
  _inited (handleTopologyChange urls self).1 = _inited self
  ∧ count_ready (handleTopologyChange urls self).2 = O
  ∧ (_inited self = false →
     count_topology (handleTopologyChange urls self).2 = O).
Proof.
  rewrite handleTopologyChange_cases. case_decide; simpl; [done|].
  destruct (_inited self); simpl; repeat split; done.
Qed.

Lemma handleClusterState_quiet res self :
  _inited (handleClusterState res self).1 = _inited self
  ∧ count_ready (handleClusterState res self).2 = O
  ∧ (_inited self = false →
     count_topology (handleClusterState res self).2 = O).
Proof.
  unfold Manatee.handleClusterState.
  destruct (res ≫= data) as [buf|].
  - destruct (JSON_parse (toString_utf8 buf)) as [[| |cs]|]; [done| | |done].
    + apply (handleTopologyChange_quiet _ (set_clusterState _ self)).
    + apply (handleTopologyChange_quiet _ (set_clusterState _ self)).
  - destruct (_inited self) eqn:Hi; simpl; [|done].
    destruct (_actives self); simpl; [|by rewrite Hi].
    pose proof (handleTopologyChange_quiet
                  (Some (childrenToUrls (Some l)))
                  (set_actives (Some (sortChildren l))
                     (set_clusterState None self))) as H.
    simpl in H. by rewrite Hi in H.
Qed.

Lemma handleActive_quiet res self :
  _inited (handleActive res self).1 = _inited self
  ∧ count_ready (handleActive res self).2 = O
  ∧ (_inited self = false → count_topology (handleActive res self).2 = O).
Proof.
  unfold handleActive. destruct (res ≫= children) as [actives|]; [|done].
  simpl. destruct (_clusterState self); [done|].
  apply (handleTopologyChange_quiet _ (set_actives _ self)).
Qed.

Lemma handleTopologyChange_debounced before urls self :
  _inited self = _inited before → _urls self = _urls before →
  debounced before (handleTopologyChange urls self).1
    (handleTopologyChange urls self).2.
Proof.
  intros Hi Hu. unfold debounced.
  rewrite handleTopologyChange_cases. case_decide as Heq; simpl.
  - split; [done|]. left. by rewrite Hu.
  - split; [done|]. rewrite Hi, <- Hu.
    destruct (_inited before); simpl.
    + right. done.
    + left. done.
Qed.

Lemma handleClusterState_debounced res self :
  debounced self (handleClusterState res self).1
    (handleClusterState res self).2.
Proof.
  unfold Manatee.handleClusterState.
  destruct (res ≫= data) as [buf|].
  - destruct (JSON_parse (toString_utf8 buf)) as [[| |cs]|].
    + split; [done|]. by left.
    + by apply handleTopologyChange_debounced.
    + by apply handleTopologyChange_debounced.
    + split; [done|]. by left.
  - destruct (_inited self) eqn:Hi; simpl.
    + destruct (_actives self); simpl.
      * by apply handleTopologyChange_debounced.
      * split; [done|]. by left.
    + split; [done|]. left. split; [done|]. congruence.
Qed.

Lemma handleActive_debounced res self :
  debounced self (handleActive res self).1 (handleActive res self).2.
Proof.
  unfold handleActive. destruct (res ≫= children) as [actives|].
  - simpl. destruct (_clusterState self).
    + split; [done|]. by left.
    + by apply handleTopologyChange_debounced.
  - split; [done|]. by left.
Qed.

(** Case analysis on the latches a turn reads, one after the other. *)
Local Ltac case_turn :=
  repeat first
    [ progress simpl
    | match goal with
      | |- context [match ?x with Some _ => _ | None => _ end] =>
          destruct x eqn:?
      | |- context [if ?b then _ else _] => destruct b eqn:?
      | |- context [match ?e with zk_state => _ | _ => _ end] => destruct e
      end ];
  try (split; [done|right; split_and!; try done; by left]).

(** One turn of the event loop either is the one that runs [emitReady]
    for the first time, and emits [ready] then [topology] with the stored
    list, or emits no [ready] at all, no [topology] unless the client is
    inited, and what it emits went through the debounce. *)
Lemma turn_cases i rt :
  nextTicks rt = [] →
  nextTicks (turn i rt).1 = []
  ∧ ((emitReady_called rt = false
      ∧ emitReady_called (turn i rt).1 = true
      ∧ _inited (self_ (turn i rt).1) = true
      ∧ (turn i rt).2 = [EvReady; EvTopology (_urls (self_ (turn i rt).1))])
     ∨ (emitReady_called (turn i rt).1 = emitReady_called rt
        ∧ _inited (self_ (turn i rt).1) = _inited (self_ rt)
        ∧ count_ready (turn i rt).2 = O
        ∧ (_inited (self_ rt) = false → count_topology (turn i rt).2 = O)
        ∧ debounced (self_ rt) (self_ (turn i rt).1) (turn i rt).2)).
Proof.
  destruct rt as [self called sess ticks]. simpl. intros ->.
  unfold debounced.
  destruct i as [zk e|zk err|res|res|]; unfold Manatee.turn; simpl.
  - unfold on_zk_event, resetZkClientOnce. case_turn.
  - unfold on_setWatches_done, resetZkClientOnce, emitReady. case_turn.
    all: split; [done|]; left; done.
  - pose proof (handleClusterState_quiet res self) as (H1 & H2 & H3).
    pose proof (handleClusterState_debounced res self) as H4.
    destruct (handleClusterState res self) as [c evs]; simpl in *.
    rewrite app_nil_r. split; [done|]. right. done.
  - pose proof (handleActive_quiet res self) as (H1 & H2 & H3).
    pose proof (handleActive_debounced res self) as H4.
    destruct (handleActive res self) as [c evs]; simpl in *.
    rewrite app_nil_r. split; [done|]. right. done.
  - unfold close. case_turn.
Qed.






(** *** Debouncing over a whole life *)

Lemma adjacent_differ_snoc l v :
  adjacent_differ l → (∀ u, last l = Some u → u ≠ v) →
  adjacent_differ (l ++ [v]).
Proof.
  induction l as [|u l IH]; simpl; [done|].
  destruct l as [|u' l]; simpl in *.
  - intros _ Hlast. split; [|done]. by apply Hlast.
  - intros [Hne Hadj] Hlast. split; [done|]. by apply IH.
Qed.

Lemma topologies_app a b : topologies (a ++ b) = topologies a ++ topologies b.
Proof. apply omap_app. Qed.

Lemma turn_debounce i rt t :
  debounce_inv rt t → debounce_inv (turn i rt).1 (t ++ (turn i rt).2).
Proof.
  intros (Hq & Hcalled & Hadj & Hlast).
  destruct (turn_cases i rt Hq) as [Hq' Hcases].
  unfold debounce_inv. split; [done|].
  rewrite topologies_app.
  destruct Hcases as [(Hc & Hc' & Hi' & Hevs)
                     |(Hc' & Hi' & _ & _ & Hi'' & Hdeb)].
  - rewrite Hc', Hi', Hevs. rewrite Hc in Hcalled.
    rewrite <- Hcalled in Hlast. rewrite Hlast. simpl. done.
  - rewrite Hc', Hi'. split; [done|].
    destruct Hdeb as [[Hnone Hkeep]|(Hi & Hone & Hne)].
    + rewrite Hnone, app_nil_r. split; [done|].
      destruct (_inited (self_ rt)); [|done].
      by rewrite (Hkeep eq_refl).
    + rewrite Hone. rewrite Hi in Hlast |- *. split.
      * apply adjacent_differ_snoc; [done|].
        intros u Hu. rewrite Hlast in Hu. injection Hu as <-. congruence.
      * by rewrite last_snoc.
Qed.

Lemma run_debounce inputs rt t :
  debounce_inv rt t →
  debounce_inv (run inputs rt).1 (t ++ (run inputs rt).2).
Proof.
  revert rt t. induction inputs as [|i inputs IH]; intros rt t Hinv; simpl.
  - by rewrite app_nil_r.
  - pose proof (turn_debounce i rt t Hinv) as Hturn.
    destruct (turn i rt) as [rt1 evs1]; simpl in *.
    specialize (IH rt1 (t ++ evs1) Hturn).
    destruct (run inputs rt1) as [rt2 evs2]; simpl in *.
    by rewrite app_assoc.
Qed.

Lemma started_debounce_inv : debounce_inv started [].
Proof. by vm_compute. Qed.

(** C4.  One call: when the new list equals the stored one (same length,
    same elements) nothing is emitted and the client is unchanged;
    otherwise the stored list is replaced and, when inited, that list is
    emitted as [topology].  Any sequence of calls, and any life of a
    client: no two consecutive [topology] emissions carry equal lists. *)
Theorem handleTopologyChange_debounces :
  (∀ urls self,
      (default [] urls = _urls self →
       handleTopologyChange urls self = (self, []))
      ∧ (default [] urls ≠ _urls self →
         handleTopologyChange urls self =
           (set_urls (default [] urls) self,
            if _inited self then [EvTopology (default [] urls)] else [])))
  ∧ (∀ urls self,
       debounce_equal urls (_urls self) = true
       ↔ length urls = length (_urls self)
         ∧ ∀ i, (i < length urls)%nat → urls !! i = _urls self !! i)
  ∧ (∀ calls self,
       adjacent_differ (topologies (handleTopologyChanges calls self).2))
  ∧ ∀ inputs, adjacent_differ (topologies (run inputs started).2).
Proof.
  split; [|split; [|split]].
  - intros urls self. rewrite handleTopologyChange_cases.
    split; intros H; by case_decide.
  - intros urls self. rewrite debounce_equal_iff. split.
    + by intros ->.
    + intros [Hlen Hi]. apply list_eq. intros i.
      destruct (decide (i < length urls)%nat) as [Hlt|Hge]; [by apply Hi|].
      rewrite !(proj2 (lookup_ge_None _ _)); [done|lia..].
  - intros calls self. apply handleTopologyChanges_differ.
  - intros inputs.
    by pose proof (run_debounce inputs started [] started_debounce_inv)
      as (_ & _ & Hadj & _).
Qed.

End Client.

Section ClientRuns.
Import JS Manatee Notions.

Local Abbreviation handleClusterState :=
  (handleClusterState sample_toString sample_parse).
Local Abbreviation run := (run sample_toString sample_parse).

Lemma agreeing_client_reached :
  run agreeing_life started
  = ({| self_ := agreeing_client; emitReady_called := true;
        sessions := [{| setWatches_called := true;
                        setWatches_returned := true;
                        resetZkClient_called := false;
                        listening := true; zk_closed := false |}];
        nextTicks := [] |},
     [EvReady; EvTopology ["tcp://1.1.1.1:5432"]]).
Proof. by vm_compute. Qed.

(** C3 as stated fails: in [agreeing_client] the list decoded from the
    actives is the stored one, and the deletion of the state node emits
    nothing where the specification has exactly one [topology]. *)
Lemma state_deleted_without_emission :
  ¬ (∀ self res,
       _inited self = true → res ≫= data = None →
       _clusterState (handleClusterState res self).1 = None
       ∧ (handleClusterState res self).2
         = [EvTopology (childrenToUrls (_actives self))]).
Proof.
  intros Hclaim.
  destruct (Hclaim agreeing_client view_absent eq_refl eq_refl) as [_ Hevs].
  vm_compute in Hevs. discriminate.
Qed.

(** The same without actives: the stored list is kept, not emptied. *)
Lemma state_deleted_without_actives :
  let self := set_actives None agreeing_client in
  handleClusterState view_absent self = (set_clusterState None self, [])
  ∧ _urls (handleClusterState view_absent self).1 = ["tcp://1.1.1.1:5432"].
Proof. by vm_compute. Qed.

(** The state node holding the document [null]: the held state is
    overwritten, the list of the overwritten state stays published, no
    event is emitted and the call ends in the [TypeError]. *)
Lemma null_document_is_stored_and_throws :
  let res := view_of_data "null" in
  handleClusterState res agreeing_client
  = (set_clusterState None agreeing_client, [])
  ∧ _urls (handleClusterState res agreeing_client).1 = ["tcp://1.1.1.1:5432"]
  ∧ handleClusterState_throws sample_toString sample_parse res = true.
Proof. by vm_compute. Qed.

Lemma state_deleted_reverts_witness :
  (handleClusterState view_absent diverging_client).2
    = [EvTopology ["tcp://19.19.19.19:5432"; "tcp://20.20.20.20:5432"]]
  ∧ _clusterState (handleClusterState view_absent diverging_client).1 = None.
Proof.
  destruct (state_deleted_reverts sample_toString sample_parse
              diverging_client view_absent eq_refl eq_refl) as [Hcs Hrest].
  split; [|exact Hcs].
  simpl in Hrest. destruct Hrest as (_ & Hemit & _).
  apply Hemit. by vm_compute.
Defined.



Lemma ready_once_across_expiry :
  (run expiring_life started).2
  = [EvReady; EvTopology ["tcp://a:5432"; "tcp://b:5432"];
     EvTopology ["tcp://b:5432"]].
Proof. by vm_compute. Qed.

End ClientRuns.

(** ** The watch chains *)

Section Watcher.
Import Manatee NodeWatcher.

Variable closed : bool.

Lemma invoke_off_data_chain k p v :
  off_data_chain k = true → Forall harmless (invoke closed k p v).2.
Proof.
  unfold harmless.
  destruct k as [[]|[[]|]| | | | |], p as [err dat stat|err chn|stat|];
    try done; intros _; simpl; try (by constructor).
  - unfold on_getData, registerChildrenWatch, done; simpl.
    destruct err as [[]|], closed, (cb_called v), stat,
      (bool_decide (is_Some (currStat v))); simpl;
      try destruct (_ =? 0); simpl; repeat constructor.
  - unfold on_getChildren, done; simpl.
    destruct err as [[]|], (cb_called v); simpl; repeat constructor.
  - unfold on_getChildren; simpl.
    destruct err as [[]|], (cb_called v); simpl; repeat constructor.
  - unfold registerChildrenWatch. destruct closed; repeat constructor.
  - unfold getData. destruct closed; repeat constructor.
  - unfold registerChildrenWatch. destruct closed; repeat constructor.
Qed.

Lemma remove_first_Forall (P : callback → Prop) k l :
  Forall P l → Forall P (remove_first k l).
Proof.
  induction 1 as [|k' l Hk Hl IH]; simpl; [done|].
  case_decide; [done|]. by constructor.
Qed.

Lemma fire_off_data_chain k p w :
  Forall (λ k, off_data_chain k = true) (waiting w) →
  Forall (λ k, off_data_chain k = true) (waiting (fire closed k p w).1)
  ∧ Forall (λ r, installs_data_watch r = false) (fire closed k p w).2.
Proof.
  intros Hw. unfold fire. case_bool_decide as Hin; simpl; [|done].
  assert (Hk : off_data_chain k = true).
  { by apply (proj1 (Forall_forall _ _) Hw). }
  pose proof (invoke_off_data_chain k p (closure w) Hk) as Hreqs.
  destruct (invoke closed k p (closure w)) as [v reqs]; simpl in *.
  split.
  - apply Forall_app. split; [by apply remove_first_Forall|].
    induction Hreqs as [|r reqs [_ Hr] _ IH]; simpl; [done|].
    apply Forall_app. done.
  - eapply Forall_impl; [exact Hreqs|]. by intros r [Hr _].
Qed.

Lemma fire_all_off_data_chain calls w :
  Forall (λ k, off_data_chain k = true) (waiting w) →
  Forall (λ r, installs_data_watch r = false) (fire_all closed calls w).2.
Proof.
  revert w. induction calls as [|[k p] calls IH]; intros w Hw; simpl; [done|].
  destruct (fire_off_data_chain k p w Hw) as [Hw' Hreqs].
  destruct (fire closed k p w) as [w' reqs]; simpl in *.
  specialize (IH w' Hw').
  destruct (fire_all closed calls w') as [w'' reqs']; simpl in *.
  by apply Forall_app.
Qed.

End Watcher.

Section WatcherRuns.
Import Manatee NodeWatcher.

(** C9 (the code departs from the specification).  A first read that
    completes installs the data watch: the [zk.exists] of
    [registerDataWatch] is among the requests.  A first read that fails with a transient error
    is retried by [setTimeout(getData, 5000)], which calls [getData]
    without its [regWatch] argument: when the retried read resolves, [cb]
    is called with the view but no data watch is installed, and whatever
    zookeeper and the timers deliver from then on, none ever is. *)
Theorem retried_read_installs_no_data_watch :
  let absent := GetDataResult (Some NO_NODE) None None in
  let view := {| data := None; version := None; children := None |} in
  (fire_all false [(getData_callback true, absent)] (watchNode false).1).2
  = [call_cb view; zk_exists dataWatchFired exists_callback]
  ∧ (fire_all false
       [(getData_callback true, GetDataResult (Some OTHER_ERROR) None None);
        (timeout_getData, Fired);
        (getData_callback false, absent)]
       (watchNode false).1).2
    = [setTimeout timeout_getData 5000;
       zk_getData (getData_callback false);
       call_cb view]
  ∧ ∀ closed calls,
      Forall (λ r, installs_data_watch r = false)
        (fire_all closed calls first_read_failed).2.
Proof.
  split; [by vm_compute|]. split; [by vm_compute|].
  intros closed calls. apply fire_all_off_data_chain.
  vm_compute. by repeat constructor.
Qed.

End WatcherRuns.

(** ** The primary resolver *)

Section Keys.
Import JS Notions.

Lemma nth_Forall {A} (P : A → Prop) (l : list A) (d : A) i :
  Forall P l → P d → P (nth i l d).
Proof.
  intros Hl Hd. revert i.
  induction Hl as [|x l Hx Hl IH]; intros [|i]; simpl; auto.
Qed.

Lemma base64_digit_not_pad n : base64_digit n ≠ base64_pad.
Proof.
  unfold base64_digit.
  apply (nth_Forall (λ c, c ≠ base64_pad)); [|done].
  unfold base64_alphabet. simpl. repeat constructor; done.
Qed.

Lemma base64_digit_alphabet n : base64_digit n ∈ base64_alphabet.
Proof.
  unfold base64_digit.
  apply (nth_Forall (λ c, c ∈ base64_alphabet)); [|by left].
  apply Forall_forall. auto.
Qed.

(** Nine bytes make twelve characters, none of them padding. *)
Lemma base64_of_9_bytes bytes :
  length bytes = 9%nat →
  String.length (base64 bytes) = 12%nat
  ∧ ¬ occurs base64_pad (base64 bytes)
  ∧ Forall (λ c, c ∈ base64_alphabet)
      (String.list_ascii_of_string (base64 bytes)).
Proof.
  intros Hlen.
  do 9 (destruct bytes as [|? bytes]; [discriminate|]).
  destruct bytes; [|discriminate]. clear Hlen.
  split; [done|]. split.
  - unfold occurs. simpl. intros Hin.
    repeat (apply elem_of_cons in Hin as [Hin|Hin];
            [by eapply base64_digit_not_pad|]).
    by apply elem_of_nil in Hin.
  - simpl. repeat (constructor; [apply base64_digit_alphabet|]).
    constructor.
Qed.

(** *** Keys are read back from their text *)

Lemma base64_digit_inj i j :
  (i < 64)%N → (j < 64)%N → base64_digit i = base64_digit j → i = j.
Proof.
  intros Hi Hj Heq.
  assert (Hall : forallb (λ i, forallb (λ j,
                   implb (Ascii.eqb (base64_digit i) (base64_digit j))
                     (N.eqb i j)) (below 64)) (below 64) = true)
    by (vm_compute; reflexivity).
  pose proof (forallb_below 64 _ i Hall Hi) as Hrow. cbv beta in Hrow.
  pose proof (forallb_below 64 _ j Hrow Hj) as Hij. cbv beta in Hij.
  rewrite Heq, Ascii.eqb_refl in Hij. by apply N.eqb_eq.
Qed.

Lemma lor_shiftl_4 x y :
  (x < 4)%N → (y < 16)%N → N.lor (N.shiftl x 4) y = (16 * x + y)%N.
Proof.
  intros Hx Hy.
  assert (Hall : forallb (λ x, forallb (λ y,
                   (N.lor (N.shiftl x 4) y =? 16 * x + y)%N) (below 16))
                   (below 4) = true) by (vm_compute; reflexivity).
  pose proof (forallb_below 4 _ x Hall Hx) as Hrow. cbv beta in Hrow.
  pose proof (forallb_below 16 _ y Hrow Hy) as Hxy. cbv beta in Hxy.
  by apply N.eqb_eq.
Qed.

Lemma lor_shiftl_2 x y :
  (x < 16)%N → (y < 4)%N → N.lor (N.shiftl x 2) y = (4 * x + y)%N.
Proof.
  intros Hx Hy.
  assert (Hall : forallb (λ x, forallb (λ y,
                   (N.lor (N.shiftl x 2) y =? 4 * x + y)%N) (below 4))
                   (below 16) = true) by (vm_compute; reflexivity).
  pose proof (forallb_below 16 _ x Hall Hx) as Hrow. cbv beta in Hrow.
  pose proof (forallb_below 4 _ y Hrow Hy) as Hxy. cbv beta in Hxy.
  by apply N.eqb_eq.
Qed.

Lemma sextets_bytes a b c :
  (a < 256)%N → (b < 256)%N → (c < 256)%N →
  let '(i1, i2, i3, i4) := sextets a b c in
  (i1 < 64 ∧ i2 < 64 ∧ i3 < 64 ∧ i4 < 64
   ∧ 4 * i1 + i2 / 16 = a
   ∧ i2 mod 16 = b / 16 ∧ i3 / 4 = b mod 16
   ∧ 64 * (i3 mod 4) + i4 = c)%N.
Proof.
  intros Ha Hb Hc. unfold sextets.
  change 3%N with (N.ones 2). change 15%N with (N.ones 4).
  change 63%N with (N.ones 6).
  rewrite !N.land_ones, !N.shiftr_div_pow2.
  change (2 ^ 2)%N with 4%N. change (2 ^ 4)%N with 16%N.
  change (2 ^ 6)%N with 64%N.
  pose proof (N.div_mod a 4 ltac:(done)) as Ea.
  pose proof (N.mod_lt a 4 ltac:(done)) as Ham.
  pose proof (N.div_mod b 16 ltac:(done)) as Eb.
  pose proof (N.mod_lt b 16 ltac:(done)) as Hbm.
  pose proof (N.div_mod c 64 ltac:(done)) as Ec.
  pose proof (N.mod_lt c 64 ltac:(done)) as Hcm.
  revert Ea Ham Eb Hbm Ec Hcm.
  generalize (a / 4)%N (a mod 4)%N (b / 16)%N (b mod 16)%N
    (c / 64)%N (c mod 64)%N.
  intros a4 am b16 bm c64 cm Ea Ham Eb Hbm Ec Hcm.
  assert (Hb16 : (b16 < 16)%N) by lia.
  assert (Hc64 : (c64 < 4)%N) by lia.
  rewrite (lor_shiftl_4 am b16), (lor_shiftl_2 bm c64) by done.
  rewrite <- (N.div_unique (16 * am + b16) 16 am b16) by done.
  rewrite <- (N.mod_unique (16 * am + b16) 16 am b16) by done.
  rewrite <- (N.div_unique (4 * bm + c64) 4 bm c64) by done.
  rewrite <- (N.mod_unique (4 * bm + c64) 4 bm c64) by done.
  split_and!; lia.
Qed.

Lemma sextets_inj a b c a' b' c' :
  (a < 256)%N → (b < 256)%N → (c < 256)%N →
  (a' < 256)%N → (b' < 256)%N → (c' < 256)%N →
  sextets a b c = sextets a' b' c' → a = a' ∧ b = b' ∧ c = c'.
Proof.
  intros Ha Hb Hc Ha' Hb' Hc' Heq.
  pose proof (sextets_bytes a b c Ha Hb Hc) as H.
  pose proof (sextets_bytes a' b' c' Ha' Hb' Hc') as H'.
  rewrite Heq in H.
  destruct (sextets a' b' c') as [[[i1 i2] i3] i4].
  destruct H as (_ & _ & _ & _ & Ea & Eb1 & Eb2 & Ec).
  destruct H' as (_ & _ & _ & _ & Ea' & Eb1' & Eb2' & Ec').
  split; [congruence|]. split; [|congruence].
  rewrite (N.div_mod b 16), (N.div_mod b' 16) by done. congruence.
Qed.

Lemma base64_block_inj a b c a' b' c' s s' :
  base64 (a :: b :: c :: s) = base64 (a' :: b' :: c' :: s') →
  a = a' ∧ b = b' ∧ c = c' ∧ base64 s = base64 s'.
Proof.
  intros Heq.
  change (base64 (a :: b :: c :: s))
    with (let '(i1, i2, i3, i4) :=
            sextets (Byte.to_N a) (Byte.to_N b) (Byte.to_N c) in
          String (base64_digit i1) (String (base64_digit i2)
            (String (base64_digit i3) (String (base64_digit i4) (base64 s)))))
    in Heq.
  change (base64 (a' :: b' :: c' :: s'))
    with (let '(i1, i2, i3, i4) :=
            sextets (Byte.to_N a') (Byte.to_N b') (Byte.to_N c') in
          String (base64_digit i1) (String (base64_digit i2)
            (String (base64_digit i3) (String (base64_digit i4) (base64 s')))))
    in Heq.
  assert (Hlt : ∀ x : byte, (Byte.to_N x < 256)%N).
  { intros x. pose proof (Byte.to_N_bounded x). lia. }
  pose proof (sextets_bytes _ _ _ (Hlt a) (Hlt b) (Hlt c)) as H.
  pose proof (sextets_bytes _ _ _ (Hlt a') (Hlt b') (Hlt c')) as H'.
  pose proof (sextets_inj _ _ _ _ _ _ (Hlt a) (Hlt b) (Hlt c)
                (Hlt a') (Hlt b') (Hlt c')) as Hinj.
  destruct (sextets (Byte.to_N a) (Byte.to_N b) (Byte.to_N c))
    as [[[i1 i2] i3] i4].
  destruct (sextets (Byte.to_N a') (Byte.to_N b') (Byte.to_N c'))
    as [[[j1 j2] j3] j4].
  destruct H as (? & ? & ? & ? & _), H' as (? & ? & ? & ? & _).
  injection Heq as E1 E2 E3 E4 Es.
  apply base64_digit_inj in E1, E2, E3, E4; try done. subst.
  destruct (Hinj eq_refl) as (Ea & Eb & Ec).
  assert (Hbyte : ∀ x y : byte, Byte.to_N x = Byte.to_N y → x = y).
  { intros x y Hxy. pose proof (Byte.of_to_N x) as Hx.
    rewrite Hxy, Byte.of_to_N in Hx. congruence. }
  split_and!; auto.
Qed.

(** Nine bytes are read back from their twelve characters: two keys are
    equal only when the random bytes were. *)
Lemma base64_of_9_bytes_inj bytes bytes' :
  length bytes = 9%nat → length bytes' = 9%nat →
  base64 bytes = base64 bytes' → bytes = bytes'.
Proof.
  intros Hlen Hlen' Heq.
  do 9 (destruct bytes as [|? bytes]; [discriminate|]).
  destruct bytes; [|discriminate].
  do 9 (destruct bytes' as [|? bytes']; [discriminate|]).
  destruct bytes'; [|discriminate].
  apply base64_block_inj in Heq as (-> & -> & -> & Heq).
  apply base64_block_inj in Heq as (-> & -> & -> & Heq).
  apply base64_block_inj in Heq as (-> & -> & -> & Heq).
  done.
Qed.

End Keys.

Section PrimaryResolver.
Import JS Notions Resolver.

Variable mod_url_parse : string → Url.
Variables isIPv4 isIPv6 : string → bool.

Local Abbreviation step := (step mod_url_parse isIPv4 isIPv6).
Local Abbreviation run := (run mod_url_parse isIPv4 isIPv6).

Lemma randomBytes_length n e : length (randomBytes n e).1 = n.
Proof. unfold randomBytes. simpl. by rewrite length_map, length_seq. Qed.

(** The comparison holds exactly for equal names, equal addresses and
    equal ports that are not [NaN]: a port that is [NaN] equals none, not
    even itself. *)
Lemma same_primary_iff op np :
  same_primary op np = true
  ↔ name op = c_name np ∧ address op = c_address np
    ∧ port op = c_port np ∧ port op ≠ NaN.
Proof.
  unfold same_primary, number_strict_eq.
  rewrite !andb_true_iff, !bool_decide_eq_true.
  destruct (port op) as [|x|s], (c_port np) as [|y|s']; split;
    try (by intros [[? ?] ?]); try (by intros (? & ? & ? & ?)).
  - intros [[Hn Ha] Hp]. by apply Z.eqb_eq in Hp as ->.
  - intros (Hn & Ha & [= ->] & _). by rewrite Z.eqb_refl.
  - intros [[Hn Ha] Hp]. by apply Bool.eqb_prop in Hp as ->.
  - intros (Hn & Ha & [= ->] & _). by rewrite Bool.eqb_reflx.
Qed.

Lemma count_list r :
  0 ≤ count r ≤ 1 ∧ size (Resolver.list r) = Z.to_nat (count r).
Proof.
  unfold count, Resolver.list. destruct (mpr_primary r); simpl.
  - split; [lia|]. by rewrite insert_empty, map_size_singleton.
  - split; [lia|]. by rewrite map_size_empty.
Qed.

(** C8 (the code departs from the specification).  A candidate is
    ignored exactly when a primary is held whose name and address equal
    the candidate's and whose port is the same number: the three [===]
    of the source.  A port that is [NaN], as [parseInt] gives for a URL
    without port, is not equal to itself, so a candidate that equals the
    held primary on name, address and port is taken for a new one:
    [added] goes out under a new key and [removed] for the old key.  A
    candidate that is not ignored gets as key the base64 text of the next
    nine bytes of [crypto.randomBytes], twelve characters without
    padding, from which the nine bytes can be read back; it becomes the
    held primary, the one it replaces becomes [mpr_previous]; [added] is
    emitted with the new key and record and, when a primary was held,
    [removed] with the old key follows it.  At most one record is held.
    In [running], a topology whose first URL is [tcp:] with an address
    for host is processed so, with that address and the port read by
    [parseInt]. *)
Theorem diffPrimaryAndEmit_transition np r :
  let op := mpr_primary r in
  let bytes := map (tape (random r)) (seq (drawn (random r)) 9) in
  let k := base64 bytes in
  let record :=
    {| name := c_name np; address := c_address np; port := c_port np;
       key := k |} in
  let same := match op with Some o => same_primary o np | None => false end in
  (if same then diffPrimaryAndEmit np r = (r, [])
   else
     (diffPrimaryAndEmit np r).2
       = added k record
           :: match op with Some o => [removed (key o)] | None => [] end
     ∧ mpr_primary (diffPrimaryAndEmit np r).1 = Some record
     ∧ mpr_previous (diffPrimaryAndEmit np r).1 = op
     ∧ tape (random (diffPrimaryAndEmit np r).1) = tape (random r)
     ∧ drawn (random (diffPrimaryAndEmit np r).1)
       = (drawn (random r) + 9)%nat)
  ∧ (same = true
     ↔ ∃ o, op = Some o ∧ name o = c_name np ∧ address o = c_address np
            ∧ port o = c_port np ∧ port o ≠ NaN)
  ∧ (∀ o,
       op = Some o → name o = c_name np → address o = c_address np →
       port o = NaN → c_port np = NaN →
       (diffPrimaryAndEmit np r).2 = [added k record; removed (key o)]
       ∧ mpr_primary (diffPrimaryAndEmit np r).1 = Some record)
  ∧ (String.length k = 12%nat
     ∧ ¬ occurs base64_pad k
     ∧ ∀ bytes', length bytes' = 9%nat → base64 bytes' = k → bytes' = bytes)
  ∧ (0 ≤ count (diffPrimaryAndEmit np r).1 ≤ 1
     ∧ size (Resolver.list (diffPrimaryAndEmit np r).1)
       = Z.to_nat (count (diffPrimaryAndEmit np r).1))
  ∧ ∀ url0 urls host,
      fsm r = running →
      protocol (mod_url_parse url0) = Some "tcp:" →
      hostname (mod_url_parse url0) = Some host →
      isIPv4 host || isIPv6 host = true →
      let candidate :=
        {| c_name := "primary"; c_address := host;
           c_port := match url_port (mod_url_parse url0) with
                     | Some p => parseInt p
                     | None => NaN
                     end |} in
      step (ManateeTopology (url0 :: urls)) r
      = Returned (diffPrimaryAndEmit candidate r).1
          (diffPrimaryAndEmit candidate r).2.
Proof.
  intros op bytes k record same.
  assert (Hlen : length bytes = 9%nat)
    by (unfold bytes; by rewrite length_map, length_seq).
  assert (Hdiff : if same then diffPrimaryAndEmit np r = (r, [])
                  else diffPrimaryAndEmit np r
                       = ({| mpr_manatee := mpr_manatee r;
                             mpr_previous := op;
                             mpr_primary := Some record;
                             mpr_lastError := mpr_lastError r;
                             fsm := fsm r;
                             clients_created := clients_created r;
                             random := {| tape := tape (random r);
                                          drawn := (drawn (random r) + 9)%nat |}
                          |},
                          added k record
                            :: match op with
                               | Some o => [removed (key o)]
                               | None => []
                               end)).
  { unfold diffPrimaryAndEmit. fold op. fold same. by destruct same. }
  assert (Hsame : same = true
            ↔ ∃ o, op = Some o ∧ name o = c_name np
                   ∧ address o = c_address np
                   ∧ port o = c_port np ∧ port o ≠ NaN).
  { subst same. destruct op as [o|]; simpl.
    - rewrite same_primary_iff. split.
      + intros H. by exists o.
      + by intros (o' & [= <-] & H).
    - split; [done|]. by intros (o & Ho & _). }
  split; [|split; [|split; [|split; [|split]]]].
  - destruct same; [done|]. by rewrite Hdiff.
  - done.
  - intros o Ho Hn Ha Hp Hc.
    destruct same eqn:Es.
    + destruct (proj1 Hsame eq_refl) as (o' & Ho' & _ & _ & _ & Hnan).
      rewrite Ho in Ho'. injection Ho' as <-. done.
    + rewrite Hdiff. simpl. by rewrite Ho.
  - destruct (base64_of_9_bytes bytes Hlen) as (H12 & Hpad & _).
    split; [done|]. split; [done|].
    intros bytes' Hlen' Heq. by apply base64_of_9_bytes_inj.
  - pose proof (count_list (diffPrimaryAndEmit np r).1) as [H1 H2]. done.
  - intros url0 urls host Hf Hproto Hhost Hip candidate.
    unfold Resolver.step, on_topology. rewrite Hf, Hproto, Hhost, Hip. simpl.
    fold candidate. by destruct (diffPrimaryAndEmit candidate r).
Qed.

(** *** The state machine *)

Lemma removed_follows_added_weaken b t :
  removed_follows_added false t = true → removed_follows_added b t = true.
Proof. destruct t as [|[] t]; simpl; [done..|]. by destruct b. Qed.

Lemma removed_follows_added_app b t1 t2 :
  removed_follows_added b t1 = true →
  removed_follows_added false t2 = true →
  removed_follows_added b (t1 ++ t2) = true.
Proof.
  revert b. induction t1 as [|[k p|k] t1 IH]; intros b H1 H2; simpl in *.
  - by apply removed_follows_added_weaken.
  - by apply IH.
  - apply andb_prop in H1 as [-> H1]. simpl. by apply IH.
Qed.

Lemma diffPrimaryAndEmit_emits np r :
  (diffPrimaryAndEmit np r).2 = []
  ∨ ∃ k p,
      (mpr_primary r = None ∧ (diffPrimaryAndEmit np r).2 = [added k p])
      ∨ ∃ o, mpr_primary r = Some o
             ∧ (diffPrimaryAndEmit np r).2 = [added k p; removed (key o)].
Proof.
  unfold diffPrimaryAndEmit.
  destruct (mpr_primary r) as [o|] eqn:Ho.
  - destruct (same_primary o np); simpl; [by left|].
    right. do 2 eexists. right. eauto.
  - simpl. right. do 2 eexists. left. eauto.
Qed.

Lemma fsm_state_starting r : fsm (state_starting r) = starting.
Proof. unfold state_starting. by destruct (mpr_manatee r). Qed.

(** What one step emits: nothing, unless it is a [topology] heard in
    [running] that reaches [diffPrimaryAndEmit]. *)
Lemma step_emits i r :
  emitted_by (step i r) = []
  ∨ ∃ urls np,
      i = ManateeTopology urls ∧ fsm r = running
      ∧ emitted_by (step i r) = (diffPrimaryAndEmit np r).2.
Proof.
  unfold Resolver.step.
  destruct i, (fsm r) eqn:Hf; simpl; try (by left).
  unfold on_topology.
  destruct urls as [|url0 urls']; simpl; [by left|].
  destruct (negb _); simpl; [by left|].
  destruct (hostname _) as [host|]; simpl; [|by left].
  destruct (isIPv4 host || isIPv6 host); simpl; [|by left].
  right. eexists (url0 :: urls'), _. split; [done|]. split; [done|].
  match goal with
  | |- context [diffPrimaryAndEmit ?np r] =>
      instantiate (1 := np); by destruct (diffPrimaryAndEmit np r)
  end.
Qed.

Lemma step_well_formed i r :
  removed_follows_added false (emitted_by (step i r)) = true.
Proof.
  destruct (step_emits i r) as [->|(urls & np & _ & _ & ->)]; [done|].
  destruct (diffPrimaryAndEmit_emits np r)
    as [->|(k & p & [[_ ->]|(o & _ & ->)])]; done.
Qed.

Lemma run_well_formed inputs r :
  removed_follows_added false (run inputs r).2 = true.
Proof.
  revert r. induction inputs as [|i inputs IH]; intros r; simpl; [done|].
  specialize (IH (resolver_of (step i r))).
  destruct (run inputs (resolver_of (step i r))) as [r' evs]; simpl in *.
  apply removed_follows_added_app; [apply step_well_formed|done].
Qed.

(** C10.  A step that takes the resolver into [failed] emits nothing: the
    held primary is moved to [mpr_previous], [count()] is 0 and [list()]
    is empty, and no [removed] goes out for its key.  It is the [error]
    of the client, heard in [starting] or [running].  In any run,
    [removed] is emitted only by [diffPrimaryAndEmit], right behind the
    [added] of the same call, and carries the key of the primary that
    call replaced. *)
Theorem failed_clears_primary_silently :
  (∀ i r,
      fsm r ≠ failed → fsm (resolver_of (step i r)) = failed →
      (∃ err, i = ManateeError err)
      ∧ emitted_by (step i r) = []
      ∧ mpr_primary (resolver_of (step i r)) = None
      ∧ mpr_previous (resolver_of (step i r)) = mpr_primary r
      ∧ count (resolver_of (step i r)) = 0
      ∧ Resolver.list (resolver_of (step i r)) = ∅)
  ∧ (∀ err r,
       fsm r = starting ∨ fsm r = running →
       fsm (resolver_of (step (ManateeError err) r)) = failed)
  ∧ (∀ i r,
       emitted_by (step i r) = []
       ∨ ∃ urls np k p,
           i = ManateeTopology urls ∧ fsm r = running
           ∧ emitted_by (step i r) = (diffPrimaryAndEmit np r).2
           ∧ ((mpr_primary r = None ∧ emitted_by (step i r) = [added k p])
              ∨ ∃ o, mpr_primary r = Some o
                     ∧ emitted_by (step i r)
                       = [added k p; removed (key o)]))
  ∧ ∀ inputs r, removed_follows_added false (run inputs r).2 = true.
Proof.
  split; [|split; [|split]].
  - intros i r Hnot Hfailed. unfold Resolver.step in *.
    destruct i, (fsm r) eqn:Hf; simpl in *;
      rewrite ?fsm_state_starting in Hfailed;
      try congruence; try (by repeat split; eauto).
    exfalso. revert Hfailed. unfold on_topology.
    destruct urls as [|url0 urls']; simpl; [congruence|].
    destruct (negb _); simpl; [congruence|].
    destruct (hostname _) as [host|]; simpl; [|congruence].
    destruct (isIPv4 host || isIPv6 host); simpl; [|congruence].
    unfold diffPrimaryAndEmit.
    destruct (match mpr_primary r with Some _ => _ | None => _ end);
      simpl; congruence.
  - intros err r [Hf|Hf]; unfold Resolver.step; by rewrite Hf.
  - intros i r.
    destruct (step_emits i r) as [H|(urls & np & Hi & Hf & Hevs)];
      [by left|].
    destruct (diffPrimaryAndEmit_emits np r) as [H|(k & p & H)].
    + left. by rewrite Hevs.
    + right. exists urls, np, k, p. rewrite Hevs. done.
  - apply run_well_formed.
Qed.

End PrimaryResolver.

Section ResolverRuns.
Import JS Notions Resolver.

Local Abbreviation run := (run sample_url_parse (λ _, true) (λ _, false)).

(** The first primary is added under one key; a topology with the same
    primary emits nothing; the new primary is added under another key and
    the old key is removed right after. *)
Lemma primary_moves_trace :
  let k1 := "AAECAwQFBgcI" in
  let k2 := "CQoLDA0ODxAR" in
  (run primary_moves (new_ManateePrimaryResolver sample_entropy)).2
  = [added k1 {| name := "primary"; address := "1.1.1.1"; port := Num 5432;
                 key := k1 |};
     added k2 {| name := "primary"; address := "9.9.9.9"; port := Num 5432;
                 key := k2 |};
     removed k1].
Proof. by vm_compute. Qed.

(** A primary whose URL has no port is never equal to itself: its port is
    [NaN], and the same URL again is taken for a new primary. *)
Lemma portless_primary_is_replaced :
  (run [CallStart; ManateeReady;
        ManateeTopology ["tcp://1.1.1.1"]; ManateeTopology ["tcp://1.1.1.1"]]
     (new_ManateePrimaryResolver sample_entropy)).2
  = [added "AAECAwQFBgcI"
       {| name := "primary"; address := "1.1.1.1"; port := NaN;
          key := "AAECAwQFBgcI" |};
     added "CQoLDA0ODxAR"
       {| name := "primary"; address := "1.1.1.1"; port := NaN;
          key := "CQoLDA0ODxAR" |};
     removed "AAECAwQFBgcI"].
Proof. by vm_compute. Qed.

End ResolverRuns.

(** * Further properties of the code *)

(** ** Sorting again *)

Section SortedAgain.
Import JS Manatee Notions Measures.

Lemma compare_antisym a b :
  order_positive (compare a b) = true → in_order b a.
Proof.
  unfold in_order, compare.
  destruct (seqOf a) as [|x|s], (seqOf b) as [|y|s']; simpl; try done.
  - rewrite !to_double_sign. intros H. apply Z.ltb_lt in H.
    apply Z.ltb_ge. lia.
  - by destruct s'.
  - by destruct s.
  - by destruct s, s'.
Qed.

Lemma sort_insert_head x l :
  HdRel in_order x l → sort_insert compare x l = x :: l.
Proof. intros [|y l' Hxy]; simpl; [done|]. by rewrite Hxy. Qed.

Lemma sort_insert_in_order x l :
  Sorted in_order l → Sorted in_order (sort_insert compare x l).
Proof.
  induction 1 as [|y l Hs IH Hy]; simpl.
  - by repeat constructor.
  - destruct (order_positive (compare x y)) eqn:E.
    + constructor; [done|].
      destruct Hy as [|z l' Hyz]; simpl.
      * constructor. by apply compare_antisym.
      * destruct (order_positive (compare x z)); constructor;
          [done|by apply compare_antisym].
    + by repeat constructor.
Qed.

Lemma Array_sort_in_order l : Sorted in_order (Array_sort compare l).
Proof.
  induction l as [|x l IH]; simpl; [constructor|].
  by apply sort_insert_in_order.
Qed.

Lemma Array_sort_fixed l :
  Sorted in_order l → Array_sort compare l = l.
Proof.
  induction 1 as [|x l Hs IH Hx]; simpl; [done|].
  rewrite IH. by apply sort_insert_head.
Qed.

Lemma sortChildren_again l : sortChildren (sortChildren l) = sortChildren l.
Proof. apply Array_sort_fixed, Array_sort_in_order. Qed.

Lemma seq_le_in_order a b :
  numbered a → numbered b → seq_le a b → in_order a b.
Proof.
  unfold seq_le, in_order, compare.
  intros (x & -> & _) (y & -> & _) Hle. simpl.
  rewrite to_double_sign. apply Z.ltb_ge. lia.
Qed.

Lemma Sorted_seq_le_in_order l :
  Forall numbered l → Sorted seq_le l → Sorted in_order l.
Proof.
  intros Hnum Hs. induction Hs as [|x l Hs IH Hx]; [constructor|].
  apply Forall_cons in Hnum as [Hnx Hnl].
  constructor; [by apply IH|].
  destruct Hx as [|y l' Hxy]; constructor.
  apply Forall_cons in Hnl as [Hny _]. by apply seq_le_in_order.
Qed.

(** X5.  For names whose tail behind the last ['-'] reads as a number a
    double holds, where [compare] is a consistent comparator and every
    stable sort arranges the array alike: the array [childrenToUrls] has
    sorted in place gives the same list when it is handed in again,
    sorting the sorted array changes nothing, the sorted array is in
    ascending order of the numbers, and an array that is in ascending
    order already is left as it is. *)
Theorem childrenToUrls_sorted_again children :
  Forall numbered children →
  sortChildren (sortChildren children) = sortChildren children
  ∧ childrenToUrls (Some (sortChildren children))
    = childrenToUrls (Some children)
  ∧ StronglySorted seq_le (sortChildren children)
  ∧ (Sorted seq_le children → sortChildren children = children).
Proof.
  intros Hnum.
  split; [apply sortChildren_again|]. split; [|split].
  - unfold childrenToUrls. simpl. by rewrite sortChildren_again.
  - by apply sortChildren_sorted.
  - intros Hs. apply Array_sort_fixed. by apply Sorted_seq_le_in_order.
Qed.

Lemma childrenToUrls_sorted_again_witness :
  let children :=
    ["20.20.20.20:5432:12345-0000000002";
     "21.21.21.21:5432:12345-0000000010";
     "19.19.19.19:5432:12345-0000000001"] in
  sortChildren (sortChildren children)
  = ["19.19.19.19:5432:12345-0000000001";
     "20.20.20.20:5432:12345-0000000002";
     "21.21.21.21:5432:12345-0000000010"]
  ∧ childrenToUrls (Some (sortChildren children))
    = childrenToUrls (Some children).
Proof.
  intros children.
  assert (Hnum : Forall numbered children).
  { repeat constructor; eexists; (split; [by vm_compute|]); simpl; lia. }
  destruct (childrenToUrls_sorted_again children Hnum) as (H1 & H2 & _).
  split; [by rewrite H1|exact H2].
Defined.

End SortedAgain.

(** ** Election names and state documents as the test writes them *)

Section TestHelpers.
Import JS Manatee Notions.

(** X7.  The decoder keeps the host and the PostgreSQL port of the two
    documented name formats: a name [host:pgPort:others-seq] gives
    [tcp://host:pgPort] and a legacy name [host-seq] gives [tcp://host],
    whatever the sequence number, for fields free of ['-'] and [':']; so
    the test's [id(ip)] decodes to its [u(ip)]. *)
Theorem transformPgUrl_keeps_host_and_port host pgPort others seq
    (Hhost : ¬ occurs "-" host ∧ ¬ occurs ":" host)
    (Hport : ¬ occurs "-" pgPort ∧ ¬ occurs ":" pgPort)
    (Hothers : ¬ occurs "-" others) :
  transformPgUrl
    (host +:+ String ":" (pgPort +:+ String ":" (others +:+ String "-" seq)))
  = "tcp://" +:+ host +:+ ":" +:+ pgPort
  ∧ transformPgUrl (host +:+ String "-" seq) = "tcp://" +:+ host
  ∧ transformPgUrl (ClientTest.id host +:+ seq) = ClientTest.u host.
Proof.
  destruct Hhost as [Hhd Hhc], Hport as [Hpd Hpc].
  split; [by apply transformPgUrl_ports|].
  split; [by apply transformPgUrl_legacy|].
  unfold ClientTest.id, ClientTest.u.
  rewrite append_assoc_string.
  change (":5432:12345-" +:+ seq)
    with (String ":" ("5432" +:+ String ":" ("12345" +:+ String "-" seq))).
  rewrite transformPgUrl_ports; try done.
  all: unfold occurs; simpl; intros H;
    repeat (apply elem_of_cons in H as [H|H]; [done|]);
    by apply elem_of_nil in H.
Qed.

Lemma transformPgUrl_keeps_host_and_port_witness :
  transformPgUrl "10.77.77.9:5432:12345:34567-0000000057"
  = "tcp://10.77.77.9:5432"
  ∧ transformPgUrl "10.77.77.9-0000000057" = "tcp://10.77.77.9"
  ∧ transformPgUrl (ClientTest.id "10.77.77.9" +:+ "0000000057")
    = ClientTest.u "10.77.77.9".
Proof.
  apply (transformPgUrl_keeps_host_and_port
           "10.77.77.9" "5432" "12345:34567" "0000000057").
  all: repeat split; unfold occurs; simpl; intros H;
    repeat (apply elem_of_cons in H as [H|H]; [done|]);
    by apply elem_of_nil in H.
Defined.

(** X8.  The state document the test builds from a list of addresses
    reduces to the URLs of those addresses, in order: the first as
    primary, the second as sync, the others as asyncs.  An empty address
    among the first two is left out. *)
Theorem stateFrom_urls ips :
  clusterStateToUrls (ClientTest.stateFrom ips)
  = optional (ClientTest.u <$> ClientTest.given (ips !! 0%nat))
    ++ optional (ClientTest.u <$> ClientTest.given (ips !! 1%nat))
    ++ map ClientTest.u (drop 2 ips)
  ∧ (Forall (λ ip, ip ≠ EmptyString) (take 2 ips) →
     clusterStateToUrls (ClientTest.stateFrom ips) = map ClientTest.u ips).
Proof.
  assert (H : clusterStateToUrls (ClientTest.stateFrom ips)
              = optional (ClientTest.u <$> ClientTest.given (ips !! 0%nat))
                ++ optional (ClientTest.u <$> ClientTest.given (ips !! 1%nat))
                ++ map ClientTest.u (drop 2 ips)).
  { rewrite clusterStateToUrls_order. unfold ClientTest.stateFrom. simpl.
    rewrite <- !option_fmap_compose, map_map. simpl.
    by destruct (ClientTest.given (ips !! 0%nat)),
         (ClientTest.given (ips !! 1%nat)). }
  split; [done|]. rewrite H. clear H.
  destruct ips as [|ip0 [|ip1 ips]]; simpl; [done|..].
  - intros Hne. apply Forall_cons in Hne as [Hne _].
    by rewrite bool_decide_eq_false_2.
  - intros Hne. apply Forall_cons in Hne as [Hne0 Hne].
    apply Forall_cons in Hne as [Hne1 _].
    by rewrite !bool_decide_eq_false_2.
Qed.

End TestHelpers.

(** ** The client over its whole life *)

Section ClientLife.
Import JS Manatee Notions Measures.

Variable toString_utf8 : Buffer → string.
Variable JSON_parse : string → option Document.

Local Abbreviation handleClusterState :=
  (handleClusterState toString_utf8 JSON_parse).
Local Abbreviation turn := (turn toString_utf8 JSON_parse).
Local Abbreviation run := (run toString_utf8 JSON_parse).
Local Abbreviation unparseable := (unparseable toString_utf8 JSON_parse).
Local Abbreviation stateless_document :=
  (stateless_document toString_utf8 JSON_parse).
Local Abbreviation expected := (expected toString_utf8 JSON_parse).


Lemma run_invariant (P : runtime → list event → Prop) :
  (∀ i rt t, P rt t → P (turn i rt).1 (t ++ (turn i rt).2)) →
  ∀ inputs rt t, P rt t → P (run inputs rt).1 (t ++ (run inputs rt).2).
Proof.
  intros Hturn inputs. induction inputs as [|i inputs IH]; intros rt t HP; simpl.
  - by rewrite app_nil_r.
  - specialize (Hturn i rt t HP).
    destruct (turn i rt) as [rt1 evs1]; simpl in *.
    specialize (IH rt1 (t ++ evs1) Hturn).
    destruct (run inputs rt1) as [rt2 evs2]; simpl in *.
    by rewrite app_assoc.
Qed.

Lemma count_events_app f a b :
  count_events f (a ++ b) = (count_events f a + count_events f b)%nat.
Proof. unfold count_events. by rewrite List.filter_app, length_app. Qed.

(** What the debounce can do to a client and emit. *)
Lemma handleTopologyChange_shape urls self :
  ((handleTopologyChange urls self).1 = self
   ∨ (handleTopologyChange urls self).1 = set_urls (default [] urls) self)
  ∧ ((handleTopologyChange urls self).2 = []
     ∨ (handleTopologyChange urls self).2 = [EvTopology (default [] urls)])
  ∧ _urls (handleTopologyChange urls self).1 = default [] urls.
Proof.
  rewrite handleTopologyChange_cases. case_decide as Heq; simpl.
  - split; [by left|]. split; [by left|done].
  - split; [by right|]. split; [|done]. destruct (_inited self); auto.
Qed.

(** A handler touches [_clusterState], [_actives] and [_urls] only, and
    emits [topology] or [error] only. *)
Lemma handleClusterState_frame res self :
  _zk (handleClusterState res self).1 = _zk self
  ∧ _closed (handleClusterState res self).1 = _closed self
  ∧ count_events is_close (handleClusterState res self).2 = O
  ∧ count_events is_error (handleClusterState res self).2
    = (if unparseable (ClusterStateSeen res) then 1 else 0)%nat.
Proof.
  unfold Manatee.handleClusterState, Measures.unparseable.
  destruct (res ≫= data) as [buf|]; simpl.
  - destruct (JSON_parse (toString_utf8 buf)) as [[| |cs]|]; simpl;
      [done| | |done].
    + destruct (handleTopologyChange_shape (Some [])
                  (set_clusterState None self)) as ([->| ->] & [->| ->] & _);
        done.
    + destruct (handleTopologyChange_shape (Some (clusterStateToUrls cs))
                  (set_clusterState (Some cs) self))
        as ([->| ->] & [->| ->] & _); done.
  - destruct (_inited self); simpl; [|done].
    destruct (_actives self) as [a|]; simpl; [|done].
    destruct (handleTopologyChange_shape (Some (childrenToUrls (Some a)))
                (set_actives (Some (sortChildren a))
                   (set_clusterState None self))) as ([->| ->] & [->| ->] & _);
      done.
Qed.

Lemma handleActive_frame res self :
  _zk (handleActive res self).1 = _zk self
  ∧ _closed (handleActive res self).1 = _closed self
  ∧ _clusterState (handleActive res self).1 = _clusterState self
  ∧ count_events is_close (handleActive res self).2 = O
  ∧ count_events is_error (handleActive res self).2 = O.
Proof.
  unfold handleActive. destruct (res ≫= children) as [a|]; simpl; [|done].
  destruct (_clusterState self) eqn:Hcs; simpl; [done|].
  destruct (handleTopologyChange_shape (Some (childrenToUrls (Some a)))
              (set_actives (Some (sortChildren a))
                 (set_actives (Some a) self))) as ([->| ->] & [->| ->] & _);
    done.
Qed.



(** Case analysis on what a turn reads. *)
Local Ltac case_life :=
  repeat first
    [ progress simpl
    | match goal with
      | |- context [match ?x with Some _ => _ | None => _ end] =>
          destruct x eqn:?
      | |- context [if ?b then _ else _] => destruct b eqn:?
      | |- context [match ?e with zk_state => _ | _ => _ end] => destruct e
      end ].

(** The turns that are not a handler's leave [_clusterState], [_actives]
    and [_urls] alone, emit no [error], and emit [close] exactly when
    [close] is called on a client not yet closed. *)
Lemma turn_frame i rt :
  nextTicks rt = [] →
  match i with ClusterStateSeen _ | ActiveSeen _ => False | _ => True end →
  nextTicks (turn i rt).1 = []
  ∧ _clusterState (self_ (turn i rt).1) = _clusterState (self_ rt)
  ∧ _urls (self_ (turn i rt).1) = _urls (self_ rt)
  ∧ _actives (self_ (turn i rt).1) = _actives (self_ rt)
  ∧ count_events is_error (turn i rt).2 = O
  ∧ count_events is_close (turn i rt).2
    = (if match i with CallClose => negb (_closed (self_ rt)) | _ => false end
       then 1 else 0)%nat
  ∧ _closed (self_ (turn i rt).1)
    = (_closed (self_ rt) || match i with CallClose => true | _ => false end).
Proof.
  destruct rt as [self called sess ticks]. simpl. intros -> Hi.
  destruct i as [zk e|zk err|res|res|]; try done; clear Hi;
    unfold Manatee.turn; simpl.
  - unfold on_zk_event, resetZkClientOnce. case_life;
      by rewrite ?orb_false_r.
  - unfold on_setWatches_done, resetZkClientOnce, emitReady. case_life;
      by rewrite ?orb_false_r.
  - unfold close. case_life; rewrite ?orb_true_r; try done.
    all: by match goal with H : negb _ = _ |- _ =>
              apply negb_false_iff in H || apply negb_true_iff in H; rewrite H
            end.
Qed.

Lemma turn_handler_ClusterState res rt :
  nextTicks rt = [] →
  turn (ClusterStateSeen res) rt
  = (with_self (handleClusterState res (self_ rt)).1 rt,
     (handleClusterState res (self_ rt)).2).
Proof.
  destruct rt as [self called sess ticks]. simpl. intros ->.
  unfold Manatee.turn. simpl.
  destruct (handleClusterState res self) as [c evs]. simpl.
  by rewrite app_nil_r.
Qed.

Lemma turn_handler_Active res rt :
  nextTicks rt = [] →
  turn (ActiveSeen res) rt
  = (with_self (handleActive res (self_ rt)).1 rt,
     (handleActive res (self_ rt)).2).
Proof.
  destruct rt as [self called sess ticks]. simpl. intros ->.
  unfold Manatee.turn. simpl.
  destruct (handleActive res self) as [c evs]. simpl.
  by rewrite app_nil_r.
Qed.

Lemma drain_idle rt : nextTicks rt = [] → drain rt = (rt, []).
Proof. destruct rt. simpl. by intros ->. Qed.

Lemma turn_fst i rt :
  (turn i rt).1 = (drain (deliver toString_utf8 JSON_parse i rt).1).1.
Proof.
  unfold Manatee.turn.
  destruct (deliver _ _ i rt) as [rt1 evs]. simpl.
  by destruct (drain rt1).
Qed.

(** *** One open handle at a time *)

Lemma lookup_newest (older : list session) newest zk s :
  Forall (λ s, zk_closed s = true ∧ resetZkClient_called s = true) older →
  (older ++ [newest]) !! zk = Some s →
  resetZkClient_called s = false →
  zk = length older ∧ s = newest.
Proof.
  intros Hold Hlook Hreset.
  apply lookup_app_Some in Hlook as [Hin|[Hge Hin]].
  - apply (proj1 (Forall_lookup _ _) Hold) in Hin as [_ Hr]. congruence.
  - apply list_lookup_singleton_Some in Hin as [Hz <-]. split; [lia|done].
Qed.

Lemma update_handed_off rt zk s s' :
  handed_off rt →
  sessions rt !! zk = Some s →
  resetZkClient_called s' = resetZkClient_called s →
  (zk_closed s = true → zk_closed s' = true) →
  handed_off (with_sessions (<[zk := s']> (sessions rt)) rt).
Proof.
  intros (Hq & older & newest & Hs & Hzk & Hnew & Hold) Hlook Hr Hc.
  split; [done|]. simpl. rewrite Hs in Hlook |- *.
  apply lookup_app_Some in Hlook as [Hin|[Hge Hin]].
  - exists (<[zk := s']> older), newest.
    rewrite insert_app_l by (by eapply lookup_lt_Some).
    rewrite length_insert. split_and!; try done.
    apply Forall_insert; [done|].
    apply (proj1 (Forall_lookup _ _) Hold) in Hin as [Hcl Hre].
    split; [by apply Hc|congruence].
  - apply list_lookup_singleton_Some in Hin as [Hz <-].
    exists older, s'.
    rewrite insert_app_r_alt by done. rewrite Hz. simpl.
    split_and!; try done. congruence.
Qed.

Lemma reset_handed_off rt zk :
  handed_off rt → handed_off (drain (resetZkClientOnce zk rt)).1.
Proof.
  intros Hrt. pose proof Hrt as (Hq & older & newest & Hs & Hzk & Hnew & Hold).
  unfold resetZkClientOnce.
  destruct (sessions rt !! zk) as [s|] eqn:Hlook;
    [|by rewrite drain_idle].
  destruct (resetZkClient_called s) eqn:Hreset; [by rewrite drain_idle|].
  rewrite Hs in Hlook.
  destruct (lookup_newest _ _ _ _ Hold Hlook Hreset) as [-> ->].
  destruct rt as [self called sess ticks]. simpl in *. subst sess ticks.
  rewrite insert_app_r_alt by done. rewrite Nat.sub_diag. simpl.
  split; [done|]. simpl.
  eexists (older ++ [_]), new_session. split_and!; try done.
  apply Forall_app. split; [done|]. by repeat constructor.
Qed.

Lemma with_self_handed_off c rt :
  _zk c = _zk (self_ rt) → handed_off rt → handed_off (with_self c rt).
Proof.
  intros Hzk (Hq & older & newest & Hs & Hz & Hnew & Hold).
  split; [done|]. exists older, newest. simpl. by rewrite Hzk.
Qed.

Lemma turn_handed_off i rt :
  handed_off rt → handed_off (turn i rt).1.
Proof.
  intros Hrt. pose proof Hrt as (Hq & _).
  destruct i as [zk e|zk err|res|res|].
  - rewrite turn_fst. simpl. unfold on_zk_event.
    destruct (sessions rt !! zk) as [s|] eqn:Hlook; [|by rewrite drain_idle].
    destruct (listening s); simpl; [|by rewrite drain_idle].
    destruct e; try (by rewrite drain_idle);
      try (by apply reset_handed_off).
    destruct (setWatches_called s); [by rewrite drain_idle|].
    rewrite drain_idle by done. by eapply update_handed_off.
  - rewrite turn_fst. simpl. unfold on_setWatches_done.
    destruct (sessions rt !! zk) as [s|] eqn:Hlook; [|by rewrite drain_idle].
    destruct (setWatches_called s && negb (setWatches_returned s));
      [|by rewrite drain_idle].
    match goal with
    | |- context [with_sessions ?l rt] =>
        assert (Hup : handed_off (with_sessions l rt))
          by (by eapply update_handed_off)
    end.
    destruct err; [by apply reset_handed_off|].
    unfold emitReady.
    destruct (emitReady_called _); [by rewrite drain_idle|].
    destruct Hup as (Hq' & older & newest & Hs & Hz & Hnew & Hold).
    destruct rt as [self called sess ticks]. simpl in *. subst ticks.
    split; [done|]. by exists older, newest.
  - rewrite turn_handler_ClusterState by done. simpl.
    apply with_self_handed_off; [|done].
    apply handleClusterState_frame.
  - rewrite turn_handler_Active by done. simpl.
    apply with_self_handed_off; [|done].
    apply handleActive_frame.
  - rewrite turn_fst. simpl. unfold close.
    assert (Hup : handed_off
              match _zk (self_ rt) with
              | Some zk =>
                  match sessions rt !! zk with
                  | Some s =>
                      with_sessions
                        (<[zk := {| setWatches_called := setWatches_called s;
                                    setWatches_returned := setWatches_returned s;
                                    resetZkClient_called :=
                                      resetZkClient_called s;
                                    listening := false; zk_closed := true |}]>
                           (sessions rt)) rt
                  | None => rt
                  end
              | None => rt
              end).
    { destruct (_zk (self_ rt)) as [zk|]; [|done].
      destruct (sessions rt !! zk) as [s|] eqn:Hlook; [|done].
      by eapply update_handed_off. }
    match goal with
    | |- context [negb (_closed (self_ ?r))] => generalize dependent r
    end.
    intros rt' Hup. destruct (negb (_closed (self_ rt'))); simpl.
    + rewrite drain_idle by apply Hup.
      by apply with_self_handed_off.
    + by rewrite drain_idle by apply Hup.
Qed.

Lemma handed_off_open rt : handed_off rt → (open_handles rt ≤ 1)%nat.
Proof.
  intros (_ & older & newest & Hs & _ & _ & Hold).
  unfold open_handles. rewrite Hs, List.filter_app, length_app. clear Hs.
  assert (List.filter is_open older = []) as ->.
  { induction Hold as [|s l [Hc _] _ IH]; simpl; [done|].
    unfold is_open at 1. by rewrite Hc. }
  simpl. destruct (is_open newest); simpl; lia.
Qed.

(** *** What every turn keeps *)

Lemma turn_idle i rt : nextTicks rt = [] → nextTicks (turn i rt).1 = [].
Proof.
  intros Hq. destruct i as [zk e|zk err|res|res|];
    try (by apply turn_frame).
  - by rewrite turn_handler_ClusterState.
  - by rewrite turn_handler_Active.
Qed.

Lemma turn_close i rt :
  nextTicks rt = [] →
  count_events is_close (turn i rt).2
  = (if match i with CallClose => negb (_closed (self_ rt)) | _ => false end
     then 1 else 0)%nat
  ∧ _closed (self_ (turn i rt).1)
    = (_closed (self_ rt) || match i with CallClose => true | _ => false end).
Proof.
  intros Hq. destruct i as [zk e|zk err|res|res|];
    try (by apply turn_frame).
  - rewrite turn_handler_ClusterState by done. simpl.
    destruct (handleClusterState_frame res (self_ rt)) as (_ & -> & -> & _).
    by rewrite orb_false_r.
  - rewrite turn_handler_Active by done. simpl.
    destruct (handleActive_frame res (self_ rt)) as (_ & -> & _ & -> & _).
    by rewrite orb_false_r.
Qed.

Lemma turn_error i rt :
  nextTicks rt = [] →
  count_events is_error (turn i rt).2 = (if unparseable i then 1 else 0)%nat.
Proof.
  intros Hq. destruct i as [zk e|zk err|res|res|];
    try (by apply turn_frame).
  - rewrite turn_handler_ClusterState by done. simpl.
    apply handleClusterState_frame.
  - rewrite turn_handler_Active by done. simpl.
    apply handleActive_frame.
Qed.








(** *** The same view again *)






(** X3.  [error] is not latched: in any life of a client there are as many
    [error] events as deliveries of state data that [JSON.parse] rejects,
    one for each. *)
Theorem error_for_every_unparseable_delivery inputs :
  count_events is_error (run inputs started).2
  = length (List.filter unparseable inputs).
Proof.
  assert (H : ∀ rt, nextTicks rt = [] →
              count_events is_error (run inputs rt).2
              = length (List.filter unparseable inputs)).
  { induction inputs as [|i inputs IH]; intros rt Hq; simpl; [done|].
    pose proof (turn_error i rt Hq) as He.
    pose proof (turn_idle i rt Hq) as Hq'.
    destruct (turn i rt) as [rt1 evs1]; simpl in *.
    specialize (IH rt1 Hq').
    destruct (run inputs rt1) as [rt2 evs2]; simpl in *.
    rewrite count_events_app, He, IH.
    by destruct (unparseable i). }
  by apply H.
Qed.

(** X4.  The zookeeper handles are handed off, never held side by side: in
    any life of a client at most one handle is open, [_zk] is the newest
    handle, and every older one has been reset and closed. *)
Theorem one_open_handle inputs :
  let rt := (run inputs started).1 in
  (open_handles rt ≤ 1)%nat
  ∧ _zk (self_ rt) = Some (pred (length (sessions rt)))
  ∧ ∀ zk s, sessions rt !! zk = Some s → (S zk < length (sessions rt))%nat →
      zk_closed s = true ∧ resetZkClient_called s = true.
Proof.
  set (P := λ (rt : runtime) (t : list event), handed_off rt).
  assert (Hturn : ∀ i rt t, P rt t → P (turn i rt).1 (t ++ (turn i rt).2)).
  { intros i rt t Hp. by apply turn_handed_off. }
  assert (Hstart : P started []).
  { split; [done|]. by exists [], new_session. }
  intros rt.
  pose proof (run_invariant P Hturn inputs started [] Hstart) as Hp.
  fold rt in Hp. unfold P in Hp.
  split; [by apply handed_off_open|].
  destruct Hp as (_ & older & newest & Hs & Hzk & _ & Hold).
  rewrite Hs, length_app. simpl. split.
  - rewrite Hzk. f_equal. lia.
  - intros zk s Hlook Hlt.
    apply lookup_app_Some in Hlook as [Hin|[Hge _]]; [|lia].
    by apply (proj1 (Forall_lookup _ _) Hold) in Hin.
Qed.

(** *** The reducer over the life of a client *)







(** X22.  Once the client is inited, the list its [topology] getter
    returns is the list of the last [topology] event; before that, no
    [topology] was emitted. *)
Theorem topology_getter_is_last_event inputs :
  let rt := (run inputs started).1 in
  let evs := (run inputs started).2 in
  if _inited (self_ rt)
  then last (topologies evs) = Some (_urls (self_ rt))
  else topologies evs = [].
Proof.
  cbv zeta.
  by pose proof (run_debounce toString_utf8 JSON_parse inputs started []
                   started_debounce_inv) as (_ & _ & _ & H).
Qed.

(** *** After [close] *)

Lemma shut_update rt zk s' :
  shut rt →
  zk_closed s' = true →
  listening s' = false ∨ resetZkClient_called s' = true →
  shut (with_sessions (<[zk := s']> (sessions rt)) rt)
  ∧ length (sessions (with_sessions (<[zk := s']> (sessions rt)) rt))
    = length (sessions rt).
Proof.
  intros [Hq Hall] Hc Hl. split; [|by simpl; rewrite length_insert].
  split; [done|]. simpl.
  destruct (decide (zk < length (sessions rt))%nat) as [Hlt|Hge].
  - by apply Forall_insert.
  - by rewrite list_insert_ge by lia.
Qed.

Lemma turn_shut i rt :
  failed_setup i = false →
  shut rt →
  shut (turn i rt).1
  ∧ length (sessions (turn i rt).1) = length (sessions rt).
Proof.
  intros Hi Hrt. pose proof Hrt as [Hq Hall].
  destruct i as [zk e|zk err|res|res|].
  - rewrite turn_fst. simpl. unfold on_zk_event.
    destruct (sessions rt !! zk) as [s|] eqn:Hlook; [|by rewrite drain_idle].
    destruct (listening s) eqn:Hl; simpl; [|by rewrite drain_idle].
    pose proof (proj1 (Forall_lookup _ _) Hall _ _ Hlook) as Hs.
    destruct Hs as [Hc [Hl'|Hr]]; [congruence|].
    destruct e; try (by rewrite drain_idle).
    + destruct (setWatches_called s); [by rewrite drain_idle|].
      rewrite drain_idle by done. apply shut_update; auto.
    + unfold resetZkClientOnce. rewrite Hlook, Hr. by rewrite drain_idle.
    + unfold resetZkClientOnce. rewrite Hlook, Hr. by rewrite drain_idle.
  - destruct err; [done|]. rewrite turn_fst. simpl. unfold on_setWatches_done.
    destruct (sessions rt !! zk) as [s|] eqn:Hlook; [|by rewrite drain_idle].
    destruct (setWatches_called s && negb (setWatches_returned s));
      [|by rewrite drain_idle].
    pose proof (proj1 (Forall_lookup _ _) Hall _ _ Hlook) as Hs.
    destruct Hs as [Hc Hl].
    match goal with
    | |- context [with_sessions (<[zk := ?s']> _) rt] =>
        destruct (shut_update rt zk s' Hrt Hc Hl) as [[Hq' Hall'] Hlen]
    end.
    unfold emitReady.
    destruct (emitReady_called _); [by rewrite drain_idle|].
    destruct rt as [self called sess ticks]. simpl in *. subst ticks.
    by split.
  - rewrite turn_handler_ClusterState by done. simpl. by split.
  - rewrite turn_handler_Active by done. simpl. by split.
  - rewrite turn_fst. simpl. unfold close.
    assert (Hup : ∃ rt', match _zk (self_ rt) with
                         | Some zk =>
                             match sessions rt !! zk with
                             | Some s =>
                                 with_sessions
                                   (<[zk := {| setWatches_called :=
                                                 setWatches_called s;
                                               setWatches_returned :=
                                                 setWatches_returned s;
                                               resetZkClient_called :=
                                                 resetZkClient_called s;
                                               listening := false;
                                               zk_closed := true |}]>
                                      (sessions rt)) rt
                             | None => rt
                             end
                         | None => rt
                         end = rt'
                         ∧ shut rt'
                         ∧ length (sessions rt') = length (sessions rt)).
    { eexists. split; [done|].
      destruct (_zk (self_ rt)) as [zk|]; [|done].
      destruct (sessions rt !! zk) as [s|] eqn:Hlook; [|done].
      apply (shut_update rt zk); auto. }
    destruct Hup as (rt' & -> & Hrt' & Hlen).
    destruct (negb (_closed (self_ rt'))); simpl.
    + rewrite drain_idle by apply Hrt'. by split.
    + by rewrite drain_idle by apply Hrt'.
Qed.

Lemma shut_open rt : shut rt → open_handles rt = O.
Proof.
  intros [_ Hall]. unfold open_handles.
  induction Hall as [|s l [Hc _] _ IH]; simpl; [done|].
  unfold is_open at 1. by rewrite Hc.
Qed.

Lemma close_shuts rt : handed_off rt → shut (turn CallClose rt).1.
Proof.
  intros (Hq & older & newest & Hs & Hzk & Hnew & Hold).
  rewrite turn_fst. simpl. unfold close. rewrite Hzk, Hs.
  rewrite lookup_app_r, Nat.sub_diag by lia. simpl.
  rewrite insert_app_r_alt, Nat.sub_diag by lia. simpl.
  assert (Hall : Forall (λ s, zk_closed s = true
                   ∧ (listening s = false ∨ resetZkClient_called s = true))
            (older ++ [{| setWatches_called := setWatches_called newest;
                          setWatches_returned := setWatches_returned newest;
                          resetZkClient_called := resetZkClient_called newest;
                          listening := false; zk_closed := true |}])).
  { apply Forall_app. split.
    - eapply Forall_impl; [exact Hold|]. intros s [? ?]. auto.
    - repeat constructor; simpl; auto. }
  destruct (negb (_closed (self_ _))); simpl; rewrite drain_idle by done;
    by split.
Qed.

Lemma closed_by_reset_update rt zk s s' :
  closed_by_reset rt →
  sessions rt !! zk = Some s →
  (zk_closed s' = true → resetZkClient_called s' = true) →
  closed_by_reset (with_sessions (<[zk := s']> (sessions rt)) rt).
Proof.
  intros Hall Hlook Hs'. unfold closed_by_reset. simpl.
  apply Forall_insert; [done|]. done.
Qed.

Lemma reset_closed_by_reset rt zk :
  nextTicks rt = [] →
  closed_by_reset rt → closed_by_reset (drain (resetZkClientOnce zk rt)).1.
Proof.
  intros Hq Hall. unfold resetZkClientOnce.
  destruct (sessions rt !! zk) as [s|] eqn:Hlook; [|by rewrite drain_idle].
  destruct (resetZkClient_called s) eqn:Hreset; [by rewrite drain_idle|].
  destruct rt as [self called sess ticks]. simpl in *. subst ticks.
  unfold closed_by_reset in *. simpl in *.
  apply Forall_app. split; [|by repeat constructor].
  by apply Forall_insert.
Qed.

Lemma turn_closed_by_reset i rt :
  calls_close i = false → nextTicks rt = [] →
  closed_by_reset rt → closed_by_reset (turn i rt).1.
Proof.
  intros Hi Hq Hall.
  destruct i as [zk e|zk err|res|res|]; [| | | |done].
  - rewrite turn_fst. simpl. unfold on_zk_event.
    destruct (sessions rt !! zk) as [s|] eqn:Hlook; [|by rewrite drain_idle].
    pose proof (proj1 (Forall_lookup _ _) Hall _ _ Hlook) as Hs.
    destruct (listening s); simpl; [|by rewrite drain_idle].
    destruct e; try (by rewrite drain_idle);
      try (by apply reset_closed_by_reset).
    destruct (setWatches_called s); [by rewrite drain_idle|].
    rewrite drain_idle by done. by eapply closed_by_reset_update.
  - rewrite turn_fst. simpl. unfold on_setWatches_done.
    destruct (sessions rt !! zk) as [s|] eqn:Hlook; [|by rewrite drain_idle].
    pose proof (proj1 (Forall_lookup _ _) Hall _ _ Hlook) as Hs.
    destruct (setWatches_called s && negb (setWatches_returned s));
      [|by rewrite drain_idle].
    match goal with
    | |- context [with_sessions ?l rt] =>
        assert (Hup : closed_by_reset (with_sessions l rt))
          by (by eapply closed_by_reset_update)
    end.
    destruct err; [by apply reset_closed_by_reset|].
    unfold emitReady.
    destruct (emitReady_called _); [by rewrite drain_idle|].
    destruct rt as [self called sess ticks]. simpl in *. by subst ticks.
  - by rewrite turn_handler_ClusterState.
  - by rewrite turn_handler_Active.
Qed.

Lemma live_open rt :
  handed_off rt → closed_by_reset rt → open_handles rt = 1%nat.
Proof.
  intros (_ & older & newest & Hs & _ & Hnew & Hold) Hall.
  unfold open_handles, closed_by_reset in *. rewrite Hs in Hall |- *.
  rewrite List.filter_app, length_app.
  assert (List.filter is_open older = []) as ->.
  { clear Hs Hall. induction Hold as [|s l [Hc _] _ IH]; simpl; [done|].
    unfold is_open at 1. by rewrite Hc. }
  apply Forall_app in Hall as [_ Hnewest].
  apply Forall_cons in Hnewest as [Hnewest _]. simpl. unfold is_open.
  destruct (zk_closed newest); [|done].
  specialize (Hnewest eq_refl). congruence.
Qed.

(** X23.  [close()] called once the constructor's tick has run is final
    for the zookeeper handles: from the call on no handle is open, and
    none is made afterwards, whatever zookeeper events, views and calls
    of [close] follow.  ([_setWatches] ending with an error would open a
    new one; [_watchNode] gives its callback no error to end with.)
    [close()] called in the constructor's tick is not: [_zk] is still
    null, the [_init] posted by the constructor then makes a handle
    without looking at [_closed], and the closed client keeps one handle
    open through whatever follows, until [close()] is called again. *)
Theorem close_is_final inputs more :
  forallb (λ i, negb (failed_setup i)) more = true →
  let rt := (turn CallClose (run inputs started).1).1 in
  let early := (turn CallClose construct).1 in
  (open_handles rt = O
   ∧ open_handles (run more rt).1 = O
   ∧ length (sessions (run more rt).1) = length (sessions rt))
  ∧ (_closed (self_ early) = true
     ∧ open_handles early = 1%nat
     ∧ (forallb (λ i, negb (calls_close i)) more = true →
        _closed (self_ (run more early).1) = true
        ∧ open_handles (run more early).1 = 1%nat)).
Proof.
  intros Hmore rt early. split.
  - assert (Hoff : handed_off (run inputs started).1).
    { set (P := λ (rt : runtime) (t : list event), handed_off rt).
      assert (Hturn : ∀ i rt t, P rt t → P (turn i rt).1 (t ++ (turn i rt).2)).
      { intros i r t Hp. by apply turn_handed_off. }
      assert (Hstart : P started []).
      { split; [done|]. by exists [], new_session. }
      exact (run_invariant P Hturn inputs started [] Hstart). }
    assert (Hshut : shut rt) by (by apply close_shuts).
    split; [by apply shut_open|].
    assert (Hrun : ∀ more r,
               forallb (λ i, negb (failed_setup i)) more = true →
               shut r →
               shut (run more r).1
               ∧ length (sessions (run more r).1) = length (sessions r)).
    { clear. intros more.
      induction more as [|i more IH]; intros r Hmore Hr; simpl; [done|].
      simpl in Hmore. apply andb_prop in Hmore as [Hi Hmore].
      apply negb_true_iff in Hi.
      destruct (turn_shut i r Hi Hr) as [Hr1 Hlen1].
      destruct (turn i r) as [r1 evs1]; simpl in *.
      destruct (IH r1 Hmore Hr1) as [Hr2 Hlen2].
      destruct (run more r1) as [r2 evs2]; simpl in *.
      split; [done|]. congruence. }
    destruct (Hrun more rt Hmore Hshut) as [Hshut' Hlen].
    split; [by apply shut_open|done].
  - split; [done|]. split; [done|]. intros Hquiet.
    assert (Hrun : ∀ more r,
               forallb (λ i, negb (calls_close i)) more = true →
               handed_off r → closed_by_reset r →
               _closed (self_ r) = true →
               handed_off (run more r).1 ∧ closed_by_reset (run more r).1
               ∧ _closed (self_ (run more r).1) = true).
    { clear. intros more.
      induction more as [|i more IH]; intros r Hmore Hoff Hres Hcl; simpl;
        [done|].
      simpl in Hmore. apply andb_prop in Hmore as [Hi Hmore].
      apply negb_true_iff in Hi.
      pose proof Hoff as [Hq _].
      pose proof (turn_handed_off i r Hoff) as Hoff1.
      pose proof (turn_closed_by_reset i r Hi Hq Hres) as Hres1.
      destruct (turn_close i r Hq) as [_ Hcl1]. rewrite Hcl in Hcl1.
      destruct (turn i r) as [r1 evs1]; simpl in *.
      specialize (IH r1 Hmore Hoff1 Hres1 Hcl1).
      by destruct (run more r1) as [r2 evs2]. }
    destruct (Hrun more early Hquiet) as (Hoff & Hres & Hcl).
    + split; [done|]. by exists [], new_session.
    + repeat constructor. done.
    + done.
    + split; [done|]. by apply live_open.
Qed.

End ClientLife.

Section ClientWitnesses.
Import Manatee Notions Measures.

Local Abbreviation run := (run sample_toString sample_parse).




Lemma orphaned_life_expected :
  Forall (expected sample_toString sample_parse) orphaned_life
  ∧ _urls (self_ (run orphaned_life started).1) = ["tcp://1.1.1.1:5432"].
Proof.
  split; [|by vm_compute].
  unfold orphaned_life. repeat constructor; done.
Qed.

Lemma close_is_final_witness :
  let rt := (turn sample_toString sample_parse CallClose
               (run [ZkEmits 0 zk_connected; ZkEmits 0 zk_expired] started).1).1
  in
  let more := [ZkEmits 1 zk_connected; SetWatchesDone 1 false;
               ZkEmits 1 zk_expired; ZkEmits 0 zk_error;
               ActiveSeen view_absent] in
  let early := (turn sample_toString sample_parse CallClose construct).1 in
  open_handles rt = O
  ∧ open_handles (run more rt).1 = O
  ∧ open_handles early = 1%nat
  ∧ open_handles (run more early).1 = 1%nat.
Proof.
  cbv zeta.
  destruct (close_is_final sample_toString sample_parse
              [ZkEmits 0 zk_connected; ZkEmits 0 zk_expired]
              [ZkEmits 1 zk_connected; SetWatchesDone 1 false;
               ZkEmits 1 zk_expired; ZkEmits 0 zk_error;
               ActiveSeen view_absent] eq_refl)
    as ((H1 & H2 & _) & _ & H3 & H4).
  destruct (H4 eq_refl) as [_ H5].
  split; [exact H1|]. split; [exact H2|]. split; [exact H3|exact H5].
Defined.



End ClientWitnesses.

(** ** The watch over its whole life *)

Section WatcherLife.
Import Manatee NodeWatcher Measures.

Variable closed : bool.

(** Case analysis on everything a callback reads. *)
Local Ltac case_watch :=
  repeat first
    [ progress simpl
    | match goal with
      | |- context [match ?x with _ => _ end] => destruct x eqn:?
      end ].

Lemma count_requests_app f a b :
  count_requests f (a ++ b)
  = (count_requests f a + count_requests f b)%nat.
Proof. unfold count_requests. by rewrite List.filter_app, length_app. Qed.

Lemma cb_first_app_l a b :
  cb_first a = true → (0 < count_requests is_call_cb a)%nat →
  cb_first (a ++ b) = true.
Proof.
  unfold count_requests.
  induction a as [|r a IH]; simpl; [lia|].
  destruct (is_call_cb r); simpl; [done|].
  destruct (is_call_wat r); simpl; [done|]. apply IH.
Qed.

Lemma cb_first_app_r a b :
  count_requests is_call_cb a = O → count_requests is_call_wat a = O →
  cb_first (a ++ b) = cb_first b.
Proof.
  unfold count_requests.
  induction a as [|r a IH]; simpl; [done|].
  destruct (is_call_cb r), (is_call_wat r); simpl; auto; done.
Qed.

(** One callback: [cb] is called only while it has not been, and then
    first; [wat] only once [cb] has been. *)
Lemma invoke_calls k p v :
  (cb_called v = true →
   cb_called (invoke closed k p v).1 = true
   ∧ count_requests is_call_cb (invoke closed k p v).2 = O)
  ∧ (cb_called v = false →
     (cb_called (invoke closed k p v).1 = false
      ∧ count_requests is_call_cb (invoke closed k p v).2 = O
      ∧ count_requests is_call_wat (invoke closed k p v).2 = O)
     ∨ (cb_called (invoke closed k p v).1 = true
        ∧ count_requests is_call_cb (invoke closed k p v).2 = 1%nat
        ∧ cb_first (invoke closed k p v).2 = true)).
Proof.
  destruct v as [st ch d []].
  all: destruct k, p; simpl;
    unfold on_getData, on_getChildren, on_exists, registerChildrenWatch,
      getData, done, registerDataWatch;
    case_watch; split; intros; simpl in *; simplify_eq; simpl;
    first [done | by left | by right].
Qed.

Lemma fire_calls k p w t :
  (if cb_called (closure w)
   then count_requests is_call_cb t = 1%nat ∧ cb_first t = true
   else count_requests is_call_cb t = O ∧ count_requests is_call_wat t = O) →
  let w' := (fire closed k p w).1 in
  let t' := t ++ (fire closed k p w).2 in
  if cb_called (closure w')
  then count_requests is_call_cb t' = 1%nat ∧ cb_first t' = true
  else count_requests is_call_cb t' = O ∧ count_requests is_call_wat t' = O.
Proof.
  intros Ht. unfold fire. case_bool_decide as Hin; simpl;
    [|by rewrite app_nil_r].
  destruct (invoke_calls k p (closure w)) as [Hyes Hno].
  destruct (invoke closed k p (closure w)) as [v reqs]; simpl in *.
  rewrite !count_requests_app.
  destruct (cb_called (closure w)).
  - destruct (Hyes eq_refl) as [-> Hc]. destruct Ht as [Ht1 Ht2].
    split; [lia|]. apply cb_first_app_l; [done|lia].
  - destruct Ht as [Ht1 Ht2].
    destruct (Hno eq_refl) as [(-> & Hc & Hw)|(-> & Hc & Hf)].
    + split; lia.
    + split; [lia|]. by rewrite cb_first_app_r.
Qed.

Lemma fire_all_calls calls w t :
  (if cb_called (closure w)
   then count_requests is_call_cb t = 1%nat ∧ cb_first t = true
   else count_requests is_call_cb t = O ∧ count_requests is_call_wat t = O) →
  let w' := (fire_all closed calls w).1 in
  let t' := t ++ (fire_all closed calls w).2 in
  if cb_called (closure w')
  then count_requests is_call_cb t' = 1%nat ∧ cb_first t' = true
  else count_requests is_call_cb t' = O ∧ count_requests is_call_wat t' = O.
Proof.
  revert w t. induction calls as [|[k p] calls IH]; intros w t Ht; simpl.
  - by rewrite app_nil_r.
  - pose proof (fire_calls k p w t Ht) as Hf. simpl in Hf.
    destruct (fire closed k p w) as [w1 r1]; simpl in *.
    specialize (IH w1 (t ++ r1) Hf). simpl in IH.
    destruct (fire_all closed calls w1) as [w2 r2]; simpl in *.
    by rewrite app_assoc.
Qed.

(** X9.  However zookeeper and the timers answer, a watch calls [cb] at
    most once, never calls [wat] before [cb], and has called [cb] exactly
    when its [called] flag is set. *)
Theorem cb_once_then_wat calls :
  let w := (fire_all closed calls (watchNode closed).1).1 in
  let t := (watchNode closed).2 ++ (fire_all closed calls (watchNode closed).1).2 in
  count_requests is_call_cb t = (if cb_called (closure w) then 1 else 0)%nat
  ∧ cb_first t = true
  ∧ (cb_called (closure w) = false → count_requests is_call_wat t = O).
Proof.
  intros w t.
  assert (Hstart :
    if cb_called (closure (watchNode closed).1)
    then count_requests is_call_cb (watchNode closed).2 = 1%nat
         ∧ cb_first (watchNode closed).2 = true
    else count_requests is_call_cb (watchNode closed).2 = O
         ∧ count_requests is_call_wat (watchNode closed).2 = O).
  { unfold watchNode, getData. by destruct closed. }
  pose proof (fire_all_calls calls (watchNode closed).1 (watchNode closed).2
                Hstart) as H.
  cbv zeta in H. fold t in H. fold w in H.
  destruct (cb_called (closure w)).
  - destruct H as [H1 H2]. done.
  - destruct H as [H1 H2]. split; [done|]. split; [|done].
    clear -H1 H2. unfold count_requests in *.
    induction t as [|r t IH]; simpl in *; [done|].
    destruct (is_call_cb r), (is_call_wat r); simpl in *; try done.
    by apply IH.
Qed.

(** *** After [close] *)

Lemma invoke_closed k p v :
  Forall (λ r, is_zk_call r = false) (invoke true k p v).2.
Proof.
  destruct v as [st ch d []].
  all: destruct k, p; simpl;
    unfold on_getData, on_getChildren, on_exists, registerChildrenWatch,
      getData, done, registerDataWatch;
    case_watch; simplify_eq; repeat constructor.
Qed.

(** X10.  Once the client is closed a watch issues no zookeeper call any
    more, whatever state it is in and whatever is still delivered to it:
    every chain step returns at its entry.  Starting a watch on a closed
    client issues nothing at all. *)
Theorem closed_watch_is_silent calls w :
  Forall (λ r, is_zk_call r = false) (fire_all true calls w).2
  ∧ watchNode true
    = ({| closure := {| currStat := None; currChildren := None;
                        currData := None; cb_called := false |};
          waiting := [] |}, []).
Proof.
  split; [|done].
  revert w. induction calls as [|[k p] calls IH]; intros w; simpl; [done|].
  assert (Hf : Forall (λ r, is_zk_call r = false) (fire true k p w).2).
  { unfold fire. case_bool_decide; simpl; [|done].
    pose proof (invoke_closed k p (closure w)) as Hinv.
    by destruct (invoke true k p (closure w)). }
  destruct (fire true k p w) as [w1 r1]; simpl in *.
  specialize (IH w1).
  destruct (fire_all true calls w1) as [w2 r2]; simpl in *.
  by apply Forall_app.
Qed.

(** *** One data watch *)

Lemma invoke_carriers k p v :
  (length (List.filter carries_data_watch
             (concat (map registered (invoke closed k p v).2)))
   ≤ if carries_data_watch k then 1 else 0)%nat.
Proof.
  destruct v as [st ch d []].
  all: destruct k as [[]|[[]|]| | | | |], p; simpl;
    unfold on_getData, on_getChildren, on_exists, registerChildrenWatch,
      getData, done, registerDataWatch;
    case_watch; simplify_eq; simpl; lia.
Qed.

Lemma remove_first_carriers k l :
  k ∈ l →
  length (List.filter carries_data_watch (remove_first k l))
  = (length (List.filter carries_data_watch l)
     - if carries_data_watch k then 1 else 0)%nat.
Proof.
  induction l as [|k' l IH]; simpl; intros Hin.
  - by apply elem_of_nil in Hin.
  - case_decide as Heq.
    + subst k'. destruct (carries_data_watch k); simpl; lia.
    + apply elem_of_cons in Hin as [Hin|Hin]; [done|].
      specialize (IH Hin). simpl.
      destruct (carries_data_watch k'); simpl; rewrite IH; [|done].
      destruct (carries_data_watch k) eqn:Hk; [|lia].
      assert (0 < length (List.filter carries_data_watch l))%nat; [|lia].
      clear -Hin Hk. induction l as [|x l IH]; simpl.
      * by apply elem_of_nil in Hin.
      * apply elem_of_cons in Hin as [<-|Hin].
        -- rewrite Hk. simpl. lia.
        -- destruct (carries_data_watch x); simpl; [lia|by apply IH].
Qed.

Lemma fire_carriers k p w :
  (data_watch_carriers (fire closed k p w).1 ≤ S O)%nat ∨
  (data_watch_carriers (fire closed k p w).1 ≤ data_watch_carriers w)%nat.
Proof.
  unfold fire, data_watch_carriers.
  case_bool_decide as Hin; simpl; [|by right].
  pose proof (invoke_carriers k p (closure w)) as Hreq.
  destruct (invoke closed k p (closure w)) as [v reqs]; simpl in *.
  rewrite List.filter_app, length_app, remove_first_carriers by done.
  right. destruct (carries_data_watch k) eqn:Hk; [|lia].
  assert (0 < length (List.filter carries_data_watch (waiting w)))%nat; [|lia].
  clear -Hin Hk. induction (waiting w) as [|x l IH]; simpl.
  - by apply elem_of_nil in Hin.
  - apply elem_of_cons in Hin as [<-|Hin].
    + rewrite Hk. simpl. lia.
    + destruct (carries_data_watch x); simpl; [lia|by apply IH].
Qed.

Lemma data_watches_le w : (data_watches w ≤ data_watch_carriers w)%nat.
Proof.
  unfold data_watches, data_watch_carriers.
  induction (waiting w) as [|k l IH]; simpl; [done|].
  case_bool_decide as Hk; simpl.
  - subst k. simpl. lia.
  - destruct (carries_data_watch k); simpl; lia.
Qed.

(** X11.  The data watch is never duplicated: however zookeeper and the
    timers answer, at most one function is waiting that carries the data
    watch on (the watching read, the children read that ends in it, or the
    watch itself), so at most one data watch is armed. *)
Theorem one_data_watch calls :
  let w := (fire_all closed calls (watchNode closed).1).1 in
  (data_watch_carriers w ≤ 1)%nat ∧ (data_watches w ≤ 1)%nat.
Proof.
  intros w.
  assert (H : ∀ w0, (data_watch_carriers w0 ≤ 1)%nat →
              (data_watch_carriers (fire_all closed calls w0).1 ≤ 1)%nat).
  { induction calls as [|[k p] calls IH]; intros w0 Hw0; simpl; [done|].
    pose proof (fire_carriers k p w0) as Hf.
    destruct (fire closed k p w0) as [w1 r1]; simpl in *.
    assert (Hw1 : (data_watch_carriers w1 ≤ 1)%nat) by (destruct Hf; lia).
    specialize (IH w1 Hw1).
    by destruct (fire_all closed calls w1). }
  assert (Hw : (data_watch_carriers w ≤ 1)%nat).
  { apply H. unfold watchNode, getData, data_watch_carriers.
    destruct closed; simpl; lia. }
  split; [done|]. pose proof (data_watches_le w). lia.
Qed.

(** *** Seeding and re-seeding *)

(** X12.  A node that exists at the start: the first data read sets off
    the children read, [cb] gets one view holding the data, the version
    and the children, and only then is the data watch installed.  A node
    that is absent at the start and created later: [cb] gets the all-null
    view at once, and when the data watch fires and the read finds the
    node at version 0 the children are read and [wat] gets the full
    view. *)
Theorem snapshots_of_a_node data stat children0 :
  (fire_all false
     [(getData_callback true, GetDataResult None data (Some stat));
      (getChildren_callback (Some true), GetChildrenResult None children0)]
     (watchNode false).1).2
  = [zk_getChildren childrenWatchFired (getChildren_callback (Some true));
     call_cb {| Manatee.data := data;
                version := Some (stat_version stat);
                children := children0 |};
     zk_exists dataWatchFired exists_callback]
  ∧ (fire_all false
       [(getData_callback true, GetDataResult (Some NO_NODE) None None);
        (dataWatchFired, Fired);
        (getData_callback true,
         GetDataResult None data (Some {| stat_version := 0 |}));
        (getChildren_callback (Some true), GetChildrenResult None children0)]
       (watchNode false).1).2
    = [call_cb absent_view;
       zk_exists dataWatchFired exists_callback;
       zk_getData (getData_callback true);
       zk_getChildren childrenWatchFired (getChildren_callback (Some true));
       call_wat {| Manatee.data := data; version := Some 0;
                   children := children0 |};
       zk_exists dataWatchFired exists_callback].
Proof. split; reflexivity. Qed.

(** X13.  A node that is there for the first data read and gone for the
    first children read stalls the watch: [cb] is not called, no data
    watch and no timer is set, and nothing but the children watch of the
    failed read is left to call; unless that one fires, whatever else is
    delivered is ignored and the watch stays as it is. *)
Theorem first_children_read_absent_stalls data stat calls
    (Hquiet : Forall (λ c, c.1 ≠ childrenWatchFired) calls) :
  cb_called (closure (gone_between data stat)) = false
  ∧ waiting (gone_between data stat) = [childrenWatchFired]
  ∧ fire_all closed calls (gone_between data stat)
    = (gone_between data stat, []).
Proof.
  split; [done|]. split; [done|].
  induction Hquiet as [|[k p] calls Hk _ IH]; simpl; [done|].
  assert (Hf : fire closed k p (gone_between data stat)
               = (gone_between data stat, [])).
  { unfold fire. rewrite bool_decide_eq_false_2; [done|].
    intros Hin. apply list_elem_of_singleton in Hin. done. }
  rewrite Hf. by rewrite IH.
Qed.

Lemma invoke_data_chain k p v :
  on_data_chain k = true →
  match p with
  | GetDataResult err _ stat => err = None ∧ is_Some stat
  | _ => True
  end →
  is_Some (currStat v) → currChildren v = None → cb_called v = true →
  (is_Some (currStat (invoke closed k p v).1)
   ∧ currChildren (invoke closed k p v).1 = None
   ∧ cb_called (invoke closed k p v).1 = true)
  ∧ Forall (λ r, without_children r
                 ∧ Forall (λ k, on_data_chain k = true) (registered r))
      (invoke closed k p v).2.
Proof.
  destruct v as [st ch d called]. simpl.
  intros Hk Hp [st0 ->] -> ->.
  destruct k, p as [err dat stat| | |]; try done; simpl in *.
  - destruct Hp as [-> [stat0 ->]].
    unfold on_getData, done, registerDataWatch. simpl.
    destruct regWatch, closed; simpl; split; try done;
      repeat constructor; by eauto.
  - unfold on_exists, getData. simpl.
    destruct stat as [stat|]; simpl; [|by split; [eauto|constructor]].
    destruct (negb _), closed; simpl; split; try (by eauto);
      repeat constructor.
  - unfold getData. destruct closed; simpl; split; try (by eauto);
      repeat constructor.
  - unfold getData. destruct closed; simpl; split; try (by eauto);
      repeat constructor.
Qed.

Lemma fire_all_data_chain calls w :
  reads_succeed calls →
  Forall (λ k, on_data_chain k = true) (waiting w) →
  is_Some (currStat (closure w)) → currChildren (closure w) = None →
  cb_called (closure w) = true →
  Forall without_children (fire_all closed calls w).2.
Proof.
  intros Hcalls. revert w.
  induction Hcalls as [|[k p] calls Hp _ IH]; intros w Hw Hst Hch Hcb; simpl;
    [done|].
  assert (Hf : Forall (λ k, on_data_chain k = true)
                 (waiting (fire closed k p w).1)
               ∧ is_Some (currStat (closure (fire closed k p w).1))
               ∧ currChildren (closure (fire closed k p w).1) = None
               ∧ cb_called (closure (fire closed k p w).1) = true
               ∧ Forall without_children (fire closed k p w).2).
  { unfold fire. case_bool_decide as Hin; simpl; [|done].
    assert (Hk : on_data_chain k = true).
    { by apply (proj1 (Forall_forall _ _) Hw). }
    destruct (invoke_data_chain k p (closure w) Hk Hp Hst Hch Hcb)
      as [(H1 & H2 & H3) Hreqs].
    destruct (invoke closed k p (closure w)) as [v reqs]; simpl in *.
    split_and!; try done.
    - apply Forall_app. split; [by apply remove_first_Forall|].
      clear -Hreqs. induction Hreqs as [|r reqs [_ Hr] _ IHr]; simpl; [done|].
      by apply Forall_app.
    - eapply Forall_impl; [exact Hreqs|]. by intros r [Hr _]. }
  destruct Hf as (Hw1 & Hst1 & Hch1 & Hcb1 & Hr1).
  destruct (fire closed k p w) as [w1 r1]; simpl in *.
  specialize (IH w1 Hw1 Hst1 Hch1 Hcb1).
  destruct (fire_all closed calls w1) as [w2 r2]; simpl in *.
  by apply Forall_app.
Qed.

(** X14.  A node that was absent at the start and is first seen again at
    a version other than 0 never gets its children read: as long as the
    data reads find the node, no children read is issued and every view
    handed out has null children. *)
Theorem children_unread_after_late_return data stat calls
    (Hlate : stat_version stat ≠ 0) (Hok : reads_succeed calls) :
  Forall without_children (fire_all closed calls (seen_again data stat)).2.
Proof.
  assert (Hw : seen_again data stat
               = {| closure := {| currStat := Some stat; currChildren := None;
                                  currData := data; cb_called := true |};
                    waiting := [exists_callback; dataWatchFired;
                                exists_callback] |}).
  { unfold seen_again, fire_all, fire, watchNode. simpl.
    unfold on_getData. simpl.
    by rewrite (proj2 (Z.eqb_neq _ _) Hlate). }
  apply fire_all_data_chain; [done|rewrite Hw; simpl..].
  - by repeat constructor.
  - by eauto.
  - done.
  - done.
Qed.

End WatcherLife.

Section WatcherWitnesses.
Import Manatee NodeWatcher Measures.

Lemma children_unread_after_late_return_witness :
  Forall without_children
    (fire_all false
       [(dataWatchFired, Fired);
        (getData_callback true,
         GetDataResult None None (Some {| stat_version := 4 |}));
        (exists_callback, ExistsResult (Some {| stat_version := 5 |}));
        (getData_callback false,
         GetDataResult None None (Some {| stat_version := 5 |}))]
       (seen_again None {| stat_version := 3 |})).2.
Proof.
  apply (children_unread_after_late_return false None {| stat_version := 3 |}).
  - done.
  - repeat constructor; simpl; by eauto.
Defined.

Lemma first_children_read_absent_stalls_witness :
  fire_all false
    [(getData_callback true, GetDataResult None None None);
     (dataWatchFired, Fired); (timeout_getData, Fired)]
    (gone_between None {| stat_version := 0 |})
  = (gone_between None {| stat_version := 0 |}, []).
Proof.
  apply (first_children_read_absent_stalls false None {| stat_version := 0 |}).
  repeat constructor; done.
Defined.

End WatcherWitnesses.

(** ** The resolver over its whole life *)

Section ResolverLife.
Import JS Notions Measures Resolver.

Variable mod_url_parse : string → Url.
Variables isIPv4 isIPv6 : string → bool.

Local Abbreviation step := (step mod_url_parse isIPv4 isIPv6).
Local Abbreviation run := (run mod_url_parse isIPv4 isIPv6).

Lemma diffPrimaryAndEmit_inv np r :
  c_name np = "primary" → fsm r = running →
  resolver_inv r →
  resolver_inv (diffPrimaryAndEmit np r).1
  ∧ Forall well_keyed_event (diffPrimaryAndEmit np r).2
  ∧ fsm (diffPrimaryAndEmit np r).1 = fsm r.
Proof.
  intros Hname Hrun (H1 & H2 & H3 & H4 & H5 & H6).
  unfold diffPrimaryAndEmit.
  destruct (match mpr_primary r with
            | Some o => same_primary o np
            | None => false
            end) eqn:Hsame; [done|].
  pose proof (randomBytes_length 9 (random r)) as Hlen.
  destruct (base64_of_9_bytes _ Hlen) as (H12 & _ & _).
  destruct (randomBytes 9 (random r)) as [bytes e]. simpl in H12.
  set (k := base64 bytes) in *. clearbody k. clear Hlen. simpl.
  assert (Hnew : well_keyed (with_key np k)) by done.
  split; [|split; [|done]].
  - unfold resolver_inv. simpl. split_and!; try done.
    + intros Hf. congruence.
    + by intros p [= <-].
  - constructor; [done|].
    destruct (mpr_primary r) as [o|] eqn:Ho; [|done].
    constructor; [|done]. simpl. by apply (H5 o).
Qed.

Lemma step_inv i r :
  resolver_inv r →
  resolver_inv (resolver_of (step i r))
  ∧ Forall well_keyed_event (emitted_by (step i r)).
Proof.
  intros Hinv. pose proof Hinv as (H1 & H2 & H3 & H4 & H5 & H6).
  unfold Resolver.step.
  destruct i, (fsm r) eqn:Hf; simpl; try done.
  - (* start *)
    split; [|done]. unfold resolver_inv, state_starting.
    destruct (mpr_manatee r) as [n|] eqn:Hm; simpl; rewrite ?Hm;
      split_and!; try done; try (by eauto); try (by intros [|[|]]).
    + intros n' [= <-]. lia.
  - (* stop in running *)
    split; [|done]. unfold resolver_inv. simpl.
    split_and!; try done. by intros [|[|]].
  - (* stop in failed *)
    split; [|done]. unfold resolver_inv. simpl.
    split_and!; try done. by intros [|[|]].
  - (* ready *)
    split; [|done]. unfold resolver_inv. simpl.
    split_and!; try done. intros _. apply H1. by left.
  - (* error in starting *)
    split; [|done]. unfold resolver_inv. simpl.
    split_and!; try done; try (by eauto).
    all: intros _; apply H1; by left.
  - (* error in running *)
    split; [|done]. unfold resolver_inv. simpl.
    split_and!; try done; try (by eauto).
    all: intros _; apply H1; by right; left.
  - (* topology in running *)
    unfold on_topology.
    destruct urls as [|url0 urls']; simpl; [done|].
    destruct (negb _); simpl; [done|].
    destruct (hostname _) as [host|]; simpl; [|done].
    destruct (isIPv4 host || isIPv6 host); simpl; [|done].
    match goal with
    | |- context [diffPrimaryAndEmit ?np r] =>
        destruct (diffPrimaryAndEmit_inv np r eq_refl Hf Hinv) as (Hi & He & _);
        by destruct (diffPrimaryAndEmit np r)
    end.
  - (* timeout in failed *)
    split; [|done]. unfold resolver_inv, state_starting.
    destruct (mpr_manatee r) as [n|] eqn:Hm; simpl; rewrite ?Hm;
      split_and!; try done; try (by eauto); try (by intros [|[|]]).
    + intros n' [= <-]. lia.
Qed.

Lemma run_inv inputs r :
  resolver_inv r →
  resolver_inv (run inputs r).1
  ∧ Forall well_keyed_event (run inputs r).2.
Proof.
  revert r. induction inputs as [|i inputs IH]; intros r Hinv; simpl; [done|].
  destruct (step_inv i r Hinv) as [Hi He].
  specialize (IH _ Hi).
  destruct (run inputs (resolver_of (step i r))) as [r' evs]; simpl in *.
  destruct IH as [Hr Hevs]. split; [done|]. by apply Forall_app.
Qed.

Lemma new_resolver_inv e : resolver_inv (new_ManateePrimaryResolver e).
Proof. unfold resolver_inv. simpl. split_and!; try done. by intros [|[|]]. Qed.

Lemma step_lastError i r :
  mpr_lastError (resolver_of (step i r)) = mpr_lastError r
  ∨ ∃ err, i = ManateeError err
           ∧ mpr_lastError (resolver_of (step i r)) = Some err.
Proof.
  unfold Resolver.step.
  destruct i, (fsm r) eqn:Hf; simpl; try (by left); try (by right; eauto).
  - left. unfold state_starting. by destruct (mpr_manatee r).
  - unfold on_topology.
    destruct urls as [|url0 urls']; simpl; [by left|].
    destruct (negb _); simpl; [by left|].
    destruct (hostname _) as [host|]; simpl; [|by left].
    destruct (isIPv4 host || isIPv6 host); simpl; [|by left].
    left. unfold diffPrimaryAndEmit.
    destruct (match mpr_primary r with
              | Some o => same_primary o _
              | None => false
              end); [done|].
    by destruct (randomBytes 9 (random r)).
  - left. unfold state_starting. by destruct (mpr_manatee r).
Qed.

Lemma step_clients i r :
  resolver_inv r →
  (clients_created (resolver_of (step i r))
   ≤ clients_created r + (if is_start i then 1 else 0))%nat.
Proof.
  intros (H1 & _).
  unfold Resolver.step.
  destruct i, (fsm r) eqn:Hf; simpl; try lia.
  - unfold state_starting. destruct (mpr_manatee r); simpl; lia.
  - unfold on_topology.
    destruct urls as [|url0 urls']; simpl; [lia|].
    destruct (negb _); simpl; [lia|].
    destruct (hostname _) as [host|]; simpl; [|lia].
    destruct (isIPv4 host || isIPv6 host); simpl; [|lia].
    unfold diffPrimaryAndEmit.
    destruct (match mpr_primary r with
              | Some o => same_primary o _
              | None => false
              end); simpl; [lia|].
    destruct (randomBytes 9 (random r)). simpl. lia.
  - unfold state_starting.
    destruct (H1 (or_intror (or_intror eq_refl))) as [n ->]. simpl. lia.
Qed.

Lemma run_clients inputs r :
  resolver_inv r →
  (clients_created (run inputs r).1
   ≤ clients_created r + count_starts inputs)%nat.
Proof.
  revert r. induction inputs as [|i inputs IH]; intros r Hinv; simpl.
  - unfold count_starts. simpl. lia.
  - pose proof (step_clients i r Hinv) as Hi.
    destruct (step_inv i r Hinv) as [Hinv' _].
    specialize (IH _ Hinv').
    destruct (run inputs (resolver_of (step i r))) as [r' evs]; simpl in *.
    unfold count_starts in *. simpl. destruct (is_start i); simpl in *; lia.
Qed.

(** X15.  Whatever the resolver is put through from its construction,
    the states that listen to the client have one: [mpr_manatee] is not
    null in [starting], [running] and [failed].  The machine never rests
    in [stopping]: [close()] emits [close] before it returns, so [stop()]
    in [running] returns with the machine in [stopped], the client
    closed and the reference dropped.  In [failed] an error is on
    record.  [new Manatee] was run at most once for each call of
    [start]. *)
Theorem listening_states_hold_a_client inputs e :
  let r := (run inputs (new_ManateePrimaryResolver e)).1 in
  (fsm r = starting ∨ fsm r = running ∨ fsm r = failed →
   is_Some (mpr_manatee r))
  ∧ fsm r ≠ stopping
  ∧ (fsm r = running →
     fsm (resolver_of (step CallStop r)) = stopped
     ∧ mpr_manatee (resolver_of (step CallStop r)) = None)
  ∧ (fsm r = failed → is_Some (getLastError r) ∧ count r = 0)
  ∧ (clients_created r ≤ count_starts inputs)%nat.
Proof.
  cbv zeta.
  destruct (run_inv inputs _ (new_resolver_inv e))
    as [(H1 & H2 & H3 & _) _].
  pose proof (run_clients inputs _ (new_resolver_inv e)) as Hc.
  split_and!; try done.
  - intros Hf. unfold Resolver.step. by rewrite Hf.
  - intros Hf. destruct (H3 Hf) as [Hp He]. unfold count. by rewrite Hp.
Qed.

(** X16.  Every key the resolver gives out has twelve characters: each
    [added] carries a record named [primary] whose [key] is the key of
    the event, each [removed] carries such a key, and [list()] holds its
    record under the record's own key. *)
Theorem keys_have_twelve_characters inputs e :
  let r := (run inputs (new_ManateePrimaryResolver e)).1 in
  let evs := (run inputs (new_ManateePrimaryResolver e)).2 in
  Forall (λ ev, match ev with
                | added k p =>
                    key p = k ∧ name p = "primary"
                    ∧ String.length k = 12%nat
                | removed k => String.length k = 12%nat
                end) evs
  ∧ (∀ k p, Resolver.list r !! k = Some p →
       key p = k ∧ name p = "primary" ∧ String.length k = 12%nat).
Proof.
  cbv zeta.
  destruct (run_inv inputs _ (new_resolver_inv e))
    as [(_ & _ & _ & _ & H5 & _) Hevs].
  split.
  - eapply Forall_impl; [exact Hevs|].
    intros [k p|k]; simpl; [|done]. by intros [<- [? ?]].
  - intros k p. unfold Resolver.list.
    destruct (mpr_primary _) as [q|] eqn:Hq; [|by rewrite lookup_empty].
    intros Hl. apply lookup_insert_Some in Hl as [[<- <-]|[_ Hl]];
      [|by rewrite lookup_empty in Hl].
    by destruct (H5 q eq_refl).
Qed.

(** X17.  [mpr_lastError] is only ever written by the [error] listener:
    after any inputs [getLastError()] is what it was, or the error of
    one of the client's [error] events.  Nothing resets it, so an error
    once recorded is still reported after the resolver has recovered. *)
Theorem lastError_is_never_cleared inputs r :
  (getLastError (run inputs r).1 = getLastError r
   ∨ ∃ err, ManateeError err ∈ inputs
            ∧ getLastError (run inputs r).1 = Some err)
  ∧ (is_Some (getLastError r) → is_Some (getLastError (run inputs r).1)).
Proof.
  unfold getLastError.
  assert (Hrun : ∀ inputs r,
             mpr_lastError (run inputs r).1 = mpr_lastError r
             ∨ ∃ err, ManateeError err ∈ inputs
                      ∧ mpr_lastError (run inputs r).1 = Some err).
  { clear. intros inputs.
    induction inputs as [|i inputs IH]; intros r; simpl; [by left|].
    specialize (IH (resolver_of (step i r))).
    destruct (run inputs (resolver_of (step i r))) as [r' evs]; simpl in *.
    destruct IH as [IH|(err & Hin & IH)].
    - rewrite IH.
      destruct (step_lastError i r) as [Hs|(err & -> & Hs)]; [by left|].
      right. exists err. split; [by left|done].
    - right. exists err. split; [by right|done]. }
  split; [apply Hrun|].
  intros Hsome. destruct (Hrun inputs r) as [->|(err & _ & ->)]; by eauto.
Qed.

(** X18.  Before the client has said [ready] the resolver announces no
    backend: inputs without [ready] leave it out of [running], emit
    nothing and hold no primary. *)
Theorem no_backend_before_ready inputs e :
  ManateeReady ∉ inputs →
  (run inputs (new_ManateePrimaryResolver e)).2 = []
  ∧ count (run inputs (new_ManateePrimaryResolver e)).1 = 0
  ∧ fsm (run inputs (new_ManateePrimaryResolver e)).1 ≠ running.
Proof.
  intros Hno.
  assert (Hrun : ∀ inputs r,
             ManateeReady ∉ inputs →
             fsm r = stopped ∨ fsm r = starting ∨ fsm r = failed →
             mpr_primary r = None →
             (run inputs r).2 = []
             ∧ mpr_primary (run inputs r).1 = None
             ∧ fsm (run inputs r).1 ≠ running).
  { clear. intros inputs.
    induction inputs as [|i inputs IH]; intros r Hno Hf Hp; simpl.
    - split; [done|]. split; [done|]. by destruct Hf as [->|[->| ->]].
    - apply not_elem_of_cons in Hno as [Hi Hno].
      assert (Hstep : emitted_by (step i r) = []
                      ∧ (fsm (resolver_of (step i r)) = stopped
                         ∨ fsm (resolver_of (step i r)) = starting
                         ∨ fsm (resolver_of (step i r)) = failed)
                      ∧ mpr_primary (resolver_of (step i r)) = None).
      { unfold Resolver.step.
        destruct i, Hf as [Hf|[Hf|Hf]]; rewrite Hf; simpl;
          rewrite ?fsm_state_starting; try (split_and!; by eauto).
        all: unfold state_starting; destruct (mpr_manatee r); simpl;
          split_and!; by eauto. }
      destruct Hstep as (He & Hf' & Hp').
      specialize (IH _ Hno Hf' Hp').
      destruct (run inputs (resolver_of (step i r))) as [r' evs]; simpl in *.
      destruct IH as (-> & IH). rewrite He. by split. }
  destruct (Hrun inputs (new_ManateePrimaryResolver e) Hno) as (He & Hp & Hf);
    [by left|done|].
  split; [done|]. split; [|done]. unfold count. by rewrite Hp.
Qed.

(** X19.  A client that reported an error is neither closed nor
    replaced.  From [failed], both the retry after the timeout and a
    [stop()] followed by [start()] enter [starting] with the client the
    resolver already had: [new Manatee] is not run again. *)
Theorem failed_client_is_kept inputs e :
  let r := (run inputs (new_ManateePrimaryResolver e)).1 in
  fsm r = failed →
  let retried := resolver_of (step TimeoutFired r) in
  let restarted := (run [CallStop; CallStart] r).1 in
  is_Some (mpr_manatee r)
  ∧ fsm retried = starting
  ∧ mpr_manatee retried = mpr_manatee r
  ∧ clients_created retried = clients_created r
  ∧ fsm restarted = starting
  ∧ mpr_manatee restarted = mpr_manatee r
  ∧ clients_created restarted = clients_created r.
Proof.
  cbv zeta. intros Hf.
  destruct (run_inv inputs _ (new_resolver_inv e)) as [(H1 & _) _].
  destruct (H1 (or_intror (or_intror Hf))) as [n Hn].
  destruct (run inputs (new_ManateePrimaryResolver e)) as [r evs].
  simpl in *. unfold Resolver.step. rewrite Hf. simpl.
  unfold state_starting. simpl. rewrite Hn. simpl.
  split_and!; by eauto.
Qed.

Lemma last_added_app_quiet t t' :
  Forall (λ ev, match ev with added _ _ => False | removed _ => True end) t' →
  last_added (t ++ t') = last_added t.
Proof.
  intros Hq. unfold last_added. rewrite omap_app.
  assert (omap (λ ev, match ev with
                      | added _ p => Some p
                      | removed _ => None
                      end) t' = []) as ->.
  { induction Hq as [|[k p|k] l Hx _ IH]; simpl; [done|done|exact IH]. }
  by rewrite app_nil_r.
Qed.

Lemma step_last_added i r t :
  (∀ p, mpr_primary r = Some p → last_added t = Some p) →
  ∀ p, mpr_primary (resolver_of (step i r)) = Some p →
       last_added (t ++ emitted_by (step i r)) = Some p.
Proof.
  intros Hinv. unfold Resolver.step.
  destruct i, (fsm r) eqn:Hf; simpl; rewrite ?app_nil_r; try done.
  - unfold state_starting. by destruct (mpr_manatee r).
  - unfold on_topology.
    destruct urls as [|url0 urls']; simpl; rewrite ?app_nil_r; [done|].
    destruct (negb _); simpl; rewrite ?app_nil_r; [done|].
    destruct (hostname _) as [host|]; simpl; rewrite ?app_nil_r; [|done].
    destruct (isIPv4 host || isIPv6 host); simpl; rewrite ?app_nil_r; [|done].
    unfold diffPrimaryAndEmit.
    destruct (match mpr_primary r with
              | Some o => same_primary o _
              | None => false
              end); simpl; rewrite ?app_nil_r; [done|].
    destruct (randomBytes 9 (random r)) as [bytes e']. simpl.
    intros p [= <-].
    rewrite (app_assoc t [_] _ : t ++ _ :: _ = (t ++ [_]) ++ _).
    rewrite last_added_app_quiet by (by destruct (mpr_primary r); repeat constructor).
    unfold last_added. rewrite omap_app. simpl. by rewrite last_snoc.
  - unfold state_starting. by destruct (mpr_manatee r).
Qed.

(** X20.  The primary the resolver holds is the record of the last
    [added] it emitted: what [list()] returns was announced, and no
    later announcement has replaced it. *)
Theorem held_primary_is_last_added inputs e :
  let r := (run inputs (new_ManateePrimaryResolver e)).1 in
  let evs := (run inputs (new_ManateePrimaryResolver e)).2 in
  (∀ p, mpr_primary r = Some p → last_added evs = Some p)
  ∧ (∀ k p, Resolver.list r !! k = Some p → added k p ∈ evs).
Proof.
  cbv zeta.
  assert (Hrun : ∀ inputs r t,
             (∀ p, mpr_primary r = Some p → last_added t = Some p) →
             ∀ p, mpr_primary (run inputs r).1 = Some p →
                  last_added (t ++ (run inputs r).2) = Some p).
  { clear. intros inputs.
    induction inputs as [|i inputs IH]; intros r t Hinv; simpl.
    - by rewrite app_nil_r.
    - specialize (IH (resolver_of (step i r)) (t ++ emitted_by (step i r))
                    (step_last_added i r t Hinv)).
      destruct (run inputs (resolver_of (step i r))) as [r' evs]; simpl in *.
      by rewrite app_assoc. }
  specialize (Hrun inputs (new_ManateePrimaryResolver e) [] (λ p H, ltac:(done))).
  simpl in Hrun.
  destruct (run_inv inputs _ (new_resolver_inv e)) as [_ Hkeys].
  split; [done|].
  intros k p. unfold Resolver.list.
  destruct (mpr_primary _) as [q|] eqn:Hq; [|by rewrite lookup_empty].
  intros Hl. apply lookup_insert_Some in Hl as [[<- <-]|[_ Hl]];
    [|by rewrite lookup_empty in Hl].
  specialize (Hrun q eq_refl). unfold last_added in Hrun.
  apply last_Some_elem_of in Hrun.
  apply list_elem_of_omap in Hrun as (ev & Hin & Hev).
  destruct ev as [k' p'|k']; [|done]. injection Hev as ->.
  apply (proj1 (Forall_forall _ _) Hkeys) in Hin as Hk.
  destruct Hk as [<- _]. done.
Qed.

(** X21.  Only a [topology] and an [error] of the client touch the
    primary.  Through [start()], [stop()], [ready], [close] and the retry
    timer the resolver emits nothing and [list()] stays what it was: a
    resolver stopped while it held a primary still lists it, and no
    [removed] goes out for it. *)
Theorem stop_keeps_the_primary inputs r :
  forallb quiet inputs = true →
  (run inputs r).2 = []
  ∧ mpr_primary (run inputs r).1 = mpr_primary r
  ∧ Resolver.list (run inputs r).1 = Resolver.list r
  ∧ count (run inputs r).1 = count r.
Proof.
  intros Hq.
  assert (Hrun : (run inputs r).2 = []
                 ∧ mpr_primary (run inputs r).1 = mpr_primary r).
  { revert r. induction inputs as [|i inputs IH]; intros r; simpl; [done|].
    simpl in Hq. apply andb_prop in Hq as [Hi Hq].
    assert (Hstep : emitted_by (step i r) = []
                    ∧ mpr_primary (resolver_of (step i r)) = mpr_primary r).
    { unfold Resolver.step. destruct i, (fsm r); simpl; try done.
      all: unfold state_starting; by destruct (mpr_manatee r). }
    destruct Hstep as [He Hp]. specialize (IH Hq (resolver_of (step i r))).
    destruct (run inputs (resolver_of (step i r))) as [r' evs]; simpl in *.
    destruct IH as [-> IH]. rewrite He. split; [done|]. congruence. }
  destruct Hrun as [He Hp]. unfold Resolver.list, count. by rewrite Hp.
Qed.

Lemma step_balance i r :
  (count_removed (emitted_by (step i r)) + held (resolver_of (step i r))
   ≤ count_added (emitted_by (step i r)) + held r)%nat
  ∧ ((∀ err, i ≠ ManateeError err) →
     (count_added (emitted_by (step i r)) + held r
      = count_removed (emitted_by (step i r))
        + held (resolver_of (step i r)))%nat).
Proof.
  unfold Resolver.step, held, count_added, count_removed.
  destruct i, (fsm r) eqn:Hf; simpl;
    try (split; [lia|intros _; lia]).
  - unfold state_starting. destruct (mpr_manatee r); simpl;
      split; [lia|intros _; lia|lia|intros _; lia].
  - split; [destruct (mpr_primary r); lia|]. intros H. by destruct (H err).
  - split; [destruct (mpr_primary r); lia|]. intros H. by destruct (H err).
  - unfold on_topology.
    destruct urls as [|url0 urls']; simpl; [split; [lia|intros _; lia]|].
    destruct (negb _); simpl; [split; [lia|intros _; lia]|].
    destruct (hostname _) as [host|]; simpl; [|split; [lia|intros _; lia]].
    destruct (isIPv4 host || isIPv6 host); simpl;
      [|split; [lia|intros _; lia]].
    unfold diffPrimaryAndEmit.
    destruct (match mpr_primary r with
              | Some o => same_primary o _
              | None => false
              end); simpl; [split; [lia|intros _; lia]|].
    destruct (randomBytes 9 (random r)) as [bytes e']. simpl.
    destruct (mpr_primary r); simpl; split; try lia; intros _; lia.
  - unfold state_starting. destruct (mpr_manatee r); simpl;
      split; [lia|intros _; lia|lia|intros _; lia].
Qed.

Lemma count_added_app a b :
  count_added (a ++ b) = (count_added a + count_added b)%nat.
Proof. unfold count_added. by rewrite List.filter_app, length_app. Qed.

Lemma count_removed_app a b :
  count_removed (a ++ b) = (count_removed a + count_removed b)%nat.
Proof. unfold count_removed. by rewrite List.filter_app, length_app. Qed.

(** X24.  The backends announced and not withdrawn are never fewer than
    the ones [list()] returns: each [removed] and the held primary have
    an [added] of their own.  As long as the client reports no error the
    two agree, so a listener that follows [added] and [removed] holds
    what [list()] holds.  (An [error] is where they part: it drops the
    primary without a [removed].) *)
Theorem announced_covers_listed inputs e :
  let r := (run inputs (new_ManateePrimaryResolver e)).1 in
  let evs := (run inputs (new_ManateePrimaryResolver e)).2 in
  (count_removed evs + Z.to_nat (count r) ≤ count_added evs)%nat
  ∧ ((∀ err, ManateeError err ∉ inputs) →
     count_added evs = (count_removed evs + Z.to_nat (count r))%nat).
Proof.
  cbv zeta.
  assert (Hcount : ∀ r, Z.to_nat (count r) = held r).
  { intros r. unfold count, held. by destruct (mpr_primary r). }
  rewrite Hcount.
  assert (Hrun : ∀ inputs r,
             (count_removed (run inputs r).2 + held (run inputs r).1
              ≤ count_added (run inputs r).2 + held r)%nat
             ∧ ((∀ err, ManateeError err ∉ inputs) →
                (count_added (run inputs r).2 + held r
                 = count_removed (run inputs r).2 + held (run inputs r).1)%nat)).
  { clear. intros inputs.
    induction inputs as [|i inputs IH]; intros r; simpl.
    - split; [unfold count_removed, count_added; simpl; lia|].
      intros _. unfold count_removed, count_added. simpl. lia.
    - destruct (step_balance i r) as [Hle Heq].
      specialize (IH (resolver_of (step i r))). destruct IH as [IHle IHeq].
      destruct (run inputs (resolver_of (step i r))) as [r' evs]; simpl in *.
      rewrite count_added_app, count_removed_app. split; [lia|].
      intros Hno.
      assert (Hi : ∀ err, i ≠ ManateeError err).
      { intros err ->. apply (Hno err). by left. }
      assert (Hrest : ∀ err, ManateeError err ∉ inputs).
      { intros err Hin. apply (Hno err). by right. }
      specialize (Heq Hi). specialize (IHeq Hrest). lia. }
  destruct (Hrun inputs (new_ManateePrimaryResolver e)) as [Hle Heq].
  unfold held at 2 in Hle. unfold held at 1 in Heq. simpl in Hle, Heq.
  split; [lia|]. intros Hno. specialize (Heq Hno). lia.
Qed.

End ResolverLife.

Section ResolverWitnesses.
Import JS Notions Measures Resolver.

Local Abbreviation step := (step sample_url_parse (λ _, true) (λ _, false)).
Local Abbreviation run := (run sample_url_parse (λ _, true) (λ _, false)).

Lemma no_backend_before_ready_witness :
  (run [CallStart; ManateeTopology ["tcp://1.1.1.1:5432"];
        ManateeError "zk"; TimeoutFired]
     (new_ManateePrimaryResolver sample_entropy)).2 = []
  ∧ count (run [CallStart; ManateeTopology ["tcp://1.1.1.1:5432"];
                ManateeError "zk"; TimeoutFired]
             (new_ManateePrimaryResolver sample_entropy)).1 = 0
  ∧ fsm (run [CallStart; ManateeTopology ["tcp://1.1.1.1:5432"];
              ManateeError "zk"; TimeoutFired]
           (new_ManateePrimaryResolver sample_entropy)).1 ≠ running.
Proof.
  apply (no_backend_before_ready sample_url_parse (λ _, true) (λ _, false)).
  intros Hin. repeat (apply elem_of_cons in Hin as [Hin|Hin]; [done|]).
  by apply elem_of_nil in Hin.
Defined.

Lemma failed_client_is_kept_witness :
  let r := (run [CallStart; ManateeReady; ManateeError "zk"]
              (new_ManateePrimaryResolver sample_entropy)).1 in
  fsm r = failed
  ∧ mpr_manatee (resolver_of (step TimeoutFired r)) = Some O
  ∧ mpr_manatee (run [CallStop; CallStart] r).1 = Some O
  ∧ clients_created (run [CallStop; CallStart] r).1 = 1%nat.
Proof.
  cbv zeta.
  destruct (failed_client_is_kept sample_url_parse (λ _, true) (λ _, false)
              [CallStart; ManateeReady; ManateeError "zk"] sample_entropy
              eq_refl) as (_ & _ & Hr & _ & _ & Hs & Hc).
  split; [done|]. split; [exact Hr|]. split; [exact Hs|exact Hc].
Defined.

Lemma stop_keeps_the_primary_witness :
  let r := (run [CallStart; ManateeReady;
                 ManateeTopology ["tcp://1.1.1.1:5432"]]
              (new_ManateePrimaryResolver sample_entropy)).1 in
  count r = 1
  ∧ (run [CallStop; ManateeClose] r).2 = []
  ∧ fsm (run [CallStop; ManateeClose] r).1 = stopped
  ∧ count (run [CallStop; ManateeClose] r).1 = 1.
Proof.
  cbv zeta.
  destruct (stop_keeps_the_primary sample_url_parse (λ _, true) (λ _, false)
              [CallStop; ManateeClose]
              (run [CallStart; ManateeReady;
                    ManateeTopology ["tcp://1.1.1.1:5432"]]
                 (new_ManateePrimaryResolver sample_entropy)).1 eq_refl)
    as (He & _ & _ & Hc).
  split; [done|]. split; [exact He|]. split; [done|]. by rewrite Hc.
Defined.

End ResolverWitnesses.
